(** * Plynk: planar linkage simulator -- a shallow embedding and its properties

    The Python sources embedded here are [plynk/geometry.py], [plynk/joint.py],
    [plynk/bar.py], [plynk/driver/*.py] and [plynk/linkage.py].

    Numbers.  Python floats are idealised as the real numbers [R]; the two
    run-time failures of float arithmetic that the code depends on are kept
    explicit: [math.sqrt] of a negative number raises [ValueError] and a float
    division by zero raises [ZeroDivisionError].  Rounding and overflow are
    outside the model.

    Identity.  Joints, bars and drivers are Python objects compared by
    identity; a joint is represented by its index ([nat]) in a joint store. *)

From Stdlib Require Import Reals Lra Lia ZArith List String Bool.
From stdpp Require Import base option list gmap sets.
From Equations Require Import Equations.

Open Scope R_scope.

(** Comparisons of numbers are decided, as they are at run time. *)
#[global] Instance Rle_decision (x y : R) : Decision (x <= y) := Rle_dec x y.
#[global] Instance Rlt_decision (x y : R) : Decision (x < y) := Rlt_dec x y.

(* ------------------------------------------------------------------------- *)
(** * Exceptions and results *)

Definition joint_id := nat.

(** The three messages carried by [InvalidLinkageError] in [linkage.py]. *)
Inductive linkage_msg : Type :=
| UnknownJoints (unsolvable : gset joint_id)
    (* "Some joints cannot be solved ... Unknown joints: ..." *)
| NoIntersection (unknown a b : joint_id) (a_bar b_bar : string)
    (* "No physically possible intersections for joint ..." *)
| DistanceConstraint (dist : R) (bar : string) (j1 j2 : joint_id).
    (* "Distance constraint of ... units from bar ... cannot be satisfied." *)

Inductive exn : Type :=
| ValueError
| ZeroDivisionError
| AttributeError
| TypeError
| IndexError
| KeyError
| InvalidLinkageError (m : linkage_msg).

Inductive result (A : Type) : Type :=
| Ok (a : A)
| Raise (e : exn).
Arguments Ok {A} a.
Arguments Raise {A} e.

Definition rbind {A B} (r : result A) (k : A -> result B) : result B :=
  match r with
  | Ok a => k a
  | Raise e => Raise e
  end.

#[global] Instance result_bind : MBind result := fun A B k r => rbind r k.
#[global] Instance result_ret : MRet result := @Ok.

(* ------------------------------------------------------------------------- *)
(** * geometry.py *)

Module Geometry.

Definition point : Type := R * R.

(** [math.sqrt]: raises [ValueError] outside its domain. *)
Definition math_sqrt (x : R) : result R :=
  if Rlt_dec x 0 then Raise ValueError else Ok (sqrt x).

(** Float division [x / y]: raises [ZeroDivisionError] when [y] is zero. *)
Definition fdiv (x y : R) : result R :=
  if Req_dec_T y 0 then Raise ZeroDivisionError else Ok (x / y).

(** The body of the [try] block of [circular_intersection] (lines 20-28). *)
Definition circular_intersection_try (a_center : point) (a_radius : R)
    (b_center : point) (b_radius : R) : result (point * point) :=
  let '(x_A, y_A) := a_center in
  let '(x_B, y_B) := b_center in
  L_C ← math_sqrt ((x_A - x_B) ^ 2 + (y_A - y_B) ^ 2);
  b ← fdiv (b_radius ^ 2 - a_radius ^ 2 + L_C ^ 2) (2 * L_C);
  h ← math_sqrt (b_radius ^ 2 - b ^ 2);
  bx ← fdiv (b * (x_A - x_B)) L_C;
  let x_P := x_B + bx in
  by_ ← fdiv (b * (y_A - y_B)) L_C;
  let y_P := y_B + by_ in
  hx1 ← fdiv (h * (y_B - y_A)) L_C;
  let x_1 := x_P + hx1 in
  hy1 ← fdiv (h * (x_B - x_A)) L_C;
  let y_1 := y_P - hy1 in
  hx2 ← fdiv (h * (y_B - y_A)) L_C;
  let x_2 := x_P - hx2 in
  hy2 ← fdiv (h * (x_B - x_A)) L_C;
  let y_2 := y_P + hy2 in
  Ok ((x_1, y_1), (x_2, y_2)).

(** [circular_intersection]: only [ValueError] is caught and turned into
    [None]; every other exception leaves the function. *)
Definition circular_intersection (a_center : point) (a_radius : R)
    (b_center : point) (b_radius : R) : result (option (point * point)) :=
  match circular_intersection_try a_center a_radius b_center b_radius with
  | Ok pts => Ok (Some pts)
  | Raise ValueError => Ok None
  | Raise e => Raise e
  end.

(** [distance] *)
Definition distance (point1 point2 : point) : R :=
  sqrt ((fst point1 - fst point2) ^ 2 + (snd point1 - snd point2) ^ 2).

(** [math.atan2 y x]. *)
Definition atan2 (y x : R) : R :=
  if Rlt_dec 0 x then atan (y / x)
  else if Rlt_dec x 0 then
    (if Rle_dec 0 y then atan (y / x) + PI else atan (y / x) - PI)
  else if Rlt_dec 0 y then PI / 2
  else if Rlt_dec y 0 then - (PI / 2)
  else 0.

(** [line_angle] *)
Definition line_angle (endpoint1 endpoint2 : point) : R :=
  atan2 (snd endpoint2 - snd endpoint1) (fst endpoint2 - fst endpoint1).

(** [line_extension] *)
Definition line_extension (endpoint_1 endpoint_2 : point) (L : R) : point :=
  let angle := line_angle endpoint_1 endpoint_2 in
  (fst endpoint_2 + L * cos angle, snd endpoint_2 + L * sin angle).

(** A point of the circle of the given centre and radius. *)
Definition on_circle (p center : point) (radius : R) : Prop :=
  (fst p - fst center) ^ 2 + (snd p - snd center) ^ 2 = radius ^ 2.

(** [law_of_cosines] *)
Definition law_of_cosines (a b gamma : R) : result R :=
  math_sqrt (a * a + b * b - 2 * a * b * cos gamma).

End Geometry.

(* ------------------------------------------------------------------------- *)
(** * joint.py *)

Module Joint.

Import Geometry.

(** A [Joint] object.  [location = None] is Python's [None] (unknown). *)
Record t : Type := mk {
  label : string;
  location : option point;
  fixed : bool;
  chooser : option (point -> point -> point)
}.

(** [Joint.__setattr__] restricted to the attribute ["location"]: the guard
    of lines 23-26. *)
Definition setattr_location (self : t) (val : option point) : result t :=
  if fixed self then Raise AttributeError
  else Ok (mk (label self) val (fixed self) (chooser self)).

(** [Joint.__init__]: [self.fixed] is [False] while the location is stored,
    so the guard does not fire during construction. *)
Definition init (lbl : string) (loc : option point) (fx : bool)
    (ch : option (point -> point -> point)) : t :=
  mk lbl loc fx ch.

(** [is_known] *)
Definition is_known (self : t) : bool :=
  match location self with Some _ => true | None => false end.

(** [set_location(location1, location2 = None)].  The choosers index both
    arguments, so a [None] first candidate is a [TypeError]. *)
Definition set_location (self : t) (location1 location2 : option point)
    : result t :=
  match location2 with
  | None => setattr_location self location1
  | Some l2 =>
      match chooser self with
      | Some ch =>
          match location1 with
          | Some l1 => setattr_location self (Some (ch l1 l2))
          | None => Raise TypeError
          end
      | None => Raise ValueError
      end
  end.

(** [reset_fixed_location] *)
Definition reset_fixed_location (self : t) (newloc : option point) : result t :=
  if negb (fixed self) then Raise ValueError
  else Ok (mk (label self) newloc (fixed self) (chooser self)).

Definition greater_x (point1 point2 : point) : point :=
  if Rlt_dec (fst point2) (fst point1) then point1 else point2.
Definition greater_y (point1 point2 : point) : point :=
  if Rlt_dec (snd point2) (snd point1) then point1 else point2.
Definition lesser_x (point1 point2 : point) : point :=
  if Rlt_dec (fst point1) (fst point2) then point1 else point2.
Definition lesser_y (point1 point2 : point) : point :=
  if Rlt_dec (snd point1) (snd point2) then point1 else point2.

End Joint.

(** The joint objects of a program, by identity.  Every identity denotes an
    object: identities outside the explicit part of the store denote a blank
    joint. *)
#[global] Instance joint_inhabited : Inhabited Joint.t :=
  populate (Joint.mk EmptyString None false None).

Abbreviation heap := (gmap joint_id Joint.t).

(* ------------------------------------------------------------------------- *)
(** * bar.py *)

Module Bar.

Record t : Type := mk {
  label : string;
  joints : list joint_id;
  segment_lengths : list R
}.

(** [Bar.__init__] *)
Definition init (lbl : string) (js : list joint_id) (segs : list R) : result t :=
  if negb (2 <=? length js)%nat then Raise ValueError
  else if negb (length segs =? length js - 1)%nat then Raise ValueError
  else Ok (mk lbl js segs).

(** The [for index, element in enumerate(self.joints)] loop of
    [origin_distance], from position [index] on. *)
Fixpoint origin_distance_loop (segs : list R) (joint : joint_id)
    (rest : list joint_id) (index : nat) (distance : R) : result R :=
  match rest with
  | [] => Ok distance
  | element :: rest' =>
      if decide (joint = element) then Ok distance
      else match segs !! index with
           | Some s => origin_distance_loop segs joint rest' (S index) (distance + s)
           | None => Raise IndexError
           end
  end.

(** [origin_distance] *)
Definition origin_distance (self : t) (joint : joint_id) : result R :=
  if negb (bool_decide (joint ∈ joints self)) then Raise ValueError
  else origin_distance_loop (segment_lengths self) joint (joints self) 0 0.

(** [joint_distance] *)
Definition joint_distance (self : t) (joint1 joint2 : joint_id) : result R :=
  d1 ← origin_distance self joint1;
  d2 ← origin_distance self joint2;
  Ok (Rabs (d1 - d2)).

(** The cumulative offset that the specification assigns to chain position
    [k]: the sum of the first [k] segment lengths. *)
Definition prefix_sum (segs : list R) (k : nat) : R :=
  fold_right Rplus 0 (take k segs).

(** [self.joints.index(joint)]: the first position holding [joint]. *)
Fixpoint index_of (joint : joint_id) (l : list joint_id) : option nat :=
  match l with
  | [] => None
  | x :: tl => if decide (joint = x) then Some 0%nat
               else S <$> index_of joint tl
  end.

(** [joints[i]] on the chain. *)
Definition chain_at (self : t) (i : nat) : result joint_id :=
  match joints self !! i with
  | Some j => Ok j
  | None => Raise IndexError
  end.

(** [neighbor_joints] *)
Definition neighbor_joints (self : t) (joint : joint_id) : result (list joint_id) :=
  match index_of joint (joints self) with
  | None => Raise ValueError
  | Some i =>
      if (i =? 0)%nat then
        j1 ← chain_at self 1; Ok [j1]
      else if (i =? length (joints self) - 1)%nat then
        jp ← chain_at self (i - 1); Ok [jp]
      else
        jp ← chain_at self (i - 1);
        jn ← chain_at self (i + 1);
        Ok [jp; jn]
  end.

(** [known_endpoints]: the sum of [joint.is_known()] over the chain. *)
Definition known_endpoints (self : t) (h : heap) : nat :=
  fold_left (fun acc joint => (acc + if Joint.is_known (h !!! joint) then 1 else 0)%nat)
            (joints self) 0%nat.

End Bar.

(* ------------------------------------------------------------------------- *)
(** * driver/driver.py, crank.py, rocker.py, slider.py *)

Module Driver.

Import Geometry.

(** The subclasses of [Driver] with the attributes each one adds. *)
Inductive variant : Type :=
| Crank (length starting_angle : R)
| Rocker (length starting_angle ending_angle : R)
| Slider (endpoint : point).

(** [oid] stands for the identity of the Python object: drivers are compared
    and hashed by identity. *)
Record t : Type := mk {
  oid : nat;
  label : string;
  location : point;
  attachment_joint : joint_id;
  speed : R;
  kind : variant
}.

(** [math.fmod x y] for a non-zero [y]: the remainder has the sign of [x]
    (the quotient is truncated towards zero). *)
Definition Ztrunc (x : R) : Z :=
  if Rle_dec 0 x then Zfloor x else Zceil x.
Definition math_fmod (x y : R) : R := x - IZR (Ztrunc (x / y)) * y.

(** [point_for_time] of the three subclasses. *)
Definition point_for_time (self : t) (time : R) : point :=
  match kind self with
  | Crank length starting_angle =>
      (fst (location self) + length * cos (starting_angle + time * 2 * PI),
       snd (location self) + length * sin (starting_angle + time * 2 * PI))
  | Rocker length starting_angle ending_angle =>
      let angle :=
        if Rlt_dec time 0.5
        then starting_angle + time * 2 * (ending_angle - starting_angle)
        else ending_angle - (time - 0.5) * 2 * (ending_angle - starting_angle) in
      let angle := (angle / 360.0) * 2 * PI in
      (fst (location self) + length * cos angle,
       snd (location self) + length * sin angle)
  | Slider endpoint =>
      let length := distance (location self) endpoint in
      let angle := line_angle (location self) endpoint in
      let distance :=
        if Rlt_dec time 0.5 then time * 2 * length
        else length - (time - 0.5) * 2 * length in
      (fst (location self) + distance * cos angle,
       snd (location self) + distance * sin angle)
  end.

(** [update_attachment_point]: the assignment goes through the joint's
    [__setattr__]. *)
Definition update_attachment_point (self : t) (time : R) (h : heap) : result heap :=
  let j := attachment_joint self in
  j' ← Joint.setattr_location (h !!! j)
         (Some (point_for_time self (math_fmod (time * speed self) 1.0)));
  Ok (<[j := j']> h).

(** Degrees to radians, as the specification words the conversion. *)
Definition radians (degrees : R) : R := degrees * PI / 180.

(** The wrap as the specification words it: [x mod 1.0], the fractional
    part of [x], a number of [0, 1). *)
Definition spec_mod_1 (x : R) : R := x - IZR (Zfloor x).

End Driver.

(* ------------------------------------------------------------------------- *)
(** * linkage.py *)

Module Linkage.

Import Geometry.

(** ** The closures built by [generate_simulation_function]

    The elements of [function_list] are a driver's bound method
    [update_attachment_point] or one of the two [solver] closures; each is
    represented by its kind together with the variables it captures. *)
Inductive step : Type :=
| DriverStep (driver : Driver.t)
| IntersectionStep (unknown_joint a b : joint_id) (a_bar b_bar : Bar.t)
| ExtensionStep (joint : joint_id) (bar : Bar.t) (joints : list joint_id).

(** Indexing a location that is [None] is a [TypeError]. *)
Definition the_point (p : option point) : result point :=
  match p with Some q => Ok q | None => Raise TypeError end.

(** [joints[i]] on a Python list. *)
Definition list_index (l : list joint_id) (i : nat) : result joint_id :=
  match l !! i with Some j => Ok j | None => Raise IndexError end.

(** The [solver] closure of [solver_for_intersection]. *)
Definition run_intersection (unknown_joint a b : joint_id) (a_bar b_bar : Bar.t)
    (h : heap) : result heap :=
  let a_loc := Joint.location (h !!! a) in
  ra ← Bar.joint_distance a_bar unknown_joint a;
  let b_loc := Joint.location (h !!! b) in
  rb ← Bar.joint_distance b_bar unknown_joint b;
  a_center ← the_point a_loc;
  b_center ← the_point b_loc;
  loc ← circular_intersection a_center ra b_center rb;
  match loc with
  | None =>
      Raise (InvalidLinkageError
               (NoIntersection unknown_joint a b (Bar.label a_bar) (Bar.label b_bar)))
  | Some (l1, l2) =>
      j' ← Joint.set_location (h !!! unknown_joint) (Some l1) (Some l2);
      Ok (<[unknown_joint := j']> h)
  end.

(** The [solver] closure of [solver_for_joint_on_bar_given_joints]. *)
Definition run_extension (joint : joint_id) (bar : Bar.t) (joints : list joint_id)
    (h : heap) : result heap :=
  j0 ← list_index joints 0;
  let loc0 := Joint.location (h !!! j0) in
  j1 ← list_index joints 1;
  let loc1 := Joint.location (h !!! j1) in
  d ← Bar.origin_distance bar joint;
  d1 ← Bar.origin_distance bar j1;
  endpoint_1 ← the_point loc0;
  endpoint_2 ← the_point loc1;
  j' ← Joint.set_location (h !!! joint)
         (Some (line_extension endpoint_1 endpoint_2 (d - d1))) None;
  Ok (<[joint := j']> h).

(** Calling one element of [function_list] with the simulated time. *)
Definition run_step (f : step) (time : R) (h : heap) : result heap :=
  match f with
  | DriverStep d => Driver.update_attachment_point d time h
  | IntersectionStep u a b a_bar b_bar => run_intersection u a b a_bar b_bar h
  | ExtensionStep j bar js => run_extension j bar js h
  end.

(** [for function in function_list: function(time)].  The joint store is
    returned in both outcomes: an exception leaves the joints updated by the
    steps that ran before it. *)
Fixpoint run_steps (function_list : list step) (time : R) (h : heap)
    : result unit * heap :=
  match function_list with
  | [] => (Ok tt, h)
  | f :: rest =>
      match run_step f time h with
      | Ok h' => run_steps rest time h'
      | Raise e => (Raise e, h)
      end
  end.

(** [pairwise]: s -> (s0,s1), (s1,s2), ... *)
Fixpoint pairwise {A} (l : list A) : list (A * A) :=
  match l with
  | a :: (b :: _) as tl => (a, b) :: pairwise tl
  | _ => []
  end.

(** The body of the validity loop of [sim_function] for one pair of
    chain-adjacent joints (lines 235-240). *)
Definition check_pair (validity_margin : R) (h : heap) (bar : Bar.t)
    (joints : joint_id * joint_id) : result unit :=
  let p1 := Joint.location (h !!! joints.1) in
  let p2 := Joint.location (h !!! joints.2) in
  q1 ← the_point p1;
  q2 ← the_point p2;
  let real_dist := distance q1 q2 in
  dist ← Bar.joint_distance bar joints.1 joints.2;
  if Rlt_dec (Rabs (dist - real_dist)) validity_margin then Ok tt
  else Raise (InvalidLinkageError
                (DistanceConstraint dist (Bar.label bar) joints.1 joints.2)).

Fixpoint check_pairs (validity_margin : R) (h : heap) (bar : Bar.t)
    (pairs : list (joint_id * joint_id)) : result unit :=
  match pairs with
  | [] => Ok tt
  | p :: rest =>
      _ ← check_pair validity_margin h bar p;
      check_pairs validity_margin h bar rest
  end.

Fixpoint check_bars (validity_margin : R) (h : heap) (bars : list Bar.t)
    : result unit :=
  match bars with
  | [] => Ok tt
  | bar :: rest =>
      _ ← check_pairs validity_margin h bar (pairwise (Bar.joints bar));
      check_bars validity_margin h rest
  end.

(** [sim_function]: the closure returned by [generate_simulation_function],
    over the [function_list], [self.bars] and [validity_margin] it captures. *)
Definition sim_function (function_list : list step) (bars : list Bar.t)
    (validity_margin : R) (time : R) (h : heap) : result unit * heap :=
  match run_steps function_list time h with
  | (Ok _, h') => (check_bars validity_margin h' bars, h')
  | (Raise e, h') => (Raise e, h')
  end.

(** ** [generate_simulation_function]: enumeration of the candidate solvers *)

(** An element of [requirements_to_functions]:
    [(requirement_set, joint, solver)]. *)
Definition candidate : Type := gset joint_id * joint_id * step.

(** [bars_connected_to_joint] *)
Definition bars_connected_to_joint (bars : list Bar.t) (joint : joint_id)
    : list Bar.t :=
  filter (fun bar => joint ∈ Bar.joints bar) bars.

(** [list.remove(x)] for an [x] that occurs: drops the first occurrence. *)
Fixpoint list_remove (x : joint_id) (l : list joint_id) : list joint_id :=
  match l with
  | [] => []
  | y :: tl => if decide (x = y) then tl else y :: list_remove x tl
  end.

(** [itertools.combinations(l, 2)] *)
Fixpoint combinations {A} (l : list A) : list (A * A) :=
  match l with
  | [] => []
  | x :: tl => map (fun y => (x, y)) tl ++ combinations tl
  end.

(** [itertools.product(l1, l2)] *)
Definition product {A B} (l1 : list A) (l2 : list B) : list (A * B) :=
  flat_map (fun a => map (fun b => (a, b)) l2) l1.

(** [next(bar for bar in bars if j in bar.joints)] on a pair of bars of
    which the second one is taken when the first does not hold [j]. *)
Definition next_bar_with (j : joint_id) (bars : Bar.t * Bar.t) : Bar.t :=
  if bool_decide (j ∈ Bar.joints bars.1) then bars.1 else bars.2.

(** [solver_for_intersection] *)
Definition solver_for_intersection (unknown_joint : joint_id)
    (known_joints : joint_id * joint_id) (bars : Bar.t * Bar.t) : step :=
  let a := known_joints.1 in
  let b := known_joints.2 in
  IntersectionStep unknown_joint a b (next_bar_with a bars) (next_bar_with b bars).

(** [solver_for_joint_on_bar_given_joints] *)
Definition solver_for_joint_on_bar_given_joints (joint : joint_id)
    (bar : Bar.t) (joints : list joint_id) : step :=
  ExtensionStep joint bar joints.

Section Compilation.

(** The order in which Python iterates over a [set] of joints is not fixed by
    the program; it is a parameter of the embedding. *)
Variable set_order : gset joint_id -> list joint_id.

(** The body of the loop of Step 1 for one unknown [joint]
    (lines 166-190). *)
Definition solvers_for_joint (all_bars : list Bar.t) (joint : joint_id)
    : list candidate :=
  let bars := bars_connected_to_joint all_bars joint in
  let extension :=
    flat_map
      (fun bar =>
         let other_joints := list_remove joint (Bar.joints bar) in
         map (fun pair : joint_id * joint_id =>
                (({[pair.1; pair.2]} : gset joint_id), joint,
                 solver_for_joint_on_bar_given_joints joint bar other_joints))
             (combinations other_joints))
      (filter (fun bar => (2 < length (Bar.joints bar))%nat) bars) in
  if (length bars <? 2)%nat then extension
  else
    extension ++
    flat_map
      (fun bar_pair : Bar.t * Bar.t =>
         let b1_joints : gset joint_id :=
           list_to_set (Bar.joints bar_pair.1) ∖ {[joint]} in
         let b2_joints : gset joint_id :=
           list_to_set (Bar.joints bar_pair.2) ∖ {[joint]} in
         map (fun joint_pair : joint_id * joint_id =>
                (({[joint_pair.1; joint_pair.2]} : gset joint_id), joint,
                 solver_for_intersection joint joint_pair bar_pair))
             (product (set_order b1_joints) (set_order b2_joints)))
      (combinations bars).

(** The initial [solved_joints] (line 157). *)
Definition initial_solved (h : heap) (joints : list joint_id)
    (drivers : list Driver.t) : gset joint_id :=
  list_to_set (map Driver.attachment_joint drivers)
  ∪ list_to_set (filter (fun j => Joint.fixed (h !!! j) = true) joints).

(** Step 1 (lines 161-190). *)
Definition all_solvers (bars : list Bar.t) (joints : list joint_id)
    (solved_joints : gset joint_id) : list candidate :=
  flat_map (solvers_for_joint bars)
           (set_order (list_to_set joints ∖ solved_joints)).

End Compilation.

(** ** [generate_simulation_function]: the fixpoint of Step 2 *)

(** The state of one pass of the [for solver in requirements_to_functions]
    loop: [round_solved], [function_list], [solved_joints] and
    [new_requirements_to_functions].  Every tuple of the Python list is a
    distinct object (it holds its own closure), so removing the activated
    ones from the copy keeps exactly the others, in order; [kept] collects
    them. *)
Record pass_state : Type := mk_pass {
  round_solved : bool;
  function_list : list step;
  solved_joints : gset joint_id;
  kept : list candidate
}.

Definition pass_step (st : pass_state) (solver : candidate) : pass_state :=
  let '(requirement_set, joint, f) := solver in
  if decide (requirement_set ⊆ solved_joints st) then
    if decide (joint ∈ solved_joints st) then
      mk_pass (round_solved st) (function_list st) (solved_joints st)
              (kept st ++ [solver])
    else
      mk_pass true (function_list st ++ [f]) ({[joint]} ∪ solved_joints st)
              (kept st)
  else
    mk_pass (round_solved st) (function_list st) (solved_joints st)
            (kept st ++ [solver]).

(** One iteration of the [while(True)] loop up to line 216. *)
Definition pass (requirements_to_functions : list candidate)
    (function_list0 : list step) (solved0 : gset joint_id) : pass_state :=
  fold_left pass_step requirements_to_functions
            (mk_pass false function_list0 solved0 []).

(** A pass that activates a solver retires it: the list of remaining
    candidates gets shorter.  This is what makes the [while] loop end. *)
Lemma pass_step_measure (st : pass_state) (c : candidate) :
  (length (kept (pass_step st c)) + (if round_solved (pass_step st c) then 1 else 0)
   <= S (length (kept st)) + (if round_solved st then 1 else 0))%nat.
Proof.
  destruct c as [[rq j] f]. unfold pass_step.
  destruct (decide (rq ⊆ solved_joints st)); [destruct (decide (j ∈ solved_joints st))|];
    cbn; rewrite ?length_app; cbn; destruct (round_solved st); lia.
Qed.

Lemma pass_measure (l : list candidate) (st : pass_state) :
  (length (kept (fold_left pass_step l st))
   + (if round_solved (fold_left pass_step l st) then 1 else 0)
   <= length l + length (kept st) + (if round_solved st then 1 else 0))%nat.
Proof.
  revert st. induction l as [|c l IH]; intros st; cbn [fold_left length].
  - lia.
  - specialize (IH (pass_step st c)). pose proof (pass_step_measure st c). lia.
Qed.

Lemma pass_progress (l : list candidate) (fl : list step) (s : gset joint_id) :
  round_solved (pass l fl s) = true ->
  (length (kept (pass l fl s)) < length l)%nat.
Proof.
  intros H. pose proof (pass_measure l (mk_pass false fl s [])) as M.
  fold (pass l fl s) in M. rewrite H in M. cbn in M. lia.
Qed.

Definition inspect {A} (a : A) : {b : A | a = b} := exist _ a eq_refl.

(** The [while(True)] loop of Step 2 (lines 199-227), from the state at the
    top of an iteration.  [all_joints] is [set(self.joints)]. *)
Equations? solve_loop (all_joints : gset joint_id)
    (requirements_to_functions : list candidate)
    (function_list0 : list step) (solved0 : gset joint_id)
    : result (list step) by wf (length requirements_to_functions) lt :=
  solve_loop all_joints reqs fl0 solved0
    with inspect (round_solved (pass reqs fl0 solved0)) := {
    | exist _ rs Hrs with decide (solved_joints (pass reqs fl0 solved0) = all_joints) := {
      | left _ => Ok (function_list (pass reqs fl0 solved0))
      | right _ with rs := {
        | false =>
            Raise (InvalidLinkageError
                     (UnknownJoints
                        (all_joints ∖ solved_joints (pass reqs fl0 solved0))))
        | true =>
            solve_loop all_joints (kept (pass reqs fl0 solved0))
                       (function_list (pass reqs fl0 solved0))
                       (solved_joints (pass reqs fl0 solved0))
        }
      }
    }.
Proof.
  apply pass_progress. exact Hrs.
Qed.

(** The states at the top of the [while] loop: the remaining candidates,
    the function list and the solved set.  [rounds all s s'] holds when the
    loop started in [s] comes back to its top in [s'] after zero or more
    iterations, each of which activated a solver and left a joint
    unsolved. *)
Definition loop_state : Type := list candidate * list step * gset joint_id.

Inductive rounds (all_joints : gset joint_id) : loop_state -> loop_state -> Prop :=
| rounds_here (s : loop_state) : rounds all_joints s s
| rounds_next (reqs : list candidate) (fl : list step) (solved : gset joint_id)
    (s' : loop_state) :
    solved_joints (pass reqs fl solved) <> all_joints ->
    round_solved (pass reqs fl solved) = true ->
    rounds all_joints
           (kept (pass reqs fl solved), function_list (pass reqs fl solved),
            solved_joints (pass reqs fl solved)) s' ->
    rounds all_joints (reqs, fl, solved) s'.

(** A loop state is within the linkage's joints when its solved joints and
    the joints its candidates solve are joints of the linkage. *)
Definition within (all_joints : gset joint_id) (s : loop_state) : Prop :=
  s.2 ⊆ all_joints /\ Forall (fun c : candidate => c.1.2 ∈ all_joints) s.1.1.

(** What the validity check reads for a pair of chain-adjacent joints, and
    the two outcomes of its test. *)
Definition within_margin (margin : R) (h : heap) (bar : Bar.t)
    (pair : joint_id * joint_id) : Prop :=
  exists p1 p2 dist,
    Joint.location (h !!! pair.1) = Some p1 /\
    Joint.location (h !!! pair.2) = Some p2 /\
    Bar.joint_distance bar pair.1 pair.2 = Ok dist /\
    Rabs (dist - distance p1 p2) < margin.

Definition outside_margin (margin : R) (h : heap) (bar : Bar.t)
    (pair : joint_id * joint_id) : Prop :=
  exists p1 p2 dist,
    Joint.location (h !!! pair.1) = Some p1 /\
    Joint.location (h !!! pair.2) = Some p2 /\
    Bar.joint_distance bar pair.1 pair.2 = Ok dist /\
    ~ Rabs (dist - distance p1 p2) < margin.

(** ** The [Linkage] object *)

(** A cache entry: the dictionary [cache_state] from the non-fixed joints to
    their locations. *)
Abbreviation snapshot := (gmap joint_id (option point)).

(** [simulation_function] holds the [function_list] captured by the closure
    [sim_function]; [None] is Python's [None]. *)
Record t : Type := mk {
  bars : list Bar.t;
  joints : list joint_id;
  drivers : list Driver.t;
  cache : option (gmap Z snapshot);
  cache_accuraccy : Z;
  simulation_function : option (list step)
}.

(** The default [validity_margin] of [generate_simulation_function]. *)
Definition validity_margin : R := 0.001.

(** [validity_check] *)
Definition validity_check (bars : list Bar.t) (joints : list joint_id)
    (drivers : list Driver.t) : result bool :=
  if negb (forallb (fun bar =>
             forallb (fun joint => bool_decide (joint ∈ joints)) (Bar.joints bar))
           bars)
  then Raise ValueError
  else if negb (forallb (fun d =>
                  bool_decide (Driver.attachment_joint d ∈ joints)) drivers)
  then Raise ValueError
  else Ok true.

(** [Linkage.__init__]: the three assignments invalidate the caches, then
    the cache is set to an empty dictionary and the topology is validated. *)
Definition init (bars : list Bar.t) (joints : list joint_id)
    (drivers : list Driver.t) : result t :=
  _ ← validity_check bars joints drivers;
  Ok (mk bars joints drivers (Some ∅) 10000 None).

(** [invalidate_caches] *)
Definition invalidate_caches (self : t) : t :=
  mk (bars self) (joints self) (drivers self) None (cache_accuraccy self) None.

Section Simulation.

Variable set_order : gset joint_id -> list joint_id.

(** [generate_simulation_function]: the [function_list] of the returned
    closure, or the exception of line 226. *)
Definition generate_simulation_function (self : t) (h : heap)
    : result (list step) :=
  let solved_joints := initial_solved h (joints self) (drivers self) in
  let requirements_to_functions :=
    all_solvers set_order (bars self) (joints self) solved_joints in
  let function_list := map DriverStep (drivers self) in
  solve_loop (list_to_set (joints self)) requirements_to_functions
             function_list solved_joints.

(** The cache-hit loop (lines 105-106), over the entries of the snapshot. *)
Fixpoint restore (entries : list (joint_id * option point)) (h : heap)
    : result unit * heap :=
  match entries with
  | [] => (Ok tt, h)
  | (joint, loc) :: rest =>
      match Joint.set_location (h !!! joint) loc None with
      | Ok j' => restore rest (<[joint := j']> h)
      | Raise e => (Raise e, h)
      end
  end.

(** The dictionary [cache_state] (lines 116-118). *)
Definition cache_state (self : t) (h : heap) : snapshot :=
  fold_left (fun (m : snapshot) joint => <[joint := Joint.location (h !!! joint)]> m)
            (filter (fun j => Joint.fixed (h !!! j) = false) (joints self))
            ∅.

Definition set_cache (self : t) (c : option (gmap Z snapshot)) : t :=
  mk (bars self) (joints self) (drivers self) c (cache_accuraccy self)
     (simulation_function self).

Definition set_simulation_function (self : t) (f : option (list step)) : t :=
  mk (bars self) (joints self) (drivers self) (cache self) (cache_accuraccy self) f.

(** [math.floor(self.cache_accuraccy * time)] *)
Definition cache_time (self : t) (time : R) : Z :=
  Zfloor (IZR (cache_accuraccy self) * time).

(** The cache entry for bucket [ct], when [self.cache != None and
    cache_time in self.cache]. *)
Definition cache_entry (self : t) (ct : Z) : option snapshot :=
  match cache self with
  | Some c => c !! ct
  | None => None
  end.

(** Lines 112-113: the stored simulation function, generated first when
    there is none. *)
Definition compiled_function (self : t) (h : heap) : result (list step) :=
  match simulation_function self with
  | Some fl => Ok fl
  | None => generate_simulation_function self h
  end.

(** [simulate_to_time].  The final linkage object and joint store are
    returned in both outcomes. *)
Definition simulate_to_time (self : t) (time : R) (h : heap)
    : result unit * (t * heap) :=
  if negb (bool_decide (0 <= time <= 1)) then (Raise ValueError, (self, h))
  else
    let ct := cache_time self time in
    match cache_entry self ct with
    | Some entry =>
        let '(r, h') := restore (map_to_list entry) h in
        (r, (self, h'))
    | None =>
        let c := match cache self with Some c => c | None => ∅ end in
        let self1 := set_cache self (Some c) in
        match compiled_function self1 h with
        | Raise e => (Raise e, (self1, h))
        | Ok fl =>
            let self2 := set_simulation_function self1 (Some fl) in
            match sim_function fl (bars self2) validity_margin time h with
            | (Raise e, h') => (Raise e, (self2, h'))
            | (Ok _, h') =>
                (Ok tt, (set_cache self2 (Some (<[ct := cache_state self2 h']> c)), h'))
            end
        end
    end.

End Simulation.

(** An entry of a snapshot agrees with the store when its joint is free and already at
    the cached location. *)
Definition agrees (h : heap) (entry : joint_id * option point) : Prop :=
  Joint.fixed (h !!! entry.1) = false /\ Joint.location (h !!! entry.1) = entry.2.

(** The linkage object after line 111, and after lines 110-113, of a cache
    miss. *)
Definition with_cache (self : t) : t :=
  set_cache self (Some (match cache self with Some c => c | None => ∅ end)).

Definition with_function (self : t) (fl : list step) : t :=
  set_simulation_function (with_cache self) (Some fl).

(** ** [Linkage.copy]

    [copy] works on list objects that it shares with its caller, so the
    lists are kept in a store of their own, by address.  The list that is
    the default value of [shared_joints] is created once, when the method is
    defined, and lives at [default_shared_joints].  The joint objects that
    [copy.deepcopy] of a bar or of a driver creates next to the clone are
    dropped at once (the clone's joints are reassigned) and are left out of
    the joint store. *)
Record world : Type := mk_world {
  joint_store : heap;
  list_store : gmap nat (list joint_id);
  next_oid : nat
}.

Definition default_shared_joints : nat := 0%nat.

(** The state of the loop of lines 250-254: the joint store, the new list
    [joints] and the dictionary [mapping]. *)
Record clone_state : Type := mk_clone {
  clone_store : heap;
  clone_joints : list joint_id;
  clone_mapping : gmap joint_id joint_id
}.

(** [copy.deepcopy(j)] followed by the relabelling: a new joint object with
    the attributes of [j]. *)
Definition clone_joint (joint_indic : string) (st : clone_state) (j : joint_id)
    : clone_state :=
  let h := clone_store st in
  let newj := fresh (dom h ∪ list_to_set (clone_joints st) ∪ dom (clone_mapping st)
                     ∪ {[j]}) in
  let old := h !!! j in
  mk_clone
    (<[newj := Joint.mk (Joint.label old ++ joint_indic) (Joint.location old)
                        (Joint.fixed old) (Joint.chooser old)]> h)
    (clone_joints st ++ [newj])
    (<[j := newj]> (clone_mapping st)).

(** Lines 256-265: a bar with its joints remapped. *)
Definition remap_bar (mapping : gmap joint_id joint_id) (bar : Bar.t) : Bar.t :=
  Bar.mk (Bar.label bar)
         (map (fun oldj => match mapping !! oldj with
                           | Some newj => newj
                           | None => oldj
                           end) (Bar.joints bar))
         (Bar.segment_lengths bar).

(** The loop of lines 267-270 over the drivers to clone; the clone is a new
    object. *)
Fixpoint clone_drivers (mapping : gmap joint_id joint_id) (oid : nat)
    (to_clone : list Driver.t) (drivers : list Driver.t)
    : result (list Driver.t) * nat :=
  match to_clone with
  | [] => (Ok drivers, oid)
  | d :: rest =>
      match mapping !! Driver.attachment_joint d with
      | None => (Raise KeyError, S oid)
      | Some newj =>
          clone_drivers mapping (S oid) rest
            (drivers ++ [Driver.mk oid (Driver.label d) (Driver.location d) newj
                                   (Driver.speed d) (Driver.kind d)])
      end
  end.

Section Copy.

Variable set_order : gset joint_id -> list joint_id.
(** The iteration order of a set of drivers, given by their identities. *)
Variable driver_order : gset nat -> list nat.

(** [copy(self, shared_joints, shared_drivers, joint_indic)].
    [shared_joints] is the address of the list passed by the caller, or
    [None] when the argument is omitted. *)
Definition copy (self : t) (shared_joints : option nat)
    (shared_drivers : list Driver.t) (joint_indic : string) (w : world)
    : result t * world :=
  let ref := match shared_joints with
             | Some r => r
             | None => default_shared_joints
             end in
  (* shared_joints.extend([d.attachment_joint for d in shared_drivers]) *)
  let shared := (list_store w !!! ref) ++ map Driver.attachment_joint shared_drivers in
  let lists := <[ref := shared]> (list_store w) in
  let mapping : gmap joint_id joint_id :=
    fold_left (fun (m : gmap joint_id joint_id) j => <[j := j]> m) shared ∅ in
  let st :=
    fold_left (clone_joint joint_indic)
              (set_order (list_to_set (joints self) ∖ list_to_set shared))
              (mk_clone (joint_store w) shared mapping) in
  let new_bars := map (remap_bar (clone_mapping st)) (bars self) in
  let to_clone :=
    omap (fun o => List.find (fun d => bool_decide (Driver.oid d = o)) (drivers self))
         (driver_order (list_to_set (map Driver.oid (drivers self))
                        ∖ list_to_set (map Driver.oid shared_drivers))) in
  match clone_drivers (clone_mapping st) (next_oid w) to_clone shared_drivers with
  | (Raise e, oid) => (Raise e, mk_world (clone_store st) lists oid)
  | (Ok new_drivers, oid) =>
      (init new_bars (clone_joints st) new_drivers,
       mk_world (clone_store st) lists oid)
  end.

End Copy.

(** [joints_connected_to_joint]: [list(set(...))] of the joints of the bars
    connected to [joint], under an iteration order of sets. *)
Definition joints_connected_to_joint (set_order : gset joint_id -> list joint_id)
    (bars : list Bar.t) (joint : joint_id) : list joint_id :=
  set_order (list_to_set (concat (map Bar.joints (bars_connected_to_joint bars joint)))).

(** [j]: the first joint of [self.joints] with the given label, or [None]. *)
Definition j (self : t) (h : heap) (label : string) : option joint_id :=
  List.find (fun joint => String.eqb (Joint.label (h !!! joint)) label) (joints self).

(** The part of a joint store that a simulation may not change: the label,
    the fixed flag and the chooser of every joint, and the whole of every
    fixed joint. *)
Definition frame (h h' : heap) : Prop :=
  forall joint,
    Joint.label (h' !!! joint) = Joint.label (h !!! joint) /\
    Joint.fixed (h' !!! joint) = Joint.fixed (h !!! joint) /\
    Joint.chooser (h' !!! joint) = Joint.chooser (h !!! joint) /\
    (Joint.fixed (h !!! joint) = true -> h' !!! joint = h !!! joint).

(** ** What a step reads and writes

    The joints whose location a closure of [function_list] reads when it is
    called, and the joint it assigns. *)
Definition reads (f : step) : gset joint_id :=
  match f with
  | DriverStep _ => ∅
  | IntersectionStep _ a b _ _ => {[a; b]}
  | ExtensionStep _ _ joints => list_to_set (take 2 joints)
  end.

Definition writes (f : step) : joint_id :=
  match f with
  | DriverStep d => Driver.attachment_joint d
  | IntersectionStep unknown_joint _ _ _ _ => unknown_joint
  | ExtensionStep joint _ _ => joint
  end.

(** A function list is ordered from the set [known] when every step reads
    only joints of [known] or joints written by the steps before it. *)
Fixpoint ordered (known : gset joint_id) (function_list : list step) : Prop :=
  match function_list with
  | [] => True
  | f :: rest => reads f ⊆ known /\ ordered (known ∪ {[writes f]}) rest
  end.

(** The joints written by a function list. *)
Definition written (function_list : list step) : gset joint_id :=
  list_to_set (map writes function_list).

(** Two joint stores with the same labels, fixed flags and choosers. *)
Definition same_static (h h' : heap) : Prop :=
  forall joint,
    Joint.label (h !!! joint) = Joint.label (h' !!! joint) /\
    Joint.fixed (h !!! joint) = Joint.fixed (h' !!! joint) /\
    Joint.chooser (h !!! joint) = Joint.chooser (h' !!! joint).

(** Two joint stores that hold the same joints on a set. *)
Definition agree_on (known : gset joint_id) (h h' : heap) : Prop :=
  forall joint, joint ∈ known -> h !!! joint = h' !!! joint.

(** A candidate whose solver reads only joints of its requirement set and
    writes the joint it is registered for. *)
Definition sound_candidate (c : candidate) : Prop :=
  reads c.2 ⊆ c.1.1 /\ writes c.2 = c.1.2.

(** The joint object that a step assigns to [writes f]: the computation of
    the closure up to the assignment. *)
Definition step_value (f : step) (time : R) (h : heap) : result Joint.t :=
  match f with
  | DriverStep d =>
      Joint.setattr_location (h !!! Driver.attachment_joint d)
        (Some (Driver.point_for_time d
                 (Driver.math_fmod (time * Driver.speed d) 1.0)))
  | IntersectionStep unknown_joint a b a_bar b_bar =>
      ra ← Bar.joint_distance a_bar unknown_joint a;
      rb ← Bar.joint_distance b_bar unknown_joint b;
      a_center ← the_point (Joint.location (h !!! a));
      b_center ← the_point (Joint.location (h !!! b));
      loc ← circular_intersection a_center ra b_center rb;
      match loc with
      | None =>
          Raise (InvalidLinkageError
                   (NoIntersection unknown_joint a b (Bar.label a_bar) (Bar.label b_bar)))
      | Some (l1, l2) => Joint.set_location (h !!! unknown_joint) (Some l1) (Some l2)
      end
  | ExtensionStep joint bar joints =>
      j0 ← list_index joints 0;
      j1 ← list_index joints 1;
      d ← Bar.origin_distance bar joint;
      d1 ← Bar.origin_distance bar j1;
      endpoint_1 ← the_point (Joint.location (h !!! j0));
      endpoint_2 ← the_point (Joint.location (h !!! j1));
      Joint.set_location (h !!! joint)
        (Some (line_extension endpoint_1 endpoint_2 (d - d1))) None
  end.

(** The invariant of the loop of Step 2 of [generate_simulation_function],
    over the joints [K0] known before the first step runs. *)
Definition compiled_inv (K0 : gset joint_id) (s : loop_state) : Prop :=
  ordered K0 s.1.2 /\ s.2 ⊆ K0 ∪ written s.1.2 /\ Forall sound_candidate s.1.1.

(** A candidate of Step 1 carries a solver closure (not a driver update)
    that assigns the joint the candidate is for. *)
Definition solver_candidate (c : candidate) : Prop :=
  writes c.2 = c.1.2 /\ forall d, c.2 <> DriverStep d.

(** The invariant of the loop of Step 2 on what is written: the function
    list is the driver updates followed by solvers that assign distinct
    joints, none of them solved at the start, and the solved joints are
    those solved at the start and those assigned. *)
Definition written_inv (drivers : list Driver.t) (solved0 : gset joint_id)
    (s : loop_state) : Prop :=
  (exists solvers,
     s.1.2 = map DriverStep drivers ++ solvers /\
     NoDup (map writes solvers) /\
     (forall joint, joint ∈ map writes solvers -> joint ∉ solved0) /\
     Forall (fun f => forall d, f <> DriverStep d) solvers /\
     s.2 = solved0 ∪ list_to_set (map writes solvers)) /\
  Forall solver_candidate s.1.1.

(** ** [Linkage.translate]

    The drivers are objects that [translate] changes in place: an object
    that occurs several times in [self.drivers] is moved once per
    occurrence, and the bound methods held by a stored simulation function
    see the moved objects.  Objects are told apart by [Driver.oid]. *)
Definition shift (dx dy : R) (p : point) : point := (fst p + dx, snd p + dy).

Definition occurrences (o : nat) (ds : list Driver.t) : nat :=
  length (filter (fun d => Driver.oid d = o) ds).

Definition translate_driver (dx dy : R) (ds : list Driver.t) (d : Driver.t)
    : Driver.t :=
  Driver.mk (Driver.oid d) (Driver.label d)
            (Nat.iter (occurrences (Driver.oid d) ds) (shift dx dy) (Driver.location d))
            (Driver.attachment_joint d) (Driver.speed d) (Driver.kind d).

Definition translate_step (dx dy : R) (ds : list Driver.t) (f : step) : step :=
  match f with
  | DriverStep d => DriverStep (translate_driver dx dy ds d)
  | _ => f
  end.

(** The second loop of [translate], over the list of the fixed joints. *)
Fixpoint translate_joints (dx dy : R) (fixed_joints : list joint_id) (h : heap)
    : result unit * heap :=
  match fixed_joints with
  | [] => (Ok tt, h)
  | joint :: rest =>
      match Joint.location (h !!! joint) with
      | None => (Raise TypeError, h)
      | Some p =>
          match Joint.reset_fixed_location (h !!! joint) (Some (shift dx dy p)) with
          | Ok j' => translate_joints dx dy rest (<[joint := j']> h)
          | Raise e => (Raise e, h)
          end
      end
  end.

(** [translate(dx, dy)].  The linkage object and the joint store are
    returned in both outcomes: the drivers are moved before the first joint
    is looked at. *)
Definition translate (self : t) (dx dy : R) (h : heap)
    : result unit * (t * heap) :=
  let self' :=
    mk (bars self) (joints self)
       (map (translate_driver dx dy (drivers self)) (drivers self))
       (cache self) (cache_accuraccy self)
       (option_map (map (translate_step dx dy (drivers self)))
                   (simulation_function self)) in
  let '(r, h') :=
    translate_joints dx dy
      (filter (fun j => Joint.fixed (h !!! j) = true) (joints self)) h in
  (r, (self', h')).

(** ** What [copy] builds

    The joint object that lines 251-252 create from [old], the relation
    between a driver and its clone of lines 268-269, and the invariant of
    the loop of lines 250-254 after the joints [done] have been cloned into
    the new objects [clones]: [h0] is the joint store and [shared] the list
    [shared_joints] when the loop starts. *)
Definition cloned_joint (joint_indic : string) (old : Joint.t) : Joint.t :=
  Joint.mk (Joint.label old ++ joint_indic) (Joint.location old)
           (Joint.fixed old) (Joint.chooser old).

Definition cloned_driver (mapping : gmap joint_id joint_id) (d' d : Driver.t) : Prop :=
  Driver.label d' = Driver.label d /\ Driver.location d' = Driver.location d /\
  Driver.speed d' = Driver.speed d /\ Driver.kind d' = Driver.kind d /\
  mapping !! Driver.attachment_joint d = Some (Driver.attachment_joint d').

Record clone_inv (h0 : heap) (shared : list joint_id) (joint_indic : string)
    (done clones : list joint_id) (st : clone_state) : Prop := mk_clone_inv {
  ci_store : forall j x, h0 !! j = Some x -> clone_store st !! j = Some x;
  ci_joints : clone_joints st = shared ++ clones;
  ci_shared : forall j, j ∈ shared -> clone_mapping st !! j = Some j;
  ci_cloned : forall j, j ∈ done ->
    exists j', clone_mapping st !! j = Some j' /\ j' ∈ clones /\
               clone_store st !! j' = Some (cloned_joint joint_indic (h0 !!! j));
  ci_dom : forall j j', clone_mapping st !! j = Some j' ->
    (j ∈ shared /\ j' = j) \/ (j ∈ done /\ (j ∉ shared) /\ j' ∈ clones);
  ci_inj : forall j1 j2 j', clone_mapping st !! j1 = Some j' ->
    clone_mapping st !! j2 = Some j' -> j1 = j2;
  ci_fresh : forall j', j' ∈ clones ->
    h0 !! j' = None /\ (j' ∉ shared) /\
    exists j, j ∈ done /\ clone_mapping st !! j = Some j'
}.

(** ** The validity condition as the specification words it

    The pair of joints at the chain positions [i] and [i + 1] of a bar, the
    segment length declared for it, and the Euclidean distance of the two
    locations. *)
Definition declared_within (margin : R) (h : heap) (bar : Bar.t) (i : nat) : Prop :=
  exists a b len p1 p2,
    Bar.joints bar !! i = Some a /\ Bar.joints bar !! S i = Some b /\
    Bar.segment_lengths bar !! i = Some len /\
    Joint.location (h !!! a) = Some p1 /\ Joint.location (h !!! b) = Some p2 /\
    Rabs (len - distance p1 p2) < margin.

Definition declared_outside (margin : R) (h : heap) (bar : Bar.t) (i : nat) : Prop :=
  exists a b len p1 p2,
    Bar.joints bar !! i = Some a /\ Bar.joints bar !! S i = Some b /\
    Bar.segment_lengths bar !! i = Some len /\
    Joint.location (h !!! a) = Some p1 /\ Joint.location (h !!! b) = Some p2 /\
    ~ Rabs (len - distance p1 p2) < margin.

(** A bar as [Bar.__init__] accepts it, whose chain holds no joint twice and
    whose segment lengths are not negative. *)
Definition plain_bar (bar : Bar.t) : Prop :=
  length (Bar.segment_lengths bar) = (length (Bar.joints bar) - 1)%nat /\
  NoDup (Bar.joints bar) /\
  Forall (fun s => 0 <= s) (Bar.segment_lengths bar).

End Linkage.

(* ------------------------------------------------------------------------- *)
(** * Concrete objects used in the examples below *)

Module Examples.

(** The joints J1 and J2 of [usage_example.py]: J1 is fixed, J2 is chosen by
    greater x. *)
Definition fixed_joint : Joint.t :=
  Joint.init "J1" (Some (10, 16)) true None.

Definition free_joint : Joint.t :=
  Joint.init "J2" None false (Some Joint.greater_x).

(** A two-joint bar with a negative segment length, and a bar whose chain
    visits the same joint twice; [Bar.__init__] accepts both. *)
Definition negative_bar : Bar.t := Bar.mk "neg" [0%nat; 1%nat] [-1].
Definition looped_bar : Bar.t := Bar.mk "loop" [0%nat; 1%nat; 0%nat] [1; 1].

(** The bar "main" of [usage_example.py]: J2 -- 6 -- J3 -- 5 -- J4. *)
Definition main_bar : Bar.t := Bar.mk "main" [2%nat; 3%nat; 4%nat] [6; 5].

(** The crank of [usage_example.py], attached to J3, and a rocker. *)
Definition crank : Driver.t :=
  Driver.mk 0 "crank" (10, 10) 3%nat 1.0 (Driver.Crank 1 0).
Definition rocker : Driver.t :=
  Driver.mk 1 "rocker" (0, 0) 3%nat 1.0 (Driver.Rocker 2 30 120).

(** Two fixed joints at distance 5 with a bar between them, declared with the
    matching length and with a length that does not match. *)
Definition two_fixed : heap :=
  <[0%nat := Joint.init "A" (Some (0, 0)) true None]>
    (<[1%nat := Joint.init "B" (Some (3, 4)) true None]> ∅).
Definition rigid_bar : Bar.t := Bar.mk "rigid" [0%nat; 1%nat] [5].
Definition stretched_bar : Bar.t := Bar.mk "stretched" [0%nat; 1%nat] [6].
Definition rigid_linkage : Linkage.t :=
  Linkage.mk [rigid_bar] [0%nat; 1%nat] [] (Some ∅) 10000 None.
Definition stretched_linkage : Linkage.t :=
  Linkage.mk [stretched_bar] [0%nat; 1%nat] [] (Some ∅) 10000 None.

(** A rod with four joints, A -- 3 -- B -- 1 -- C -- 3 -- D.  A and C are
    fixed at (0,0) and (4,0); B is created with a location; D is created
    without one. *)
Definition rod : Bar.t := Bar.mk "rod" [0%nat; 1%nat; 2%nat; 3%nat] [3; 1; 3].
Definition rod_state (b d : option Geometry.point) : heap :=
  <[0%nat := Joint.init "A" (Some (0, 0)) true None]>
    (<[1%nat := Joint.init "B" b false None]>
       (<[2%nat := Joint.init "C" (Some (4, 0)) true None]>
          (<[3%nat := Joint.init "D" d false None]> ∅))).
Definition rod_joints : heap := rod_state (Some (4 / 5, 3 / 5)) None.
Definition rod_linkage : Linkage.t :=
  Linkage.mk [rod] [0%nat; 1%nat; 2%nat; 3%nat] [] (Some ∅) 10000 None.

(** An iteration order of sets of joints: from the highest index down. *)
Definition descending (s : gset joint_id) : list joint_id :=
  filter (fun j => j ∈ s) [3%nat; 2%nat; 1%nat; 0%nat].

(** The function list compiled for the rod under that order: D is solved
    first, then B. *)
Definition rod_steps : list Linkage.step :=
  [Linkage.ExtensionStep 3%nat rod [0%nat; 1%nat; 2%nat];
   Linkage.ExtensionStep 1%nat rod [0%nat; 2%nat; 3%nat]].

(** A bar hanging from one fixed joint: its free end lies on one bar only and
    has no solver. *)
Definition hanging_joints : heap :=
  <[0%nat := Joint.init "P" (Some (0, 0)) true None]>
    (<[1%nat := Joint.init "Q" None false None]> ∅).
Definition hanging_linkage : Linkage.t :=
  Linkage.mk [Bar.mk "arm" [0%nat; 1%nat] [1]] [0%nat; 1%nat] [] (Some ∅) 10000 None.

(** The bar "top_bar" of [usage_example.py]: J1 -- 2 -- J2. *)
Definition top_bar : Bar.t := Bar.mk "top_bar" [1%nat; 2%nat] [2].

(** A slider from (0,0) to (3,4). *)
Definition slider : Driver.t :=
  Driver.mk 2 "slider" (0, 0) 3%nat 1.0 (Driver.Slider (3, 4)).

(** A linkage that holds a cache entry for bucket 0, with the joint J3 of
    the crank at (11,10), and a joint store in which J3 is elsewhere. *)
Definition cached_linkage : Linkage.t :=
  Linkage.mk [] [3%nat] [crank]
    (Some (<[0%Z := (<[3%nat := Some (11, 10)]> ∅ : gmap joint_id (option Geometry.point))]> ∅))
    10000 None.
Definition moved_joints : heap :=
  <[3%nat := Joint.init "J3" (Some (0, 0)) false None]> ∅.

(** A beam with three joints, A -- 3 -- B -- 1 -- C, on the joints of the
    rod: A and C are fixed, B is solved by extension. *)
Definition beam : Bar.t := Bar.mk "beam" [0%nat; 1%nat; 2%nat] [3; 1].
Definition beam_linkage : Linkage.t :=
  Linkage.mk [beam] [0%nat; 1%nat; 2%nat] [] (Some ∅) 10000 None.

(** The beam with the crank of [usage_example.py] among its drivers. *)
Definition cranked_linkage : Linkage.t :=
  Linkage.mk [beam] [0%nat; 1%nat; 2%nat; 3%nat] [crank] (Some ∅) 10000 None.

(** A rocker that runs backwards: speed -1, sweeping from 0 to 180 degrees
    around (0,0) with radius 1, attached to J3. *)
Definition reverse_rocker : Driver.t :=
  Driver.mk 3 "reverse" (0, 0) 3%nat (-1) (Driver.Rocker 1 0 180).

(** Two fixed joints at distance 1, a bar whose chain comes back to its
    first joint over a segment declared with length 5, and a bar with a
    negative length between them. *)
Definition unit_fixed : heap :=
  <[0%nat := Joint.init "A" (Some (0, 0)) true None]>
    (<[1%nat := Joint.init "B" (Some (1, 0)) true None]> ∅).
Definition mismatched_bar : Bar.t := Bar.mk "loop" [0%nat; 1%nat; 0%nat] [1; 5].
Definition mismatched_linkage : Linkage.t :=
  Linkage.mk [mismatched_bar] [0%nat; 1%nat] [] (Some ∅) 10000 None.
Definition negative_linkage : Linkage.t :=
  Linkage.mk [negative_bar] [0%nat; 1%nat] [] (Some ∅) 10000 None.

End Examples.

(* ========================================================================= *)
(** * Properties *)

(* ------------------------------------------------------------------------- *)
(** Reduction of the exception monad once the head computation is known. *)
Ltac rstep := cbn [mbind mret result_bind result_ret rbind].

(** ** geometry.py: [circular_intersection] *)

Section GeometryFacts.

Import Geometry.

Lemma math_sqrt_nonneg (x : R) : 0 <= x -> math_sqrt x = Ok (sqrt x).
Proof. intros H. unfold math_sqrt. destruct (Rlt_dec x 0); [lra | reflexivity]. Qed.

Lemma fdiv_zero (x : R) : fdiv x 0 = Raise ZeroDivisionError.
Proof. unfold fdiv. destruct (Req_dec_T 0 0); [reflexivity | contradiction]. Qed.

(** C4 (coincident centres): the division by the zero distance is not a
    [ValueError], so it is not turned into [None]: the call raises
    [ZeroDivisionError]. *)
Theorem C4_coincident_centers_raise (center : Geometry.point) (a_radius b_radius : R) :
  Geometry.circular_intersection center a_radius center b_radius
  = Raise ZeroDivisionError.
Proof.
  destruct center as [x y].
  unfold circular_intersection, circular_intersection_try.
  replace ((x - x) ^ 2 + (y - y) ^ 2) with 0 by ring.
  rewrite math_sqrt_nonneg by lra. rewrite sqrt_0. rstep.
  replace (2 * 0) with 0 by ring. rewrite fdiv_zero. reflexivity.
Qed.

End GeometryFacts.

(* ------------------------------------------------------------------------- *)
(** ** joint.py: [set_location] *)

Section JointFacts.

Import Geometry Examples.

Lemma setattr_location_free (j : Joint.t) (val : option point) :
  Joint.fixed j = false ->
  Joint.setattr_location j val
  = Ok (Joint.mk (Joint.label j) val (Joint.fixed j) (Joint.chooser j)).
Proof. intros H. unfold Joint.setattr_location. rewrite H. reflexivity. Qed.

Lemma setattr_location_fixed (j : Joint.t) (val : option point) :
  Joint.fixed j = true -> Joint.setattr_location j val = Raise AttributeError.
Proof. intros H. unfold Joint.setattr_location. rewrite H. reflexivity. Qed.

(** C6, as stated, fails on a fixed joint: [set_location(loc)] raises and
    assigns nothing. *)
Lemma C6_fixed_joint_not_assigned :
  Joint.set_location fixed_joint (Some (0, 0)) None = Raise AttributeError /\
  ~ (exists j', Joint.set_location fixed_joint (Some (0, 0)) None = Ok j' /\
                Joint.location j' = Some (0, 0)).
Proof.
  split; [reflexivity|]. intros (j' & H & _). discriminate H.
Qed.

(** C6 (amended): without a chooser the two-candidate call fails with the
    missing-chooser [ValueError], on every joint; on a joint that is not
    fixed, the two-candidate call with a chooser assigns
    [chooser(locA, locB)] and the single-candidate call assigns [loc]
    whether or not a chooser is set, nothing else of the joint changing; on
    a fixed joint both assignments fail with the [AttributeError] of the
    location guard. *)
Theorem C6_set_location (j : Joint.t) (locA locB : Geometry.point)
    (loc : option Geometry.point) :
  (Joint.chooser j = None ->
   Joint.set_location j (Some locA) (Some locB) = Raise ValueError) /\
  (Joint.fixed j = false ->
   (forall ch, Joint.chooser j = Some ch ->
      Joint.set_location j (Some locA) (Some locB)
      = Ok (Joint.mk (Joint.label j) (Some (ch locA locB)) false (Some ch))) /\
   Joint.set_location j loc None
   = Ok (Joint.mk (Joint.label j) loc false (Joint.chooser j))) /\
  (Joint.fixed j = true ->
   (forall ch, Joint.chooser j = Some ch ->
      Joint.set_location j (Some locA) (Some locB) = Raise AttributeError) /\
   Joint.set_location j loc None = Raise AttributeError).
Proof.
  unfold Joint.set_location. repeat split.
  - intros ->. reflexivity.
  - intros ch Hch. rewrite Hch, setattr_location_free by assumption.
    rewrite H, Hch. reflexivity.
  - rewrite setattr_location_free by assumption. rewrite H. reflexivity.
  - intros ch ->. apply setattr_location_fixed; assumption.
  - apply setattr_location_fixed; assumption.
Qed.

Lemma C6_set_location_witness :
  Joint.fixed free_joint = false /\
  Joint.set_location free_joint (Some (1, 2)) (Some (3, 4))
  = Ok (Joint.mk "J2" (Some (Joint.greater_x (1, 2) (3, 4))) false
                 (Some Joint.greater_x)) /\
  Joint.set_location free_joint (Some (1, 2)) None
  = Ok (Joint.mk "J2" (Some (1, 2)) false (Some Joint.greater_x)).
Proof.
  assert (Hf : Joint.fixed free_joint = false) by reflexivity.
  pose proof (C6_set_location free_joint (1, 2) (3, 4) (Some (1, 2))) as (_ & H & _).
  destruct (H Hf) as [Hch Hone].
  split; [exact Hf|]. split; [apply (Hch Joint.greater_x); reflexivity | exact Hone].
Defined.

End JointFacts.

(* ------------------------------------------------------------------------- *)
(** ** bar.py: [origin_distance] *)

Section BarFacts.

Import Examples.

Lemma prefix_sum_S (segs : list R) (k : nat) (s : R) :
  segs !! k = Some s -> Bar.prefix_sum segs (S k) = Bar.prefix_sum segs k + s.
Proof.
  unfold Bar.prefix_sum. revert k. induction segs as [|x segs IH]; intros k H.
  - discriminate H.
  - destruct k as [|k]; cbn in *.
    + injection H as ->. rewrite take_0. cbn. ring.
    + rewrite (IH k H). ring.
Qed.

Lemma prefix_sum_mono (segs : list R) (i j : nat) :
  Forall (fun s => 0 <= s) segs -> (i <= j)%nat -> (j <= length segs)%nat ->
  Bar.prefix_sum segs i <= Bar.prefix_sum segs j.
Proof.
  intros Hpos Hij. induction Hij as [|j Hij IH]; intros Hj; [lra|].
  destruct (lookup_lt_is_Some_2 segs j) as [s Hs]; [lia|].
  rewrite (prefix_sum_S _ _ _ Hs).
  pose proof (proj1 (Forall_lookup _ _) Hpos j s Hs) as H0. cbn in H0.
  specialize (IH ltac:(lia)). lra.
Qed.

(** The loop stops at the first chain position [index + k] that holds
    [joint], with the segment lengths before it added to [distance]. *)
Lemma origin_distance_loop_first (segs : list R) (joint : joint_id)
    (rest : list joint_id) :
  forall (k index : nat) (distance : R),
    rest !! k = Some joint ->
    (forall k', (k' < k)%nat -> rest !! k' <> Some joint) ->
    (index + k <= length segs)%nat ->
    Bar.origin_distance_loop segs joint rest index distance
    = Ok (distance + (Bar.prefix_sum segs (index + k) - Bar.prefix_sum segs index)).
Proof.
  induction rest as [|e rest IH]; intros k index distance Hk Hfirst Hlen.
  - discriminate Hk.
  - cbn [Bar.origin_distance_loop]. destruct k as [|k].
    + injection Hk as ->. rewrite decide_True by reflexivity.
      f_equal. rewrite Nat.add_0_r. ring.
    + rewrite decide_False.
      2:{ intros ->. apply (Hfirst 0%nat); [lia | reflexivity]. }
      destruct (lookup_lt_is_Some_2 segs index) as [s Hs]; [lia|].
      rewrite Hs. rewrite (IH k (S index) (distance + s)).
      * f_equal. rewrite (prefix_sum_S _ _ _ Hs).
        replace (S index + k)%nat with (index + S k)%nat by lia. ring.
      * exact Hk.
      * intros k' Hk'. apply (Hfirst (S k')). lia.
      * lia.
Qed.

Lemma prefix_sum_0 (segs : list R) : Bar.prefix_sum segs 0 = 0.
Proof. unfold Bar.prefix_sum. rewrite take_0. reflexivity. Qed.

(** [origin_distance] of the joint at the first chain position holding it. *)
Lemma origin_distance_first (bar : Bar.t) (joint : joint_id) (k : nat) :
  Bar.joints bar !! k = Some joint ->
  (forall k', (k' < k)%nat -> Bar.joints bar !! k' <> Some joint) ->
  (k <= length (Bar.segment_lengths bar))%nat ->
  Bar.origin_distance bar joint = Ok (Bar.prefix_sum (Bar.segment_lengths bar) k).
Proof.
  intros Hk Hfirst Hlen. unfold Bar.origin_distance.
  rewrite bool_decide_eq_true_2 by (eapply list_elem_of_lookup_2; exact Hk).
  cbn [negb].
  rewrite (origin_distance_loop_first _ _ _ k 0 0 Hk Hfirst) by (cbn; lia).
  f_equal. cbn [Nat.add]. rewrite prefix_sum_0. ring.
Qed.

(** On a bar without repeated joint, the distance of two chain-adjacent
    joints is the absolute value of the segment length declared for them. *)
Lemma joint_distance_adjacent (bar : Bar.t) (i : nat) (a b : joint_id) (s : R) :
  length (Bar.segment_lengths bar) = (length (Bar.joints bar) - 1)%nat ->
  NoDup (Bar.joints bar) ->
  Bar.joints bar !! i = Some a ->
  Bar.joints bar !! S i = Some b ->
  Bar.segment_lengths bar !! i = Some s ->
  Bar.joint_distance bar a b = Ok (Rabs s).
Proof.
  intros Hlen Hnd Ha Hb Hs.
  assert (Hbl : (S i < length (Bar.joints bar))%nat) by (eapply lookup_lt_Some; exact Hb).
  assert (Hfirst : forall k x, Bar.joints bar !! k = Some x ->
            forall k', (k' < k)%nat -> Bar.joints bar !! k' <> Some x).
  { intros k x Hk k' Hlt Hk'.
    pose proof (NoDup_lookup _ _ _ _ Hnd Hk Hk'). lia. }
  unfold Bar.joint_distance.
  rewrite (origin_distance_first bar a i Ha (Hfirst _ _ Ha)) by lia.
  rewrite (origin_distance_first bar b (S i) Hb (Hfirst _ _ Hb)) by lia.
  cbn [mbind result_bind rbind]. f_equal. rewrite (prefix_sum_S _ _ _ Hs).
  replace (Bar.prefix_sum (Bar.segment_lengths bar) i
           - (Bar.prefix_sum (Bar.segment_lengths bar) i + s)) with (- s) by ring.
  apply Rabs_Ropp.
Qed.

(** C7, as stated, fails: a bar with a negative segment length, and a bar
    whose chain repeats a joint, are both accepted by the constructor and
    both have a chain position after which the offset decreases. *)
Lemma C7_not_monotone :
  (Bar.init "neg" [0%nat; 1%nat] [-1] = Ok negative_bar /\
   Bar.origin_distance negative_bar 0%nat = Ok 0 /\
   Bar.origin_distance negative_bar 1%nat = Ok (-1) /\ ~ 0 <= -1) /\
  (Bar.init "loop" [0%nat; 1%nat; 0%nat] [1; 1] = Ok looped_bar /\
   Bar.joints looped_bar !! 1%nat = Some 1%nat /\
   Bar.joints looped_bar !! 2%nat = Some 0%nat /\
   Bar.origin_distance looped_bar 1%nat = Ok 1 /\
   Bar.origin_distance looped_bar 0%nat = Ok 0 /\ ~ 1 <= 0).
Proof.
  assert (E : forall x y : R, x = y -> @Ok R x = Ok y) by (intros; subst; reflexivity).
  repeat split; try reflexivity; try lra;
    unfold Bar.origin_distance; cbn; apply E; ring.
Qed.

(** C7 (amended): on a bar built by the constructor (one segment length per
    consecutive pair) whose segment lengths are non-negative and whose chain
    holds no joint twice, [origin_distance] of the joint at position [i] is
    the sum of the first [i] segment lengths, and it is non-decreasing along
    the chain. *)
Theorem C7_origin_distance_monotone (bar : Bar.t) (i j : nat) (a b : joint_id) :
  length (Bar.segment_lengths bar) = (length (Bar.joints bar) - 1)%nat ->
  NoDup (Bar.joints bar) ->
  Forall (fun s => 0 <= s) (Bar.segment_lengths bar) ->
  (i <= j)%nat ->
  Bar.joints bar !! i = Some a ->
  Bar.joints bar !! j = Some b ->
  exists da db,
    Bar.origin_distance bar a = Ok da /\
    Bar.origin_distance bar b = Ok db /\
    da = Bar.prefix_sum (Bar.segment_lengths bar) i /\
    db = Bar.prefix_sum (Bar.segment_lengths bar) j /\
    da <= db.
Proof.
  intros Hlen Hnd Hpos Hij Hi Hj.
  assert (Hjl : (j < length (Bar.joints bar))%nat) by (eapply lookup_lt_Some; exact Hj).
  assert (Hfirst : forall k x, Bar.joints bar !! k = Some x ->
            forall k', (k' < k)%nat -> Bar.joints bar !! k' <> Some x).
  { intros k x Hk k' Hlt Hk'.
    pose proof (NoDup_lookup _ _ _ _ Hnd Hk Hk'). lia. }
  exists (Bar.prefix_sum (Bar.segment_lengths bar) i),
         (Bar.prefix_sum (Bar.segment_lengths bar) j).
  split; [apply origin_distance_first; [exact Hi | exact (Hfirst _ _ Hi) | lia]|].
  split; [apply origin_distance_first; [exact Hj | exact (Hfirst _ _ Hj) | lia]|].
  split; [reflexivity|]. split; [reflexivity|].
  apply prefix_sum_mono; [exact Hpos | exact Hij | lia].
Qed.

End BarFacts.

Lemma C7_origin_distance_monotone_witness :
  exists da db,
    Bar.origin_distance Examples.main_bar 2%nat = Ok da /\
    Bar.origin_distance Examples.main_bar 4%nat = Ok db /\
    da = Bar.prefix_sum [6; 5] 0 /\ db = Bar.prefix_sum [6; 5] 2 /\ da <= db.
Proof.
  apply (C7_origin_distance_monotone Examples.main_bar 0 2 2%nat 4%nat).
  - reflexivity.
  - cbn. compute_done.
  - cbn. repeat constructor; lra.
  - lia.
  - reflexivity.
  - reflexivity.
Defined.

(* ------------------------------------------------------------------------- *)
(** ** driver: [update_attachment_point] and [point_for_time] *)

Section DriverFacts.

Import Geometry.

(** On a non-negative time the wrap of [math.fmod(x, 1.0)] is the
    fractional part of [x]. *)
Lemma math_fmod_1_nonneg (x : R) :
  0 <= x ->
  Driver.math_fmod x 1.0 = x - IZR (Zfloor x) /\ 0 <= Driver.math_fmod x 1.0 < 1.
Proof.
  intros Hx. unfold Driver.math_fmod, Driver.Ztrunc.
  replace (x / 1.0) with x by lra.
  destruct (Rle_dec 0 x); [|lra].
  pose proof (Zfloor_bound x). split; lra.
Qed.

(** The crank of the usage example at time 0: the joint J3 is put at
    (11, 10). *)
Lemma crank_at_zero :
  Driver.point_for_time Examples.crank
    (Driver.math_fmod (0 * Driver.speed Examples.crank) 1.0)
  = (11, 10).
Proof.
  destruct (math_fmod_1_nonneg (0 * Driver.speed Examples.crank)) as [Hf _].
  { cbn. lra. }
  rewrite Hf. unfold Driver.point_for_time. cbn [Driver.kind Driver.location
    Driver.speed Examples.crank fst snd].
  replace (0 * 1.0) with 0 by lra. change 0 with (IZR 0) at 2 4. rewrite ZfloorZ.
  replace (0 + (0 - 0) * 2 * PI) with 0 by ring.
  rewrite cos_0, sin_0. f_equal; ring.
Qed.

(** The effective time of the reverse rocker at time 0.25: [math.fmod]
    keeps the sign of the product. *)
Lemma reverse_effective_time :
  Driver.math_fmod (0.25 * Driver.speed Examples.reverse_rocker) 1.0 = -0.25.
Proof.
  unfold Driver.math_fmod, Driver.Ztrunc. cbn [Driver.speed Examples.reverse_rocker].
  destruct (Rle_dec 0 (0.25 * -1 / 1.0)) as [H|_]; [lra|].
  unfold Zceil. rewrite (Zfloor_eq 0) by lra.
  change (IZR (- 0)) with 0. lra.
Qed.

Lemma reverse_spec_time :
  Driver.spec_mod_1 (0.25 * Driver.speed Examples.reverse_rocker) = 0.75.
Proof.
  unfold Driver.spec_mod_1. cbn [Driver.speed Examples.reverse_rocker].
  rewrite (Zfloor_eq (-1)) by lra. lra.
Qed.




(** C8: the rocker's angle, in degrees, rises linearly from the starting to
    the ending angle on the first half of the time interval and falls back
    linearly on the second half; the point is the centre plus the length
    times the cosine and sine of that angle in radians. *)
Theorem C8_rocker_point_for_time (d : Driver.t)
    (length starting_angle ending_angle t : R) :
  Driver.kind d = Driver.Rocker length starting_angle ending_angle ->
  (0 <= t < 0.5 ->
   let angle := starting_angle + 2 * t * (ending_angle - starting_angle) in
   Driver.point_for_time d t
   = (fst (Driver.location d) + length * cos (Driver.radians angle),
      snd (Driver.location d) + length * sin (Driver.radians angle))) /\
  (0.5 <= t < 1 ->
   let angle := ending_angle - 2 * (t - 0.5) * (ending_angle - starting_angle) in
   Driver.point_for_time d t
   = (fst (Driver.location d) + length * cos (Driver.radians angle),
      snd (Driver.location d) + length * sin (Driver.radians angle))).
Proof.
  intros Hk. unfold Driver.point_for_time, Driver.radians. rewrite Hk.
  split; intros Ht; cbv zeta; destruct (Rlt_dec t 0.5); try lra;
    f_equal; f_equal; f_equal; f_equal; lra.
Qed.

Lemma C8_rocker_point_for_time_witness :
  Driver.point_for_time Examples.rocker 0.25
  = (0 + 2 * cos (Driver.radians (30 + 2 * 0.25 * (120 - 30))),
     0 + 2 * sin (Driver.radians (30 + 2 * 0.25 * (120 - 30)))).
Proof.
  refine (proj1 (C8_rocker_point_for_time Examples.rocker 2 30 120 0.25 eq_refl) _).
  lra.
Defined.

End DriverFacts.

(* ------------------------------------------------------------------------- *)
(** ** linkage.py: the fixpoint of [generate_simulation_function] *)

Section CompilationFacts.

Import Linkage.

(** A pass that reports no progress has left the function list and the
    solved set as they were. *)
Lemma pass_step_idle (st : pass_state) (c : candidate) :
  round_solved (pass_step st c) = false ->
  round_solved st = false /\
  function_list (pass_step st c) = function_list st /\
  solved_joints (pass_step st c) = solved_joints st.
Proof.
  destruct c as [[rq j] f]. unfold pass_step.
  destruct (decide (rq ⊆ solved_joints st)); [destruct (decide (j ∈ solved_joints st))|];
    cbn; intros H; try discriminate H; auto.
Qed.

Lemma fold_pass_idle (l : list candidate) (st : pass_state) :
  round_solved (fold_left pass_step l st) = false ->
  round_solved st = false /\
  function_list (fold_left pass_step l st) = function_list st /\
  solved_joints (fold_left pass_step l st) = solved_joints st.
Proof.
  revert st. induction l as [|c l IH]; intros st H; cbn [fold_left] in *.
  - auto.
  - destruct (IH _ H) as (H1 & H2 & H3).
    destruct (pass_step_idle _ _ H1) as (H4 & H5 & H6).
    repeat split; congruence.
Qed.

Lemma pass_idle (reqs : list candidate) (fl : list step) (solved : gset joint_id) :
  round_solved (pass reqs fl solved) = false ->
  function_list (pass reqs fl solved) = fl /\
  solved_joints (pass reqs fl solved) = solved.
Proof.
  intros H. destruct (fold_pass_idle _ _ H) as (_ & H1 & H2). auto.
Qed.

(** The three exits of one iteration of the [while] loop. *)
Lemma solve_loop_unfold (all_joints : gset joint_id) (reqs : list candidate)
    (fl : list step) (solved : gset joint_id) :
  solve_loop all_joints reqs fl solved =
  if decide (solved_joints (pass reqs fl solved) = all_joints)
  then Ok (function_list (pass reqs fl solved))
  else if round_solved (pass reqs fl solved)
       then solve_loop all_joints (kept (pass reqs fl solved))
                       (function_list (pass reqs fl solved))
                       (solved_joints (pass reqs fl solved))
       else Raise (InvalidLinkageError
                     (UnknownJoints (all_joints ∖ solved_joints (pass reqs fl solved)))).
Proof.
  funelim (solve_loop all_joints reqs fl solved); clear Heqcall;
    try match goal with
    | IH : solve_loop _ _ _ _ = _ |- _ => clear IH
    end;
    match goal with
    | H : decide _ = _ |- _ => rewrite H
    end;
    try match goal with
    | H : round_solved _ = _ |- _ => rewrite H
    end;
    reflexivity.
Qed.

(** The loop always ends, in one of two ways: at the top of its last
    iteration the pass either completes the solved set, and the function
    list is returned, or activates nothing while a joint is unsolved, and
    the exception names the joints outside the solved set. *)
Lemma solve_loop_outcome (all_joints : gset joint_id) (n : nat) :
  forall (reqs : list candidate) (fl : list step) (solved : gset joint_id),
    (length reqs <= n)%nat ->
    exists reqs' fl' solved',
      rounds all_joints (reqs, fl, solved) (reqs', fl', solved') /\
      ((solved_joints (pass reqs' fl' solved') = all_joints /\
        solve_loop all_joints reqs fl solved
        = Ok (function_list (pass reqs' fl' solved')))
       \/
       (solved_joints (pass reqs' fl' solved') <> all_joints /\
        round_solved (pass reqs' fl' solved') = false /\
        solved_joints (pass reqs' fl' solved') = solved' /\
        solve_loop all_joints reqs fl solved
        = Raise (InvalidLinkageError (UnknownJoints (all_joints ∖ solved'))))).
Proof.
  induction n as [|n IH]; intros reqs fl solved Hlen;
    rewrite solve_loop_unfold;
    (destruct (decide (solved_joints (pass reqs fl solved) = all_joints)) as [Hall|Hnot];
     [exists reqs, fl, solved; split; [constructor | left; auto]|]);
    destruct (round_solved (pass reqs fl solved)) eqn:Hrs.
  - pose proof (pass_progress _ _ _ Hrs). exfalso. lia.
  - destruct (pass_idle _ _ _ Hrs) as [_ Hs].
    exists reqs, fl, solved. split; [constructor|]. right.
    repeat split; [exact Hnot | exact Hrs | exact Hs | rewrite Hs; reflexivity].
  - pose proof (pass_progress _ _ _ Hrs) as Hlt.
    destruct (IH (kept (pass reqs fl solved)) (function_list (pass reqs fl solved))
                 (solved_joints (pass reqs fl solved)) ltac:(lia))
      as (reqs' & fl' & solved' & Hr & Hout).
    exists reqs', fl', solved'. split; [|exact Hout].
    apply rounds_next; assumption.
  - destruct (pass_idle _ _ _ Hrs) as [_ Hs].
    exists reqs, fl, solved. split; [constructor|]. right.
    repeat split; [exact Hnot | exact Hrs | exact Hs | rewrite Hs; reflexivity].
Qed.

(** [generate_simulation_function] always returns or raises, and which of
    the two is decided by the last pass of the fixpoint. *)
Lemma generate_outcome (set_order : gset joint_id -> list joint_id)
    (self : Linkage.t) (h : heap) :
  let all_joints : gset joint_id := list_to_set (Linkage.joints self) in
  let solved0 := initial_solved h (Linkage.joints self) (Linkage.drivers self) in
  let reqs0 := all_solvers set_order (Linkage.bars self) (Linkage.joints self) solved0 in
  exists reqs fl solved,
    rounds all_joints (reqs0, map DriverStep (Linkage.drivers self), solved0)
           (reqs, fl, solved) /\
    ((solved_joints (pass reqs fl solved) = all_joints /\
      generate_simulation_function set_order self h
      = Ok (function_list (pass reqs fl solved)))
     \/
     (solved_joints (pass reqs fl solved) <> all_joints /\
      round_solved (pass reqs fl solved) = false /\
      solved_joints (pass reqs fl solved) = solved /\
      generate_simulation_function set_order self h
      = Raise (InvalidLinkageError (UnknownJoints (all_joints ∖ solved))))).
Proof.
  intros all_joints solved0 reqs0. unfold generate_simulation_function.
  fold all_joints solved0 reqs0.
  exact (solve_loop_outcome all_joints (length reqs0) reqs0 _ solved0 (le_n _)).
Qed.

Lemma pass_step_within (all_joints : gset joint_id) (st : pass_state) (c : candidate) :
  c.1.2 ∈ all_joints ->
  solved_joints st ⊆ all_joints ->
  Forall (fun c : candidate => c.1.2 ∈ all_joints) (kept st) ->
  solved_joints (pass_step st c) ⊆ all_joints /\
  Forall (fun c : candidate => c.1.2 ∈ all_joints) (kept (pass_step st c)).
Proof.
  destruct c as [[rq j] f]. cbn [fst snd]. intros Hj Hs Hk. unfold pass_step.
  destruct (decide (rq ⊆ solved_joints st)); [destruct (decide (j ∈ solved_joints st))|];
    cbn [solved_joints kept]; split; auto;
    try (apply Forall_app; split; [exact Hk | repeat constructor; exact Hj]).
  apply union_subseteq. split; [apply singleton_subseteq_l; exact Hj | exact Hs].
Qed.

Lemma fold_pass_within (all_joints : gset joint_id) (l : list candidate) :
  forall st : pass_state,
    Forall (fun c : candidate => c.1.2 ∈ all_joints) l ->
    solved_joints st ⊆ all_joints ->
    Forall (fun c : candidate => c.1.2 ∈ all_joints) (kept st) ->
    solved_joints (fold_left pass_step l st) ⊆ all_joints /\
    Forall (fun c : candidate => c.1.2 ∈ all_joints) (kept (fold_left pass_step l st)).
Proof.
  induction l as [|c l IH]; intros st Hl Hs Hk; cbn [fold_left]; [auto|].
  apply Forall_cons in Hl as [Hc Hl].
  destruct (pass_step_within all_joints st c Hc Hs Hk) as [Hs' Hk'].
  apply IH; assumption.
Qed.

Lemma rounds_within (all_joints : gset joint_id) (s s' : loop_state) :
  rounds all_joints s s' -> within all_joints s -> within all_joints s'.
Proof.
  induction 1 as [|reqs fl solved s' _ _ _ IH]; [auto|].
  intros [Hs Hr]. cbn [fst snd] in *. apply IH. unfold within. cbn [fst snd].
  apply fold_pass_within; [exact Hr | exact Hs | constructor].
Qed.

Lemma initial_solved_within (h : heap) (bars : list Bar.t) (joints : list joint_id)
    (drivers : list Driver.t) :
  validity_check bars joints drivers = Ok true ->
  initial_solved h joints drivers ⊆ list_to_set joints.
Proof.
  unfold validity_check, initial_solved. intros Hv.
  destruct (forallb _ bars); [|discriminate Hv]. cbn [negb] in Hv.
  destruct (forallb _ drivers) eqn:Hd; [|discriminate Hv].
  rewrite forallb_forall in Hd.
  intros j Hj. apply elem_of_union in Hj as [Hj|Hj].
  - apply elem_of_list_to_set, list_elem_of_fmap in Hj as (d & -> & Hin).
    apply elem_of_list_to_set. apply list_elem_of_In in Hin.
    specialize (Hd d Hin). apply bool_decide_eq_true in Hd. exact Hd.
  - apply elem_of_list_to_set, list_elem_of_filter in Hj as [_ Hj].
    apply elem_of_list_to_set. exact Hj.
Qed.

Lemma solvers_for_joint_target (set_order : gset joint_id -> list joint_id)
    (bars : list Bar.t) (joint : joint_id) :
  Forall (fun c : candidate => c.1.2 = joint) (solvers_for_joint set_order bars joint).
Proof.
  unfold solvers_for_joint.
  assert (Hext : forall bs : list Bar.t,
            Forall (fun c : candidate => c.1.2 = joint)
              (flat_map
                 (fun bar =>
                    map (fun pair : joint_id * joint_id =>
                           (({[pair.1; pair.2]} : gset joint_id), joint,
                            solver_for_joint_on_bar_given_joints joint bar
                              (list_remove joint (Bar.joints bar))))
                        (combinations (list_remove joint (Bar.joints bar)))) bs)).
  { intros bs. apply Forall_forall. intros c Hc.
    apply list_elem_of_In, in_flat_map in Hc as (bar & _ & Hc).
    apply in_map_iff in Hc as (pr & <- & _). reflexivity. }
  destruct (length (bars_connected_to_joint bars joint) <? 2)%nat; [apply Hext|].
  apply Forall_app. split; [apply Hext|].
  apply Forall_forall. intros c Hc.
  apply list_elem_of_In, in_flat_map in Hc as (bp & _ & Hc).
  apply in_map_iff in Hc as (pr & <- & _). reflexivity.
Qed.

(** C1: for a validated topology, and whatever the order in which sets are
    iterated, [generate_simulation_function] ends after a last pass of the
    fixpoint, with the solved set within the linkage's joints.  If that pass
    solves every joint, the function list is returned and nothing is raised.
    If it activates no solver while a joint is unsolved, the call raises the
    unsolvable-linkage error, whose joints are exactly the linkage's joints
    minus the solved set. *)
Theorem C1_fixpoint_outcome (set_order : gset joint_id -> list joint_id)
    (self : Linkage.t) (h : heap) :
  validity_check (Linkage.bars self) (Linkage.joints self) (Linkage.drivers self)
  = Ok true ->
  (forall s j, j ∈ set_order s -> j ∈ s) ->
  let all_joints : gset joint_id := list_to_set (Linkage.joints self) in
  let solved0 := initial_solved h (Linkage.joints self) (Linkage.drivers self) in
  let reqs0 := all_solvers set_order (Linkage.bars self) (Linkage.joints self) solved0 in
  exists reqs fl solved,
    rounds all_joints (reqs0, map DriverStep (Linkage.drivers self), solved0)
           (reqs, fl, solved) /\
    solved_joints (pass reqs fl solved) ⊆ all_joints /\
    ((all_joints ⊆ solved_joints (pass reqs fl solved) /\
      generate_simulation_function set_order self h
      = Ok (function_list (pass reqs fl solved)))
     \/
     (round_solved (pass reqs fl solved) = false /\
      solved_joints (pass reqs fl solved) = solved /\
      all_joints ∖ solved <> ∅ /\
      generate_simulation_function set_order self h
      = Raise (InvalidLinkageError (UnknownJoints (all_joints ∖ solved))))).
Proof.
  intros Hvalid Horder all_joints solved0 reqs0.
  destruct (generate_outcome set_order self h) as (reqs & fl & solved & Hr & Hout).
  fold all_joints solved0 reqs0 in Hr, Hout.
  assert (Hw : within all_joints (reqs, fl, solved)).
  { apply (rounds_within _ _ _ Hr). split; cbn [fst snd].
    - apply (initial_solved_within _ _ _ _ Hvalid).
    - apply Forall_forall. intros c Hc.
      apply list_elem_of_In, in_flat_map in Hc as (j & Hj & Hc).
      pose proof (solvers_for_joint_target set_order (Linkage.bars self) j) as Ht.
      rewrite Forall_forall in Ht. apply list_elem_of_In in Hc. rewrite (Ht c Hc).
      apply list_elem_of_In, Horder, elem_of_difference in Hj as [Hj _]. exact Hj. }
  destruct Hw as [Hs Hk]. cbn [fst snd] in Hs, Hk.
  assert (Hp : solved_joints (pass reqs fl solved) ⊆ all_joints).
  { apply fold_pass_within; [exact Hk | exact Hs | constructor]. }
  exists reqs, fl, solved. split; [exact Hr|]. split; [exact Hp|].
  destruct Hout as [[Hall Hok]|(Hnot & Hidle & Hsame & Hraise)].
  - left. split; [rewrite Hall; reflexivity | exact Hok].
  - right. repeat split; try assumption.
    intros Hempty. apply Hnot. rewrite Hsame in Hp |- *.
    apply set_eq. intros j. split; [apply Hp|]. intros Hj.
    destruct (decide (j ∈ solved)) as [Hin|Hout]; [exact Hin|].
    assert (Hdiff : j ∈ all_joints ∖ solved) by (apply elem_of_difference; auto).
    rewrite Hempty in Hdiff. destruct (not_elem_of_empty j Hdiff).
Qed.

(** The theorem on the bar hanging from a fixed joint, iterated in the
    order of [elements]. *)
Lemma C1_fixpoint_outcome_witness :
  let self := Examples.hanging_linkage in
  let h := Examples.hanging_joints in
  let all_joints : gset joint_id := list_to_set (Linkage.joints self) in
  let solved0 := initial_solved h (Linkage.joints self) (Linkage.drivers self) in
  let reqs0 := all_solvers elements (Linkage.bars self) (Linkage.joints self) solved0 in
  exists reqs fl solved,
    rounds all_joints (reqs0, map DriverStep (Linkage.drivers self), solved0)
           (reqs, fl, solved) /\
    solved_joints (pass reqs fl solved) ⊆ all_joints /\
    ((all_joints ⊆ solved_joints (pass reqs fl solved) /\
      generate_simulation_function elements self h
      = Ok (function_list (pass reqs fl solved)))
     \/
     (round_solved (pass reqs fl solved) = false /\
      solved_joints (pass reqs fl solved) = solved /\
      all_joints ∖ solved <> ∅ /\
      generate_simulation_function elements self h
      = Raise (InvalidLinkageError (UnknownJoints (all_joints ∖ solved))))).
Proof.
  apply (C1_fixpoint_outcome elements Examples.hanging_linkage Examples.hanging_joints).
  - reflexivity.
  - intros s j Hj. apply elem_of_elements. exact Hj.
Defined.

(** Its free end has no solver and is the joint named by the error. *)
Lemma hanging_unsolvable :
  generate_simulation_function elements Examples.hanging_linkage Examples.hanging_joints
  = Raise (InvalidLinkageError (UnknownJoints {[1%nat]})).
Proof. vm_compute. reflexivity. Qed.

End CompilationFacts.

(* ------------------------------------------------------------------------- *)
(** ** linkage.py: the validity check of [sim_function] *)

Section ValidityFacts.

(** The pairs of [pairwise] are the pairs at consecutive positions. *)
Lemma pairwise_lookup {A} (l : list A) (x y : A) :
  (x, y) ∈ Linkage.pairwise l <-> exists i, l !! i = Some x /\ l !! S i = Some y.
Proof.
  induction l as [|a [|b tl] IH].
  - cbn. split; [intros H; inversion H | intros (i & H & _); discriminate H].
  - cbn. split; [intros H; inversion H|]. intros ([|i] & _ & H); discriminate H.
  - change (Linkage.pairwise (a :: b :: tl)) with ((a, b) :: Linkage.pairwise (b :: tl)).
    rewrite elem_of_cons, IH. split.
    + intros [[= -> ->]|(i & H1 & H2)].
      * exists 0%nat. auto.
      * exists (S i). auto.
    + intros ([|i] & H1 & H2).
      * left. cbn in H1, H2. congruence.
      * right. exists i. auto.
Qed.

Import Geometry Linkage.

Lemma check_pair_ok (margin : R) (h : heap) (bar : Bar.t) (pair : joint_id * joint_id) :
  check_pair margin h bar pair = Ok tt <-> within_margin margin h bar pair.
Proof.
  unfold check_pair, within_margin, the_point. split.
  - destruct (Joint.location (h !!! pair.1)) as [p1|]; [|discriminate].
    destruct (Joint.location (h !!! pair.2)) as [p2|]; [|discriminate]. rstep.
    destruct (Bar.joint_distance bar pair.1 pair.2) as [dist|e]; [|discriminate]. rstep.
    destruct (Rlt_dec (Rabs (dist - distance p1 p2)) margin); [|discriminate].
    intros _. eauto 10.
  - intros (p1 & p2 & dist & -> & -> & -> & Hlt). rstep.
    destruct (Rlt_dec (Rabs (dist - distance p1 p2)) margin); [reflexivity | contradiction].
Qed.

Lemma check_pair_outside (margin : R) (h : heap) (bar : Bar.t)
    (pair : joint_id * joint_id) :
  outside_margin margin h bar pair ->
  exists dist,
    Bar.joint_distance bar pair.1 pair.2 = Ok dist /\
    check_pair margin h bar pair
    = Raise (InvalidLinkageError
               (DistanceConstraint dist (Bar.label bar) pair.1 pair.2)).
Proof.
  intros (p1 & p2 & dist & H1 & H2 & Hd & Hlt). exists dist. split; [exact Hd|].
  unfold check_pair, the_point. rewrite H1, H2, Hd. rstep.
  destruct (Rlt_dec (Rabs (dist - distance p1 p2)) margin); [contradiction | reflexivity].
Qed.

(** A pair whose two locations are known and whose declared distance is
    defined is either within or outside the margin. *)
Lemma within_or_outside (margin : R) (h : heap) (bar : Bar.t)
    (pair : joint_id * joint_id) :
  (exists p1 p2 dist,
     Joint.location (h !!! pair.1) = Some p1 /\
     Joint.location (h !!! pair.2) = Some p2 /\
     Bar.joint_distance bar pair.1 pair.2 = Ok dist) ->
  within_margin margin h bar pair \/ outside_margin margin h bar pair.
Proof.
  intros (p1 & p2 & dist & H1 & H2 & Hd).
  destruct (Rlt_dec (Rabs (dist - distance p1 p2)) margin);
    [left | right]; exists p1, p2, dist; auto.
Qed.

Lemma check_pairs_ok (margin : R) (h : heap) (bar : Bar.t)
    (pairs : list (joint_id * joint_id)) :
  check_pairs margin h bar pairs = Ok tt <->
  Forall (within_margin margin h bar) pairs.
Proof.
  induction pairs as [|p rest IH]; cbn [check_pairs].
  - split; [constructor | reflexivity].
  - rewrite Forall_cons, <- IH, <- check_pair_ok.
    destruct (check_pair margin h bar p) as [[]|e]; rstep; split;
      try (intros [? ?]); try discriminate; auto.
Qed.

Lemma check_bars_ok (margin : R) (h : heap) (bars : list Bar.t) :
  check_bars margin h bars = Ok tt <->
  Forall (fun bar => Forall (within_margin margin h bar) (pairwise (Bar.joints bar)))
         bars.
Proof.
  induction bars as [|b rest IH]; cbn [check_bars].
  - split; [constructor | reflexivity].
  - rewrite Forall_cons, <- IH, <- check_pairs_ok.
    destruct (check_pairs margin h b (pairwise (Bar.joints b))) as [[]|e]; rstep; split;
      try (intros [? ?]); try discriminate; auto.
Qed.

(** When every pair can be measured, a failing check raises the distance
    error of a pair that is outside the margin. *)
Lemma check_pairs_raise (margin : R) (h : heap) (bar : Bar.t)
    (pairs : list (joint_id * joint_id)) :
  Forall (fun p => within_margin margin h bar p \/ outside_margin margin h bar p) pairs ->
  check_pairs margin h bar pairs = Ok tt \/
  exists pair dist,
    pair ∈ pairs /\ outside_margin margin h bar pair /\
    Bar.joint_distance bar pair.1 pair.2 = Ok dist /\
    check_pairs margin h bar pairs
    = Raise (InvalidLinkageError
               (DistanceConstraint dist (Bar.label bar) pair.1 pair.2)).
Proof.
  induction 1 as [|p rest Hp _ IH]; cbn [check_pairs]; [left; reflexivity|].
  destruct Hp as [Hin|Hout].
  - apply check_pair_ok in Hin. rewrite Hin. rstep.
    destruct IH as [IH|(pair & dist & Hel & Ho & Hd & Hr)]; [left; exact IH|].
    right. exists pair, dist. repeat split; auto. apply list_elem_of_further; exact Hel.
  - destruct (check_pair_outside _ _ _ _ Hout) as (dist & Hd & Hr).
    right. exists p, dist. rewrite Hr. rstep.
    repeat split; auto. apply list_elem_of_here.
Qed.

Lemma check_bars_raise (margin : R) (h : heap) (bars : list Bar.t) :
  Forall (fun bar =>
            Forall (fun p => within_margin margin h bar p \/ outside_margin margin h bar p)
                   (pairwise (Bar.joints bar))) bars ->
  check_bars margin h bars = Ok tt \/
  exists bar pair dist,
    bar ∈ bars /\ pair ∈ pairwise (Bar.joints bar) /\
    outside_margin margin h bar pair /\
    Bar.joint_distance bar pair.1 pair.2 = Ok dist /\
    check_bars margin h bars
    = Raise (InvalidLinkageError
               (DistanceConstraint dist (Bar.label bar) pair.1 pair.2)).
Proof.
  induction 1 as [|b rest Hb _ IH]; cbn [check_bars]; [left; reflexivity|].
  destruct (check_pairs_raise _ _ _ _ Hb) as [Hok|(pair & dist & Hel & Ho & Hd & Hr)].
  - rewrite Hok. rstep.
    destruct IH as [IH|(bar & pair & dist & Hbel & Hel & Ho & Hd & Hr)]; [left; exact IH|].
    right. exists bar, pair, dist. repeat split; auto. apply list_elem_of_further; exact Hbel.
  - right. exists b, pair, dist. rewrite Hr. rstep.
    repeat split; auto. apply list_elem_of_here.
Qed.

End ValidityFacts.

(* ------------------------------------------------------------------------- *)
(** ** linkage.py: [simulate_to_time] *)

Section SimulationFacts.

Import Geometry Linkage.

Variable set_order : gset joint_id -> list joint_id.

(** The three ways through the cache-miss branch. *)
Lemma simulate_to_time_miss (self : Linkage.t) (time : R) (h : heap) :
  0 <= time <= 1 ->
  cache_entry self (cache_time self time) = None ->
  (forall e, compiled_function set_order self h = Raise e ->
     simulate_to_time set_order self time h = (Raise e, (with_cache self, h))) /\
  (forall fl, compiled_function set_order self h = Ok fl ->
     (forall e h', run_steps fl time h = (Raise e, h') ->
        simulate_to_time set_order self time h = (Raise e, (with_function self fl, h'))) /\
     (forall h', run_steps fl time h = (Ok tt, h') ->
        (forall e, check_bars validity_margin h' (bars self) = Raise e ->
           simulate_to_time set_order self time h
           = (Raise e, (with_function self fl, h'))) /\
        (check_bars validity_margin h' (bars self) = Ok tt ->
           simulate_to_time set_order self time h
           = (Ok tt,
              (set_cache (with_function self fl)
                 (Some (<[cache_time self time :=
                            cache_state (with_function self fl) h']>
                          (match cache self with Some c => c | None => ∅ end))),
               h'))))).
Proof.
  intros Ht Hmiss. unfold simulate_to_time.
  rewrite bool_decide_eq_true_2 by exact Ht. cbn [negb]. rewrite Hmiss.
  change (compiled_function set_order (set_cache self _) h)
    with (compiled_function set_order self h).
  split.
  - intros e ->. reflexivity.
  - intros fl ->. fold (with_cache self). fold (with_function self fl).
    change (bars (with_function self fl)) with (bars self).
    unfold sim_function. split.
    + intros e h' ->. reflexivity.
    + intros h' ->. split.
      * intros e ->. reflexivity.
      * intros ->. reflexivity.
Qed.

Lemma cache_entry_with_cache (self : Linkage.t) (ct : Z) :
  cache_entry (with_cache self) ct = cache_entry self ct.
Proof.
  unfold cache_entry, with_cache. cbn. destruct (cache self); [reflexivity|].
  apply lookup_empty.
Qed.

Lemma cache_entry_with_function (self : Linkage.t) (fl : list step) (ct : Z) :
  cache_entry (with_function self fl) ct = cache_entry self ct.
Proof. exact (cache_entry_with_cache self ct). Qed.

(** On a cache miss, a call of [simulate_to_time] that returns has left
    every pair of chain-adjacent joints of every bar at a distance that
    differs from [joint_distance] of the pair by less than 0.001; and when
    the pipeline has run and the pairs can be measured, a pair outside the
    margin makes the call raise the distance error, which names a bar and a
    pair of its chain-adjacent joints that are outside the margin. *)
Lemma miss_checks_joint_distance (self : Linkage.t) (time : R) (h : heap) :
  0 <= time <= 1 ->
  cache_entry self (cache_time self time) = None ->
  (forall self' h',
     simulate_to_time set_order self time h = (Ok tt, (self', h')) ->
     forall bar pair,
       bar ∈ bars self -> pair ∈ pairwise (Bar.joints bar) ->
       within_margin 0.001 h' bar pair) /\
  (forall fl h1,
     compiled_function set_order self h = Ok fl ->
     run_steps fl time h = (Ok tt, h1) ->
     (forall bar pair,
        bar ∈ bars self -> pair ∈ pairwise (Bar.joints bar) ->
        within_margin 0.001 h1 bar pair \/ outside_margin 0.001 h1 bar pair) ->
     forall bar pair,
       bar ∈ bars self -> pair ∈ pairwise (Bar.joints bar) ->
       outside_margin 0.001 h1 bar pair ->
       exists bar' pair' dist,
         bar' ∈ bars self /\ pair' ∈ pairwise (Bar.joints bar') /\
         outside_margin 0.001 h1 bar' pair' /\
         Bar.joint_distance bar' pair'.1 pair'.2 = Ok dist /\
         simulate_to_time set_order self time h
         = (Raise (InvalidLinkageError
                     (DistanceConstraint dist (Bar.label bar') pair'.1 pair'.2)),
            (with_function self fl, h1))).
Proof.
  intros Ht Hmiss.
  destruct (simulate_to_time_miss self time h Ht Hmiss) as [Hraise Hok].
  change 0.001 with validity_margin. split.
  - intros self' h' Hsim bar pair Hbar Hpair.
    destruct (compiled_function set_order self h) as [fl|e] eqn:Hc.
    2:{ rewrite (Hraise e eq_refl) in Hsim. discriminate Hsim. }
    destruct (Hok fl eq_refl) as [Hsteps Hdone].
    destruct (run_steps fl time h) as [[[]|e] h1] eqn:Hrun.
    2:{ rewrite (Hsteps e h1 eq_refl) in Hsim. discriminate Hsim. }
    destruct (Hdone h1 eq_refl) as [Hbad Hgood].
    destruct (check_bars validity_margin h1 (bars self)) as [[]|e] eqn:Hchk.
    2:{ rewrite (Hbad e eq_refl) in Hsim. discriminate Hsim. }
    rewrite (Hgood eq_refl) in Hsim. injection Hsim as _ <-.
    apply check_bars_ok in Hchk.
    rewrite Forall_forall in Hchk. specialize (Hchk bar Hbar).
    rewrite Forall_forall in Hchk. exact (Hchk pair Hpair).
  - intros fl h1 Hc Hrun Hmeas bar pair Hbar Hpair Hout.
    destruct (Hok fl Hc) as [_ Hdone]. destruct (Hdone h1 Hrun) as [Hbad _].
    destruct (check_bars_raise validity_margin h1 (bars self))
      as [Hchk|(bar' & pair' & dist & Hb' & Hp' & Ho' & Hd' & Hr')].
    + apply Forall_forall. intros b Hb. apply Forall_forall. intros q Hq.
      exact (Hmeas b q Hb Hq).
    + exfalso. apply check_bars_ok in Hchk.
      rewrite Forall_forall in Hchk. specialize (Hchk bar Hbar).
      rewrite Forall_forall in Hchk. specialize (Hchk pair Hpair).
      destruct Hchk as (p1 & p2 & d & H1 & H2 & H3 & Hlt).
      destruct Hout as (q1 & q2 & d' & G1 & G2 & G3 & Hnlt).
      rewrite H1 in G1. rewrite H2 in G2. rewrite H3 in G3.
      injection G1 as <-. injection G2 as <-. injection G3 as <-. contradiction.
    + exists bar', pair', dist. repeat split; auto.
Qed.

(** On a plain bar [joint_distance] of the joints at the chain positions
    [i] and [i + 1] is the segment length declared for them. *)
Lemma plain_bar_adjacent (bar : Bar.t) (i : nat) (a b : joint_id) :
  plain_bar bar ->
  Bar.joints bar !! i = Some a -> Bar.joints bar !! S i = Some b ->
  exists len,
    Bar.segment_lengths bar !! i = Some len /\
    Bar.joint_distance bar a b = Ok len.
Proof.
  intros (Hlen & Hnd & Hpos) Ha Hb.
  assert (Hi : (i < length (Bar.segment_lengths bar))%nat).
  { apply lookup_lt_Some in Hb. lia. }
  destruct (lookup_lt_is_Some_2 _ _ Hi) as [len Hs].
  exists len. split; [exact Hs|].
  rewrite (joint_distance_adjacent bar i a b len Hlen Hnd Ha Hb Hs).
  f_equal. apply Rabs_right, Rle_ge.
  rewrite Forall_forall in Hpos. apply Hpos. eapply list_elem_of_lookup_2, Hs.
Qed.

Lemma plain_bar_within (margin : R) (h : heap) (bar : Bar.t) (i : nat) (a b : joint_id) :
  plain_bar bar ->
  Bar.joints bar !! i = Some a -> Bar.joints bar !! S i = Some b ->
  (within_margin margin h bar (a, b) <-> declared_within margin h bar i) /\
  (outside_margin margin h bar (a, b) <-> declared_outside margin h bar i).
Proof.
  intros Hplain Ha Hb.
  destruct (plain_bar_adjacent bar i a b Hplain Ha Hb) as (len & Hs & Hd).
  split; split.
  - intros (p1 & p2 & dist & H1 & H2 & H3 & Hlt). cbn [fst snd] in *.
    rewrite Hd in H3. injection H3 as <-.
    exists a, b, len, p1, p2. repeat split; assumption.
  - intros (a' & b' & len' & p1 & p2 & Ha' & Hb' & Hs' & H1 & H2 & Hlt).
    rewrite Ha in Ha'. rewrite Hb in Hb'. rewrite Hs in Hs'.
    injection Ha' as <-. injection Hb' as <-. injection Hs' as <-.
    exists p1, p2, len. repeat split; assumption.
  - intros (p1 & p2 & dist & H1 & H2 & H3 & Hlt). cbn [fst snd] in *.
    rewrite Hd in H3. injection H3 as <-.
    exists a, b, len, p1, p2. repeat split; assumption.
  - intros (a' & b' & len' & p1 & p2 & Ha' & Hb' & Hs' & H1 & H2 & Hlt).
    rewrite Ha in Ha'. rewrite Hb in Hb'. rewrite Hs in Hs'.
    injection Ha' as <-. injection Hb' as <-. injection Hs' as <-.
    exists p1, p2, len. repeat split; assumption.
Qed.


(** C9: when a call on a cache miss raises -- from the compilation, from a
    step of the pipeline or from the validity check -- the cache holds after
    the call exactly the entries it held before: none for the bucket of the
    call, so a later call for a time of the same bucket is a miss again. *)
Theorem C9_no_entry_on_failure (self : Linkage.t) (time : R) (h : heap)
    (e : exn) (self' : Linkage.t) (h' : heap) :
  0 <= time <= 1 ->
  cache_entry self (cache_time self time) = None ->
  simulate_to_time set_order self time h = (Raise e, (self', h')) ->
  (forall ct, cache_entry self' ct = cache_entry self ct) /\
  cache_entry self' (cache_time self' time) = None /\
  (forall time2, cache_time self time2 = cache_time self time ->
     cache_entry self' (cache_time self' time2) = None).
Proof.
  intros Ht Hmiss Hsim.
  destruct (simulate_to_time_miss self time h Ht Hmiss) as [Hraise Hok].
  assert (Hself : self' = with_cache self \/ exists fl, self' = with_function self fl).
  { destruct (compiled_function set_order self h) as [fl|e0] eqn:Hc.
    2:{ rewrite (Hraise e0 eq_refl) in Hsim. injection Hsim as _ <- _. left. reflexivity. }
    right. exists fl.
    destruct (Hok fl eq_refl) as [Hsteps Hdone].
    destruct (run_steps fl time h) as [[[]|e1] h1] eqn:Hrun.
    2:{ rewrite (Hsteps e1 h1 eq_refl) in Hsim. injection Hsim as _ <- _. reflexivity. }
    destruct (Hdone h1 eq_refl) as [Hbad Hgood].
    destruct (check_bars validity_margin h1 (bars self)) as [[]|e2] eqn:Hchk.
    - rewrite (Hgood eq_refl) in Hsim. discriminate Hsim.
    - rewrite (Hbad e2 eq_refl) in Hsim. injection Hsim as _ <- _. reflexivity. }
  assert (Hsame : forall ct, cache_entry self' ct = cache_entry self ct).
  { intros ct. destruct Hself as [->|[fl ->]];
      [apply cache_entry_with_cache | apply cache_entry_with_function]. }
  assert (Htime : forall t2, cache_time self' t2 = cache_time self t2).
  { intros t2. destruct Hself as [->|[fl ->]]; reflexivity. }
  split; [exact Hsame|]. split.
  - rewrite Hsame, Htime. exact Hmiss.
  - intros time2 H2. rewrite Hsame, Htime, H2. exact Hmiss.
Qed.

End SimulationFacts.

(* ------------------------------------------------------------------------- *)
(** ** Two runs on concrete linkages *)

Section SimulationExamples.

Import Geometry Linkage Examples.

Lemma Rabs_5_5 : Rabs (5 - 5) < 0.001.
Proof. replace (5 - 5) with 0 by ring. rewrite Rabs_R0. lra. Qed.

Lemma distance_3_4 : distance (0, 0) (3, 4) = 5.
Proof.
  unfold distance. cbn [fst snd].
  replace ((0 - 3) ^ 2 + (0 - 4) ^ 2) with (5 * 5) by ring.
  apply sqrt_square. lra.
Qed.

Lemma distance_eval_1 (p q : point) :
  (fst p - fst q) ^ 2 + (snd p - snd q) ^ 2 = 1 -> distance p q = 1.
Proof. intros H. unfold distance. rewrite H. apply sqrt_1. Qed.

Lemma joint_distance_two (lbl : string) (len : R) :
  0 <= len -> Bar.joint_distance (Bar.mk lbl [0%nat; 1%nat] [len]) 0%nat 1%nat = Ok len.
Proof.
  intros Hlen. change (Ok (Rabs (0 - (0 + len))) = Ok len). f_equal.
  replace (0 - (0 + len)) with (- len) by ring. rewrite Rabs_Ropp.
  apply Rabs_right. lra.
Qed.

Lemma rigid_within : within_margin 0.001 two_fixed rigid_bar (0%nat, 1%nat).
Proof.
  exists (0, 0), (3, 4), 5. split; [reflexivity|]. split; [reflexivity|].
  split; [apply joint_distance_two; lra|]. rewrite distance_3_4. exact Rabs_5_5.
Qed.

Lemma stretched_outside : outside_margin 0.001 two_fixed stretched_bar (0%nat, 1%nat).
Proof.
  exists (0, 0), (3, 4), 6. split; [reflexivity|]. split; [reflexivity|].
  split; [apply joint_distance_two; lra|]. rewrite distance_3_4.
  replace (6 - 5) with 1 by ring. rewrite Rabs_R1. lra.
Qed.

Lemma rigid_compiled : compiled_function elements rigid_linkage two_fixed = Ok [].
Proof. vm_compute. reflexivity. Qed.

Lemma stretched_compiled : compiled_function elements stretched_linkage two_fixed = Ok [].
Proof. vm_compute. reflexivity. Qed.

Lemma fresh_cache_miss (self : Linkage.t) (ct : Z) :
  cache self = Some ∅ -> cache_entry self ct = None.
Proof. intros H. unfold cache_entry. rewrite H. apply lookup_empty. Qed.

(** The rigid linkage simulates at time 0. *)
Lemma rigid_simulates :
  exists self', simulate_to_time elements rigid_linkage 0 two_fixed = (Ok tt, (self', two_fixed)).
Proof.
  destruct (simulate_to_time_miss elements rigid_linkage 0 two_fixed) as [_ H].
  - lra.
  - apply fresh_cache_miss. reflexivity.
  - destruct (H [] rigid_compiled) as [_ H1].
    destruct (H1 two_fixed eq_refl) as [_ H2].
    eexists. apply H2. apply check_bars_ok.
    repeat constructor. exact rigid_within.
Qed.

Lemma plain_two (lbl : string) (len : R) :
  0 <= len -> plain_bar (Bar.mk lbl [0%nat; 1%nat] [len]).
Proof.
  intros Hlen. split; [reflexivity|]. split.
  - apply NoDup_cons. split; [|apply NoDup_singleton].
    intros H. apply list_elem_of_singleton in H. discriminate H.
  - constructor; [exact Hlen | constructor].
Qed.



(** The stretched linkage raises the distance error at time 0. *)
Lemma stretched_raises :
  exists dist,
    simulate_to_time elements stretched_linkage 0 two_fixed
    = (Raise (InvalidLinkageError (DistanceConstraint dist "stretched" 0%nat 1%nat)),
       (with_function stretched_linkage [], two_fixed)).
Proof.
  destruct (simulate_to_time_miss elements stretched_linkage 0 two_fixed) as [_ H].
  - lra.
  - apply fresh_cache_miss. reflexivity.
  - destruct (H [] stretched_compiled) as [_ H1].
    destruct (H1 two_fixed eq_refl) as [H2 _].
    destruct (check_pair_outside _ _ _ _ stretched_outside) as (dist & _ & Hr).
    exists dist. apply H2.
    change (check_bars validity_margin two_fixed (bars stretched_linkage))
      with (rbind (rbind (check_pair 0.001 two_fixed stretched_bar (0%nat, 1%nat))
                         (fun _ => Ok tt))
                  (fun _ => Ok tt)).
    rewrite Hr. reflexivity.
Qed.

Lemma C9_no_entry_on_failure_witness :
  cache_entry (with_function stretched_linkage [])
              (cache_time (with_function stretched_linkage []) 0)
  = None.
Proof.
  destruct stretched_raises as [dist Hsim].
  assert (Ht : 0 <= 0 <= 1) by lra.
  exact (proj1 (proj2 (C9_no_entry_on_failure elements stretched_linkage 0 two_fixed
                         _ _ _ Ht
                         (fresh_cache_miss stretched_linkage _ eq_refl) Hsim))).
Defined.

End SimulationExamples.

(* ------------------------------------------------------------------------- *)
(** ** linkage.py: the position cache *)

Section CacheFacts.

Import Geometry Linkage.

Variable set_order : gset joint_id -> list joint_id.

Lemma joint_eta (j : Joint.t) :
  Joint.mk (Joint.label j) (Joint.location j) (Joint.fixed j) (Joint.chooser j) = j.
Proof. destruct j; reflexivity. Qed.

Lemma agrees_ext (h h' : heap) (entry : joint_id * option point) :
  (forall j, h' !!! j = h !!! j) -> agrees h entry -> agrees h' entry.
Proof. intros Hv [H1 H2]. unfold agrees. rewrite Hv. auto. Qed.

(** Restoring entries that agree with the store changes no joint. *)
Lemma restore_agreeing (entries : list (joint_id * option point)) :
  forall h : heap,
    Forall (agrees h) entries ->
    exists h', restore entries h = (Ok tt, h') /\ forall j, h' !!! j = h !!! j.
Proof.
  induction entries as [|[j loc] rest IH]; intros h Hall; cbn [restore].
  - exists h. auto.
  - apply Forall_cons in Hall as [[Hfree Hloc] Hrest]. cbn [fst snd] in *.
    unfold Joint.set_location, Joint.setattr_location. rewrite Hfree.
    assert (Hview : forall k,
              <[j := Joint.mk (Joint.label (h !!! j)) loc false
                             (Joint.chooser (h !!! j))]> h !!! k = h !!! k).
    { intros k. destruct (decide (j = k)) as [->|Hne].
      - rewrite lookup_total_insert_eq. rewrite <- Hloc, <- Hfree. apply joint_eta.
      - rewrite lookup_total_insert_ne by exact Hne. reflexivity. }
    destruct (IH _ (Forall_impl _ _ _ Hrest (fun e => agrees_ext _ _ e Hview)))
      as (h' & Hr & Hv).
    exists h'. split; [exact Hr|]. intros k. rewrite Hv. apply Hview.
Qed.

(** After a restore that succeeded, every entry agrees with the store. *)
Lemma restore_establishes (entries : list (joint_id * option point)) :
  forall h h' : heap,
    NoDup (entries.*1) ->
    restore entries h = (Ok tt, h') ->
    Forall (agrees h') entries /\
    (forall j, j ∉ entries.*1 -> h' !!! j = h !!! j) /\
    (forall j, Joint.fixed (h' !!! j) = Joint.fixed (h !!! j)).
Proof.
  induction entries as [|[j loc] rest IH]; intros h h' Hnd Hr; cbn [restore] in Hr.
  - injection Hr as <-. repeat split; auto.
  - cbn [fmap list_fmap fst] in Hnd. apply NoDup_cons in Hnd as [Hj Hnd].
    unfold Joint.set_location, Joint.setattr_location in Hr.
    destruct (Joint.fixed (h !!! j)) eqn:Hfree; [discriminate Hr|].
    destruct (IH _ _ Hnd Hr) as (Hall & Hout & Hfix).
    assert (Hj' : h' !!! j = Joint.mk (Joint.label (h !!! j)) loc false
                                     (Joint.chooser (h !!! j))).
    { rewrite (Hout j Hj). apply lookup_total_insert_eq. }
    repeat split.
    + apply Forall_cons. split; [|exact Hall].
      unfold agrees. cbn [fst snd]. rewrite Hj'. auto.
    + intros k Hk. cbn [fmap list_fmap fst] in Hk.
      apply not_elem_of_cons in Hk as [Hne Hk].
      rewrite (Hout k Hk). apply lookup_total_insert_ne. congruence.
    + intros k. rewrite Hfix. destruct (decide (j = k)) as [->|Hne].
      * rewrite lookup_total_insert_eq. cbn. auto.
      * rewrite lookup_total_insert_ne by exact Hne. reflexivity.
Qed.

(** The snapshot taken after a run holds the free joints at their
    locations. *)
Lemma cache_state_agrees (self : Linkage.t) (h : heap) :
  Forall (agrees h) (map_to_list (cache_state self h)).
Proof.
  unfold cache_state.
  assert (G : forall (l : list joint_id) (m : snapshot),
            Forall (fun j => Joint.fixed (h !!! j) = false) l ->
            (forall j loc, m !! j = Some loc -> agrees h (j, loc)) ->
            forall j loc,
              fold_left (fun (m : snapshot) joint =>
                           <[joint := Joint.location (h !!! joint)]> m) l m !! j
              = Some loc -> agrees h (j, loc)).
  { induction l as [|x l IH]; intros m Hl Hm j loc; cbn [fold_left]; [apply Hm|].
    apply Forall_cons in Hl as [Hx Hl]. apply IH; [exact Hl|].
    intros k lk. destruct (decide (x = k)) as [->|Hne].
    - rewrite lookup_insert_eq. intros [= <-]. split; [exact Hx | reflexivity].
    - rewrite lookup_insert_ne by exact Hne. apply Hm. }
  apply Forall_forall. intros [j loc] Hin. apply elem_of_map_to_list in Hin.
  revert Hin. apply G.
  - apply Forall_forall. intros k Hk. apply list_elem_of_filter in Hk as [Hk _]. exact Hk.
  - intros k lk Hk. rewrite lookup_empty in Hk. discriminate Hk.
Qed.

(** A call that finds its bucket in the cache restores the entry. *)
Lemma simulate_to_time_hit (self : Linkage.t) (time : R) (h : heap) (entry : snapshot) :
  0 <= time <= 1 ->
  cache_entry self (cache_time self time) = Some entry ->
  simulate_to_time set_order self time h
  = (fst (restore (map_to_list entry) h), (self, snd (restore (map_to_list entry) h))).
Proof.
  intros Ht Hhit. unfold simulate_to_time.
  rewrite bool_decide_eq_true_2 by exact Ht. cbn [negb]. rewrite Hhit.
  destruct (restore (map_to_list entry) h). reflexivity.
Qed.

(** Caching is idempotent: after a call that returned, a call for a time of
    the same bucket returns as well, leaves the linkage object as it is and
    leaves every joint as the first call left it. *)
Lemma simulate_to_time_same_bucket (self : Linkage.t) (t1 t2 : R) (h : heap)
    (self1 : Linkage.t) (h1 : heap) :
  simulate_to_time set_order self t1 h = (Ok tt, (self1, h1)) ->
  0 <= t2 <= 1 ->
  cache_time self t2 = cache_time self t1 ->
  exists h2,
    simulate_to_time set_order self1 t2 h1 = (Ok tt, (self1, h2)) /\
    forall j, h2 !!! j = h1 !!! j.
Proof.
  intros Hsim Ht2 Hbucket.
  assert (Ht1 : 0 <= t1 <= 1).
  { destruct (decide (0 <= t1 <= 1)) as [H|H]; [exact H|].
    unfold simulate_to_time in Hsim.
    rewrite bool_decide_eq_false_2 in Hsim by exact H. discriminate Hsim. }
  assert (Hentry : exists entry,
            cache_entry self1 (cache_time self1 t2) = Some entry /\
            Forall (agrees h1) (map_to_list entry)).
  { destruct (cache_entry self (cache_time self t1)) as [entry|] eqn:Hc.
    - rewrite (simulate_to_time_hit self t1 h entry Ht1 Hc) in Hsim.
      destruct (restore (map_to_list entry) h) as [r h'] eqn:Hr.
      cbn [fst snd] in Hsim. injection Hsim as -> <- <-.
      exists entry. rewrite Hbucket. split; [exact Hc|].
      apply (restore_establishes _ h h'); [|exact Hr].
      apply NoDup_fst_map_to_list.
    - destruct (simulate_to_time_miss set_order self t1 h Ht1 Hc) as [Hraise Hok].
      destruct (compiled_function set_order self h) as [fl|e] eqn:Hcf.
      2:{ rewrite (Hraise e eq_refl) in Hsim. discriminate Hsim. }
      destruct (Hok fl eq_refl) as [Hsteps Hdone].
      destruct (run_steps fl t1 h) as [[[]|e] h'] eqn:Hrun.
      2:{ rewrite (Hsteps e h' eq_refl) in Hsim. discriminate Hsim. }
      destruct (Hdone h' eq_refl) as [Hbad Hgood].
      destruct (check_bars validity_margin h' (bars self)) as [[]|e] eqn:Hchk.
      2:{ rewrite (Hbad e eq_refl) in Hsim. discriminate Hsim. }
      rewrite (Hgood eq_refl) in Hsim. injection Hsim as <- <-.
      exists (cache_state (with_function self fl) h'). split.
      + unfold cache_entry. cbn [cache set_cache].
        change (cache_time (set_cache _ _) t2) with (cache_time self t2).
        rewrite Hbucket. apply lookup_insert_eq.
      + apply cache_state_agrees. }
  destruct Hentry as (entry & Hhit & Hagree).
  destruct (restore_agreeing _ h1 Hagree) as (h2 & Hr & Hv).
  exists h2. rewrite (simulate_to_time_hit self1 t2 h1 entry Ht2 Hhit), Hr.
  split; [reflexivity | exact Hv].
Qed.

End CacheFacts.

(* ------------------------------------------------------------------------- *)
(** ** Recomputation on a bar with four joints *)

Section RecomputationExample.

Import Geometry Linkage Examples.

(** [line_extension] towards the right: the direction of the angle is the
    unit vector from the first endpoint to the second. *)
Lemma sqrt_eval (a b : R) : 0 <= b -> b * b = a -> sqrt a = b.
Proof. intros Hb <-. apply sqrt_square. exact Hb. Qed.

Lemma atan2_right (y x : R) : 0 < x -> atan2 y x = atan (y / x).
Proof. intros Hx. unfold atan2. destruct (Rlt_dec 0 x); [reflexivity | lra]. Qed.

Lemma line_extension_right (p1 p2 : point) (L len : R) :
  fst p1 < fst p2 -> 0 < len ->
  len * len = (fst p2 - fst p1) * (fst p2 - fst p1) + (snd p2 - snd p1) * (snd p2 - snd p1) ->
  line_extension p1 p2 L
  = (fst p2 + L * ((fst p2 - fst p1) / len), snd p2 + L * ((snd p2 - snd p1) / len)).
Proof.
  intros Hx Hlen Hsq. unfold line_extension, line_angle.
  set (dx := fst p2 - fst p1) in *. set (dy := snd p2 - snd p1) in *.
  assert (Hdx : 0 < dx) by (unfold dx; lra).
  rewrite atan2_right by exact Hdx. rewrite cos_atan, sin_atan.
  assert (Hs : sqrt (1 + (dy / dx)²) = len / dx).
  { apply sqrt_eval.
    - apply Rlt_le, Rdiv_lt_0_compat; assumption.
    - unfold Rsqr. field_simplify_eq; [|lra]. lra. }
  rewrite Hs. f_equal; f_equal; f_equal; field; lra.
Qed.

Lemma distance_eval (p q : point) (d : R) :
  0 <= d ->
  d * d = (fst p - fst q) * (fst p - fst q) + (snd p - snd q) * (snd p - snd q) ->
  distance p q = d.
Proof.
  intros Hd Hsq. unfold distance. apply sqrt_eval; [exact Hd|]. rewrite Hsq. ring.
Qed.

(** The two extensions of the first run, and the extension of D in the
    second. *)
Lemma extend_D_first : line_extension (0, 0) (4 / 5, 3 / 5) (0 + 3 + 1 + 3 - (0 + 3)) = (4, 3).
Proof.
  rewrite (line_extension_right _ _ _ 1); cbn [fst snd]; try lra.
  f_equal; field.
Qed.

Lemma extend_B : line_extension (0, 0) (4, 0) (0 + 3 - (0 + 3 + 1)) = (3, 0).
Proof.
  rewrite (line_extension_right _ _ _ 4); cbn [fst snd]; try lra.
  f_equal; field.
Qed.

Lemma extend_D_second : line_extension (0, 0) (3, 0) (0 + 3 + 1 + 3 - (0 + 3)) = (7, 0).
Proof.
  rewrite (line_extension_right _ _ _ 3); cbn [fst snd]; try lra.
  f_equal; field.
Qed.

(** One run of an extension solver whose reads succeed. *)
Lemma run_extension_eval (joint j0 j1 : joint_id) (bar : Bar.t)
    (joints : list joint_id) (h : heap) (p0 p1 : point) (d d1 : R) :
  joints !! 0%nat = Some j0 -> joints !! 1%nat = Some j1 ->
  Joint.location (h !!! j0) = Some p0 -> Joint.location (h !!! j1) = Some p1 ->
  Bar.origin_distance bar joint = Ok d -> Bar.origin_distance bar j1 = Ok d1 ->
  Joint.fixed (h !!! joint) = false ->
  run_extension joint bar joints h
  = Ok (<[joint := Joint.mk (Joint.label (h !!! joint))
                            (Some (line_extension p0 p1 (d - d1))) false
                            (Joint.chooser (h !!! joint))]> h).
Proof.
  intros H0 H1 Hp0 Hp1 Hd Hd1 Hfree. unfold run_extension, list_index, the_point.
  rewrite H0. rstep. rewrite H1. rstep. rewrite Hd. rstep. rewrite Hd1. rstep.
  rewrite Hp0, Hp1. rstep.
  unfold Joint.set_location, Joint.setattr_location. rewrite Hfree. reflexivity.
Qed.

(** The rod compiles to [rod_steps] whatever the locations of B and D. *)
Lemma rod_compiled (b d : option point) (c : option (gmap Z snapshot)) :
  compiled_function descending
    (Linkage.mk [rod] [0%nat; 1%nat; 2%nat; 3%nat] [] c 10000 None) (rod_state b d)
  = Ok rod_steps.
Proof. vm_compute. reflexivity. Qed.

(** The pipeline on the rod: D is extended from A through the location that
    B has before the run, then B is extended from A through C. *)
Lemma rod_run (time : R) (b : point) (d : option point) :
  run_steps rod_steps time (rod_state (Some b) d)
  = (Ok tt,
     rod_state (Some (line_extension (0, 0) (4, 0) (0 + 3 - (0 + 3 + 1))))
               (Some (line_extension (0, 0) b (0 + 3 + 1 + 3 - (0 + 3))))).
Proof.
  unfold rod_steps. cbn [run_steps run_step].
  rewrite (run_extension_eval 3%nat 0%nat 1%nat rod _ _ (0, 0) b (0 + 3 + 1 + 3) (0 + 3))
    by reflexivity.
  rewrite (run_extension_eval 1%nat 0%nat 2%nat rod _ _ (0, 0) (4, 0) (0 + 3) (0 + 3 + 1))
    by reflexivity.
  reflexivity.
Qed.

Lemma within_margin_exact (h : heap) (bar : Bar.t) (pair : joint_id * joint_id)
    (p1 p2 : point) (x y len : R) :
  Joint.location (h !!! pair.1) = Some p1 ->
  Joint.location (h !!! pair.2) = Some p2 ->
  Bar.joint_distance bar pair.1 pair.2 = Ok (Rabs (x - y)) ->
  x - y = - len -> 0 <= len ->
  len * len = (fst p1 - fst p2) * (fst p1 - fst p2) + (snd p1 - snd p2) * (snd p1 - snd p2) ->
  within_margin 0.001 h bar pair.
Proof.
  intros H1 H2 Hd Hxy Hlen Hsq. exists p1, p2, (Rabs (x - y)).
  repeat split; try assumption.
  rewrite (distance_eval _ _ len Hlen Hsq), Hxy, Rabs_Ropp, (Rabs_right len) by lra.
  replace (len - len) with 0 by ring. rewrite Rabs_R0. lra.
Qed.

(** The validity check accepts the rod with B at (3,0) and D anywhere at
    distance 3 from C: it measures the three segments, not the alignment. *)
Lemma rod_check (dpt : point) :
  3 * 3 = (4 - fst dpt) * (4 - fst dpt) + (0 - snd dpt) * (0 - snd dpt) ->
  check_bars validity_margin (rod_state (Some (3, 0)) (Some dpt)) [rod] = Ok tt.
Proof.
  intros Hd. apply check_bars_ok. repeat constructor.
  - apply (within_margin_exact _ rod (0%nat, 1%nat) (0, 0) (3, 0) 0 (0 + 3) 3);
      try reflexivity; cbn [fst snd]; lra.
  - apply (within_margin_exact _ rod (1%nat, 2%nat) (3, 0) (4, 0) (0 + 3) (0 + 3 + 1) 1);
      try reflexivity; cbn [fst snd]; lra.
  - apply (within_margin_exact _ rod (2%nat, 3%nat) (4, 0) dpt (0 + 3 + 1) (0 + 3 + 1 + 3) 3);
      try reflexivity; cbn [fst snd]; lra.
Qed.

(** A run on the rod from a state in which B has a location: it returns,
    with B at (3,0) and D where the extension from A through the old B puts
    it, provided that point is at distance 3 from C. *)
Lemma rod_simulate_miss (self : Linkage.t) (b dpt : point) (d : option point) :
  bars self = [rod] -> joints self = [0%nat; 1%nat; 2%nat; 3%nat] ->
  drivers self = [] -> simulation_function self = None ->
  cache_entry self (cache_time self 0) = None ->
  line_extension (0, 0) b (0 + 3 + 1 + 3 - (0 + 3)) = dpt ->
  3 * 3 = (4 - fst dpt) * (4 - fst dpt) + (0 - snd dpt) * (0 - snd dpt) ->
  exists self',
    simulate_to_time descending self 0 (rod_state (Some b) d)
    = (Ok tt, (self', rod_state (Some (3, 0)) (Some dpt))) /\
    self' = set_cache (with_function self rod_steps)
              (Some (<[cache_time self 0 :=
                         cache_state (with_function self rod_steps)
                                     (rod_state (Some (3, 0)) (Some dpt))]>
                       (match cache self with Some c => c | None => ∅ end))).
Proof.
  intros Hb Hj Hd Hf Hmiss Hext Hdist.
  destruct (simulate_to_time_miss descending self 0 (rod_state (Some b) d)) as [_ H];
    [lra | exact Hmiss |].
  assert (Hc : compiled_function descending self (rod_state (Some b) d) = Ok rod_steps).
  { destruct self as [bs js ds c acc f]. cbn in Hb, Hj, Hd, Hf. subst bs js ds f.
    exact (rod_compiled (Some b) d c). }
  destruct (H rod_steps Hc) as [_ H1].
  pose proof (rod_run 0 b d) as Hrun. rewrite extend_B, Hext in Hrun.
  destruct (H1 _ Hrun) as [_ H2].
  eexists. split; [|reflexivity]. apply H2. rewrite Hb. apply rod_check. exact Hdist.
Qed.

(** C3 (recomputation): on the rod, with sets of joints iterated from the
    highest index down, the first call at time 0 returns with D at (4,3); a
    second call for the same bucket returns from the cache with every joint
    where it was; after [invalidate_caches] the third call returns with D at
    (7,0).  The solver of D reads B, which the pipeline solves after D: the
    first run reads the location B was created with, the recomputation reads
    the location the first run gave to B. *)
Theorem C3_recomputation_differs :
  exists self1 self3 : Linkage.t,
    let h1 := rod_state (Some (3, 0)) (Some (4, 3)) in
    let h3 := rod_state (Some (3, 0)) (Some (7, 0)) in
    simulate_to_time descending rod_linkage 0 rod_joints = (Ok tt, (self1, h1)) /\
    simulate_to_time descending self1 0 h1 = (Ok tt, (self1, h1)) /\
    simulate_to_time descending (invalidate_caches self1) 0 h1 = (Ok tt, (self3, h3)) /\
    Joint.location (h1 !!! 3%nat) = Some (4, 3) /\
    Joint.location (h3 !!! 3%nat) = Some (7, 0) /\
    (4, 3) <> (7, 0).
Proof.
  destruct (rod_simulate_miss rod_linkage (4 / 5, 3 / 5) (4, 3) None)
    as (self1 & Hsim1 & Hself1); try reflexivity.
  { exact extend_D_first. }
  { cbn [fst snd]. lra. }
  destruct (rod_simulate_miss (invalidate_caches self1) (3, 0) (7, 0) (Some (4, 3)))
    as (self3 & Hsim3 & _); try (rewrite Hself1; reflexivity).
  { exact extend_D_second. }
  { cbn [fst snd]. lra. }
  exists self1, self3. cbv zeta.
  split; [exact Hsim1|]. split; [|split; [exact Hsim3|]].
  - rewrite (simulate_to_time_hit descending self1 0 _
               (cache_state (with_function rod_linkage rod_steps)
                            (rod_state (Some (3, 0)) (Some (4, 3))))).
    + reflexivity.
    + lra.
    + rewrite Hself1. unfold cache_entry. cbn [cache set_cache].
      apply lookup_insert_eq.
  - split; [reflexivity|]. split; [reflexivity|].
    intros H. injection H as H _. lra.
Qed.

End RecomputationExample.

(* ------------------------------------------------------------------------- *)
(** ** linkage.py: [copy] and the list [shared_joints] *)

Section CopyFacts.

Import Linkage.

Variable set_order : gset joint_id -> list joint_id.
Variable driver_order : gset nat -> list nat.

(** What [copy] leaves in the list store, whether it returns or raises. *)
Lemma copy_list_store (self : Linkage.t) (shared_joints : option nat)
    (shared_drivers : list Driver.t) (joint_indic : string) (w : world) :
  list_store (snd (copy set_order driver_order self shared_joints shared_drivers
                        joint_indic w))
  = <[match shared_joints with Some r => r | None => default_shared_joints end :=
        (list_store w !!! match shared_joints with
                          | Some r => r
                          | None => default_shared_joints
                          end)
        ++ map Driver.attachment_joint shared_drivers]> (list_store w).
Proof.
  unfold copy.
  destruct (clone_drivers _ _ _ _) as [[new_drivers|e] oid]; reflexivity.
Qed.

(** C10: [copy] extends in place the list object it receives as
    [shared_joints] with the attachment joint of every shared driver, in
    their order, and changes no other list; when the argument is omitted the
    list extended is the default object of the method, which therefore
    holds, after two such calls on any two linkages, what both calls
    appended. *)
Theorem C10_copy_extends_shared_joints (self : Linkage.t)
    (shared_joints : option nat) (shared_drivers : list Driver.t)
    (joint_indic : string) (w : world) :
  let ref := match shared_joints with
             | Some r => r
             | None => default_shared_joints
             end in
  let w' := snd (copy set_order driver_order self shared_joints shared_drivers
                      joint_indic w) in
  list_store w' !!! ref
  = (list_store w !!! ref) ++ map Driver.attachment_joint shared_drivers /\
  (forall r, r <> ref -> list_store w' !!! r = list_store w !!! r) /\
  (forall (self1 self2 : Linkage.t) (drivers1 drivers2 : list Driver.t)
          (indic1 indic2 : string),
     let w1 := snd (copy set_order driver_order self1 None drivers1 indic1 w) in
     let w2 := snd (copy set_order driver_order self2 None drivers2 indic2 w1) in
     list_store w2 !!! default_shared_joints
     = ((list_store w !!! default_shared_joints)
        ++ map Driver.attachment_joint drivers1)
       ++ map Driver.attachment_joint drivers2).
Proof.
  intros ref w'. subst w'. repeat split.
  - rewrite copy_list_store. apply lookup_total_insert_eq.
  - intros r Hr. rewrite copy_list_store. apply lookup_total_insert_ne.
    intros E. apply Hr. symmetry. exact E.
  - intros self1 self2 drivers1 drivers2 indic1 indic2 w1 w2. subst w1 w2.
    rewrite !copy_list_store, !lookup_total_insert_eq. reflexivity.
Qed.

End CopyFacts.

Lemma C10_copy_extends_shared_joints_witness :
  Linkage.list_store (snd (Linkage.copy elements elements Examples.rod_linkage None
                     [Examples.crank] "" (Linkage.mk_world Examples.rod_joints ∅ 5)))
  !!! Linkage.default_shared_joints
  = [3%nat].
Proof.
  exact (proj1 (C10_copy_extends_shared_joints elements elements Examples.rod_linkage
                  None [Examples.crank] "" (Linkage.mk_world Examples.rod_joints ∅ 5))).
Defined.

(* ========================================================================= *)
(** * Further properties of the code *)

(* ------------------------------------------------------------------------- *)
(** ** joint.py *)

Section MoreJointFacts.

Import Geometry.

(** X5: the two ways of writing a joint's location exclude each other.  On
    a joint that is not fixed the guarded assignment stores the value and
    [reset_fixed_location] raises [ValueError]; on a fixed joint the guarded
    assignment raises [AttributeError] and [reset_fixed_location] stores the
    value.  Whichever succeeds changes the location only. *)
Theorem location_writers_exclusive (j : Joint.t) (val : option point) :
  let written := Joint.mk (Joint.label j) val (Joint.fixed j) (Joint.chooser j) in
  (Joint.fixed j = false /\
   Joint.setattr_location j val = Ok written /\
   Joint.reset_fixed_location j val = Raise ValueError) \/
  (Joint.fixed j = true /\
   Joint.setattr_location j val = Raise AttributeError /\
   Joint.reset_fixed_location j val = Ok written).
Proof.
  unfold Joint.setattr_location, Joint.reset_fixed_location. cbv zeta.
  destruct (Joint.fixed j); [right | left]; auto.
Qed.

(** X6: each of the four choosers returns one of its two candidates, the
    one with the extreme coordinate it is named after; when the two
    candidates tie on that coordinate every chooser returns the second
    candidate, so opposite choosers then agree. *)
Theorem choosers_pick_extreme (point1 point2 : point) :
  (Joint.greater_x point1 point2 = point1 \/ Joint.greater_x point1 point2 = point2) /\
  (Joint.lesser_x point1 point2 = point1 \/ Joint.lesser_x point1 point2 = point2) /\
  (Joint.greater_y point1 point2 = point1 \/ Joint.greater_y point1 point2 = point2) /\
  (Joint.lesser_y point1 point2 = point1 \/ Joint.lesser_y point1 point2 = point2) /\
  fst (Joint.greater_x point1 point2) = Rmax (fst point1) (fst point2) /\
  fst (Joint.lesser_x point1 point2) = Rmin (fst point1) (fst point2) /\
  snd (Joint.greater_y point1 point2) = Rmax (snd point1) (snd point2) /\
  snd (Joint.lesser_y point1 point2) = Rmin (snd point1) (snd point2) /\
  (fst point1 = fst point2 ->
   Joint.greater_x point1 point2 = point2 /\ Joint.lesser_x point1 point2 = point2) /\
  (snd point1 = snd point2 ->
   Joint.greater_y point1 point2 = point2 /\ Joint.lesser_y point1 point2 = point2) /\
  (fst point1 <> fst point2 ->
   Joint.greater_x point1 point2 <> Joint.lesser_x point1 point2).
Proof.
  unfold Joint.greater_x, Joint.lesser_x, Joint.greater_y, Joint.lesser_y, Rmax, Rmin.
  repeat split;
    try (intros Heq);
    repeat match goal with
           | |- context [Rlt_dec ?a ?b] => destruct (Rlt_dec a b)
           | |- context [Rle_dec ?a ?b] => destruct (Rle_dec a b)
           end;
    try lra; auto; try (intros E; rewrite E in *; lra).
Qed.

End MoreJointFacts.

(* ------------------------------------------------------------------------- *)
(** ** bar.py *)

Section MoreBarFacts.

Lemma index_of_Some (joint : joint_id) (l : list joint_id) (i : nat) :
  Bar.index_of joint l = Some i ->
  l !! i = Some joint /\ forall k, (k < i)%nat -> l !! k <> Some joint.
Proof.
  revert i. induction l as [|x l IH]; intros i H; cbn in H; [discriminate|].
  destruct (decide (joint = x)) as [->|Hne].
  - injection H as <-. split; [reflexivity | intros k Hk; lia].
  - destruct (Bar.index_of joint l) as [i'|] eqn:Hi; [|discriminate].
    cbn in H. injection H as <-. destruct (IH i' eq_refl) as [H1 H2].
    split; [exact H1|]. intros [|k] Hk; cbn.
    + congruence.
    + apply H2. lia.
Qed.

Lemma index_of_None (joint : joint_id) (l : list joint_id) :
  Bar.index_of joint l = None <-> joint ∉ l.
Proof.
  induction l as [|x l IH]; cbn.
  - split; [intros _; apply not_elem_of_nil | reflexivity].
  - destruct (decide (joint = x)) as [->|Hne].
    + split; [discriminate|]. intros H. destruct H. apply list_elem_of_here.
    + rewrite not_elem_of_cons, <- IH.
      destruct (Bar.index_of joint l); cbn; split; try discriminate; auto.
      intros [_ H]. discriminate H.
Qed.

Lemma index_of_elem (joint : joint_id) (l : list joint_id) :
  joint ∈ l -> exists i, Bar.index_of joint l = Some i.
Proof.
  intros Hin. destruct (Bar.index_of joint l) as [i|] eqn:H; [eauto|].
  apply index_of_None in H. contradiction.
Qed.

Lemma index_of_NoDup (joint : joint_id) (l : list joint_id) (i : nat) :
  NoDup l -> l !! i = Some joint -> Bar.index_of joint l = Some i.
Proof.
  intros Hnd Hi. destruct (index_of_elem joint l) as [k Hk].
  { eapply list_elem_of_lookup_2. exact Hi. }
  rewrite Hk. f_equal. destruct (index_of_Some _ _ _ Hk) as [Hk' _].
  exact (NoDup_lookup _ _ _ _ Hnd Hk' Hi).
Qed.

(** What [Bar.__init__] has checked when it returns. *)
Lemma init_Ok (lbl : string) (js : list joint_id) (segs : list R) (bar : Bar.t) :
  Bar.init lbl js segs = Ok bar ->
  bar = Bar.mk lbl js segs /\ (2 <= length js)%nat /\
  length segs = (length js - 1)%nat.
Proof.
  unfold Bar.init. destruct (2 <=? length js)%nat eqn:H2; [|discriminate].
  destruct (length segs =? length js - 1)%nat eqn:Hl; [|discriminate].
  cbn. intros [= <-]. apply Nat.leb_le in H2. apply Nat.eqb_eq in Hl. auto.
Qed.

(** X7: on a bar that its constructor accepted, [origin_distance] raises
    only for a joint that is not on the bar, and then [ValueError]; for a
    joint of the bar it returns the sum of the segment lengths that come
    before the first chain position holding the joint.  The index into
    [segment_lengths] never leaves the list. *)
Theorem origin_distance_constructed (lbl : string) (js : list joint_id)
    (segs : list R) (bar : Bar.t) :
  Bar.init lbl js segs = Ok bar ->
  forall joint,
    Bar.origin_distance bar joint
    = match Bar.index_of joint js with
      | Some i => Ok (Bar.prefix_sum segs i)
      | None => Raise ValueError
      end.
Proof.
  intros Hinit joint. destruct (init_Ok _ _ _ _ Hinit) as (-> & H2 & Hlen).
  destruct (Bar.index_of joint js) as [i|] eqn:Hi.
  - destruct (index_of_Some _ _ _ Hi) as [Hk Hfirst].
    apply origin_distance_first; cbn [Bar.joints Bar.segment_lengths]; auto.
    apply lookup_lt_Some in Hk. lia.
  - apply index_of_None in Hi. unfold Bar.origin_distance. cbn [Bar.joints].
    rewrite bool_decide_eq_false_2 by exact Hi. reflexivity.
Qed.

Lemma origin_distance_constructed_witness :
  Bar.origin_distance Examples.main_bar 4%nat
  = match Bar.index_of 4%nat [2%nat; 3%nat; 4%nat] with
    | Some i => Ok (Bar.prefix_sum [6; 5] i)
    | None => Raise ValueError
    end.
Proof.
  apply (origin_distance_constructed "main" [2%nat; 3%nat; 4%nat] [6; 5]).
  reflexivity.
Defined.

Lemma origin_distance_on_bar (lbl : string) (js : list joint_id) (segs : list R)
    (bar : Bar.t) (a : joint_id) :
  Bar.init lbl js segs = Ok bar -> a ∈ js ->
  exists i, Bar.index_of a js = Some i /\
            Bar.origin_distance bar a = Ok (Bar.prefix_sum segs i).
Proof.
  intros Hinit Ha. destruct (index_of_elem a js Ha) as [i Hi]. exists i.
  split; [exact Hi|]. rewrite (origin_distance_constructed _ _ _ _ Hinit), Hi.
  reflexivity.
Qed.

(** X8: on a constructed bar, [joint_distance] returns for two joints of
    the bar, with the same value in both orders, never a negative one, and 0
    from a joint to itself; it raises [ValueError] when one of the two
    joints is not on the bar. *)
Theorem joint_distance_symmetric (lbl : string) (js : list joint_id)
    (segs : list R) (bar : Bar.t) (a b : joint_id) :
  Bar.init lbl js segs = Ok bar ->
  (a ∈ js -> b ∈ js ->
   exists d,
     Bar.joint_distance bar a b = Ok d /\
     Bar.joint_distance bar b a = Ok d /\ 0 <= d) /\
  (a ∈ js -> Bar.joint_distance bar a a = Ok 0) /\
  ((a ∉ js) \/ (b ∉ js) -> Bar.joint_distance bar a b = Raise ValueError).
Proof.
  intros Hinit.
  assert (Hoff : forall x, x ∉ js -> Bar.origin_distance bar x = Raise ValueError).
  { intros x Hx. destruct (init_Ok _ _ _ _ Hinit) as (-> & _ & _).
    unfold Bar.origin_distance. cbn [Bar.joints].
    rewrite bool_decide_eq_false_2 by exact Hx. reflexivity. }
  split; [|split].
  - intros Ha Hb.
    destruct (origin_distance_on_bar _ _ _ _ a Hinit Ha) as (ia & _ & Hoa).
    destruct (origin_distance_on_bar _ _ _ _ b Hinit Hb) as (ib & _ & Hob).
    unfold Bar.joint_distance. rewrite Hoa, Hob. rstep.
    eexists. split; [reflexivity|]. split; [|apply Rabs_pos].
    f_equal. apply Rabs_minus_sym.
  - intros Ha.
    destruct (origin_distance_on_bar _ _ _ _ a Hinit Ha) as (ia & _ & Hoa).
    unfold Bar.joint_distance. rewrite Hoa. rstep. f_equal.
    replace (Bar.prefix_sum segs ia - Bar.prefix_sum segs ia) with 0 by ring.
    apply Rabs_R0.
  - intros Hout. unfold Bar.joint_distance.
    destruct (decide (a ∈ js)) as [Ha|Ha].
    + destruct (origin_distance_on_bar _ _ _ _ a Hinit Ha) as (ia & _ & Hoa).
      rewrite Hoa. rstep. destruct Hout as [Hn|Hn]; [contradiction|].
      rewrite (Hoff b Hn). reflexivity.
    + rewrite (Hoff a Ha). reflexivity.
Qed.

Lemma joint_distance_symmetric_witness :
  (2%nat ∈ [2%nat; 3%nat; 4%nat] -> 4%nat ∈ [2%nat; 3%nat; 4%nat] ->
   exists d,
     Bar.joint_distance Examples.main_bar 2%nat 4%nat = Ok d /\
     Bar.joint_distance Examples.main_bar 4%nat 2%nat = Ok d /\ 0 <= d) /\
  (2%nat ∈ [2%nat; 3%nat; 4%nat] ->
   Bar.joint_distance Examples.main_bar 2%nat 2%nat = Ok 0) /\
  ((2%nat ∉ [2%nat; 3%nat; 4%nat]) \/ (4%nat ∉ [2%nat; 3%nat; 4%nat]) ->
   Bar.joint_distance Examples.main_bar 2%nat 4%nat = Raise ValueError).
Proof.
  apply (joint_distance_symmetric "main" [2%nat; 3%nat; 4%nat] [6; 5]).
  reflexivity.
Defined.

(** X10: on a constructed bar without repeated joint, [neighbor_joints]
    raises [ValueError] for a joint that is not on the bar and otherwise
    returns one joint (for an end of the chain) or two: exactly the joints
    that form a chain-adjacent pair with the given one. *)
Theorem neighbor_joints_adjacent (lbl : string) (js : list joint_id)
    (segs : list R) (bar : Bar.t) (a : joint_id) :
  Bar.init lbl js segs = Ok bar -> NoDup js ->
  (a ∉ js -> Bar.neighbor_joints bar a = Raise ValueError) /\
  (a ∈ js ->
   exists l,
     Bar.neighbor_joints bar a = Ok l /\
     (length l = 1 \/ length l = 2)%nat /\
     forall b, b ∈ l <->
               ((a, b) ∈ Linkage.pairwise js \/ (b, a) ∈ Linkage.pairwise js)).
Proof.
  intros Hinit Hnd. destruct (init_Ok _ _ _ _ Hinit) as (-> & H2 & _).
  unfold Bar.neighbor_joints, Bar.chain_at. cbn [Bar.joints]. split.
  - intros Ha. apply index_of_None in Ha. rewrite Ha. reflexivity.
  - intros Ha. apply list_elem_of_lookup in Ha as [i Hi].
    rewrite (index_of_NoDup a js i Hnd Hi).
    assert (Hil : (i < length js)%nat) by (eapply lookup_lt_Some; exact Hi).
    assert (Hadj : forall b,
              ((a, b) ∈ Linkage.pairwise js \/ (b, a) ∈ Linkage.pairwise js) <->
              (js !! S i = Some b \/ exists p, i = S p /\ js !! p = Some b)).
    { intros b. rewrite !pairwise_lookup. split.
      - intros [(p & H1 & H3)|(p & H1 & H3)].
        + left. rewrite <- (NoDup_lookup _ _ _ _ Hnd H1 Hi). exact H3.
        + right. exists p. split; [|exact H1]. exact (NoDup_lookup _ _ _ _ Hnd Hi H3).
      - intros [H|(p & -> & H)]; [left; exists i | right; exists p]; auto. }
    destruct (Nat.eqb_spec i 0) as [->|Hi0].
    + destruct (lookup_lt_is_Some_2 js 1) as [j1 H1]; [lia|]. rewrite H1. rstep.
      exists [j1]. split; [reflexivity|]. split; [left; reflexivity|].
      intros b. rewrite Hadj, list_elem_of_singleton. split.
      * intros ->. left. exact H1.
      * intros [H|(p & Hp & _)]; [congruence | discriminate Hp].
    + destruct i as [|p]; [contradiction|].
      replace (S p - 1)%nat with p by lia. replace (S p + 1)%nat with (S (S p)) by lia.
      destruct (lookup_lt_is_Some_2 js p) as [jp Hp]; [lia|]. rewrite Hp.
      destruct (Nat.eqb_spec (S p) (length js - 1)) as [Hlast|Hmid]; rstep.
      * exists [jp]. split; [reflexivity|]. split; [left; reflexivity|].
        intros b. rewrite Hadj, list_elem_of_singleton. split.
        -- intros ->. right. exists p. auto.
        -- intros [H|(q & [= <-] & H)]; [|congruence].
           apply lookup_lt_Some in H. lia.
      * destruct (lookup_lt_is_Some_2 js (S (S p))) as [jn Hn]; [lia|]. rewrite Hn. rstep.
        exists [jp; jn]. split; [reflexivity|]. split; [right; reflexivity|].
        intros b. rewrite Hadj, elem_of_cons, list_elem_of_singleton. split.
        -- intros [->| ->]; [right; exists p; auto | left; exact Hn].
        -- intros [H|(q & [= <-] & H)]; [right | left]; congruence.
Qed.

Lemma neighbor_joints_adjacent_witness :
  exists l,
    Bar.neighbor_joints Examples.main_bar 3%nat = Ok l /\
    (length l = 1 \/ length l = 2)%nat /\
    forall b, b ∈ l <->
              ((3%nat, b) ∈ Linkage.pairwise [2%nat; 3%nat; 4%nat]
               \/ (b, 3%nat) ∈ Linkage.pairwise [2%nat; 3%nat; 4%nat]).
Proof.
  refine (proj2 (neighbor_joints_adjacent "main" [2%nat; 3%nat; 4%nat] [6; 5]
                   Examples.main_bar 3%nat eq_refl _) _); compute_done.
Defined.

(** X11: [known_endpoints] counts the joints of the chain whose location is
    known: it never exceeds the number of joints and reaches it exactly
    when every joint of the bar is known. *)
Theorem known_endpoints_all (bar : Bar.t) (h : heap) :
  (Bar.known_endpoints bar h <= length (Bar.joints bar))%nat /\
  (Bar.known_endpoints bar h = length (Bar.joints bar) <->
   forall j, j ∈ Bar.joints bar -> Joint.is_known (h !!! j) = true).
Proof.
  unfold Bar.known_endpoints.
  assert (G : forall (l : list joint_id) (n : nat),
            (n <= fold_left (fun acc joint =>
                       (acc + if Joint.is_known (h !!! joint) then 1 else 0)%nat) l n
             <= n + length l)%nat /\
            (fold_left (fun acc joint =>
                       (acc + if Joint.is_known (h !!! joint) then 1 else 0)%nat) l n
             = (n + length l)%nat <->
             forall j, j ∈ l -> Joint.is_known (h !!! j) = true)).
  { induction l as [|x l IH]; intros n; cbn [fold_left length].
    - split; [lia|]. split; [intros _ j Hj; inversion Hj | lia].
    - destruct (IH (n + (if Joint.is_known (h !!! x) then 1 else 0))%nat) as [Hb Hiff].
      destruct (Joint.is_known (h !!! x)) eqn:Hx.
      + split; [lia|]. replace (n + S (length l))%nat with (n + 1 + length l)%nat by lia.
        rewrite Hiff. split.
        * intros H j Hj. apply elem_of_cons in Hj as [->|Hj]; auto.
        * intros H j Hj. apply H. apply list_elem_of_further. exact Hj.
      + split; [lia|]. split; [lia|].
        intros H. specialize (H x (list_elem_of_here _ _)). congruence. }
  destruct (G (Bar.joints bar) 0%nat) as [Hb Hiff]. split; [lia | exact Hiff].
Qed.

End MoreBarFacts.

(* ------------------------------------------------------------------------- *)
(** ** driver/driver.py, crank.py, rocker.py, slider.py *)

Section MoreDriverFacts.

Import Geometry.

Lemma Ztrunc_bound (x : R) :
  (0 <= x -> IZR (Driver.Ztrunc x) <= x < IZR (Driver.Ztrunc x) + 1) /\
  (x <= 0 -> x <= IZR (Driver.Ztrunc x) < x + 1).
Proof.
  unfold Driver.Ztrunc, Zceil. pose proof (Zfloor_bound x) as Hf.
  pose proof (Zfloor_bound (- x)) as Hc.
  destruct (Rle_dec 0 x) as [Hx|Hx]; split; intros H;
    rewrite ?opp_IZR; try lra.
  assert (E : x = IZR 0) by lra. rewrite E, ZfloorZ. lra.
Qed.

(** X15: the time that [update_attachment_point] hands to [point_for_time]
    differs from [time * speed] by a whole number and has its sign: it is
    in [0,1) when the product is not negative and in (-1,0] when the
    product is not positive. *)
Theorem effective_time_range (x : R) :
  (exists k : Z, x = IZR k + Driver.math_fmod x 1.0) /\
  (0 <= x -> 0 <= Driver.math_fmod x 1.0 < 1) /\
  (x <= 0 -> -1 < Driver.math_fmod x 1.0 <= 0).
Proof.
  unfold Driver.math_fmod. replace (x / 1.0) with x by lra.
  destruct (Ztrunc_bound x) as [Hp Hn]. split; [|split].
  - exists (Driver.Ztrunc x). lra.
  - intros Hx. specialize (Hp Hx). lra.
  - intros Hx. specialize (Hn Hx). lra.
Qed.

Lemma math_fmod_integer (n : Z) : Driver.math_fmod (IZR n) 1.0 = 0.
Proof.
  unfold Driver.math_fmod, Driver.Ztrunc, Zceil. replace (IZR n / 1.0) with (IZR n) by lra.
  destruct (Rle_dec 0 (IZR n)).
  - rewrite ZfloorZ. lra.
  - rewrite ZfloorNZ, Z.opp_involutive. lra.
Qed.

(** X16: a driver whose speed is a whole number ends where it starts:
    [update_attachment_point] at time 1 does what it does at time 0. *)
Theorem integral_speed_closes (d : Driver.t) (n : Z) (h : heap) :
  Driver.speed d = IZR n ->
  Driver.update_attachment_point d 1 h = Driver.update_attachment_point d 0 h.
Proof.
  intros Hs. unfold Driver.update_attachment_point. rewrite Hs.
  replace (1 * IZR n) with (IZR n) by ring. replace (0 * IZR n) with (IZR 0) by ring.
  rewrite !math_fmod_integer. reflexivity.
Qed.

Lemma integral_speed_closes_witness :
  Driver.update_attachment_point Examples.crank 1 ∅
  = Driver.update_attachment_point Examples.crank 0 ∅.
Proof.
  apply (integral_speed_closes Examples.crank 1 ∅). cbn. lra.
Defined.

End MoreDriverFacts.

(* ------------------------------------------------------------------------- *)
(** ** linkage.py: construction and queries *)

Section MoreLinkageFacts.

Import Geometry Linkage.

Lemma validity_check_Ok (bars : list Bar.t) (joints : list joint_id)
    (drivers : list Driver.t) :
  validity_check bars joints drivers = Ok true <->
  (forall bar joint, bar ∈ bars -> joint ∈ Bar.joints bar -> joint ∈ joints) /\
  (forall d, d ∈ drivers -> Driver.attachment_joint d ∈ joints).
Proof.
  unfold validity_check.
  destruct (forallb _ bars) eqn:Hb; cbn [negb].
  - destruct (forallb _ drivers) eqn:Hd; cbn [negb].
    + split; [intros _ | reflexivity].
      rewrite forallb_forall in Hb. rewrite forallb_forall in Hd. split.
      * intros bar joint Hbar Hj. apply list_elem_of_In in Hbar.
        specialize (Hb bar Hbar). rewrite forallb_forall in Hb.
        apply list_elem_of_In in Hj. specialize (Hb joint Hj).
        apply bool_decide_eq_true in Hb. exact Hb.
      * intros d Hin. apply list_elem_of_In in Hin. specialize (Hd d Hin).
        apply bool_decide_eq_true in Hd. exact Hd.
    + split; [discriminate|]. intros [_ H]. exfalso.
      assert (Ht : forallb (fun d => bool_decide (Driver.attachment_joint d ∈ joints))
                     drivers = true).
      { apply forallb_forall. intros d Hin. apply bool_decide_eq_true, H.
        apply list_elem_of_In. exact Hin. }
      congruence.
  - split; [discriminate|]. intros [H _]. exfalso.
    assert (Ht : forallb (fun bar =>
                   forallb (fun joint => bool_decide (joint ∈ joints)) (Bar.joints bar))
                   bars = true).
    { apply forallb_forall. intros bar Hin. apply forallb_forall. intros joint Hj.
      apply bool_decide_eq_true. apply (H bar joint); apply list_elem_of_In; assumption. }
    congruence.
Qed.

Lemma validity_check_outcomes (bars : list Bar.t) (joints : list joint_id)
    (drivers : list Driver.t) :
  validity_check bars joints drivers = Ok true \/
  validity_check bars joints drivers = Raise ValueError.
Proof.
  unfold validity_check.
  destruct (forallb _ bars); cbn [negb]; [|right; reflexivity].
  destruct (forallb _ drivers); cbn [negb]; [left | right]; reflexivity.
Qed.

(** X17: [Linkage(bars, joints, drivers)] returns exactly when every joint
    of every bar and the attachment joint of every driver is a member of
    [joints]; the object then holds the three lists, an empty cache and no
    simulation function.  Otherwise the constructor raises [ValueError]. *)
Theorem constructor_reference_integrity (bars : list Bar.t) (joints : list joint_id)
    (drivers : list Driver.t) :
  let integrity :=
    (forall bar joint, bar ∈ bars -> joint ∈ Bar.joints bar -> joint ∈ joints) /\
    (forall d, d ∈ drivers -> Driver.attachment_joint d ∈ joints) in
  (integrity ->
   Linkage.init bars joints drivers = Ok (Linkage.mk bars joints drivers (Some ∅) 10000 None)) /\
  (~ integrity -> Linkage.init bars joints drivers = Raise ValueError).
Proof.
  cbv zeta. unfold Linkage.init. split; intros H.
  - apply validity_check_Ok in H. rewrite H. reflexivity.
  - destruct (validity_check_outcomes bars joints drivers) as [Hv|Hv].
    + apply validity_check_Ok in Hv. contradiction.
    + rewrite Hv. reflexivity.
Qed.

Lemma elem_of_concat {A} (x : A) (ls : list (list A)) :
  x ∈ concat ls <-> exists l, x ∈ l /\ l ∈ ls.
Proof.
  induction ls as [|l ls IH]; cbn [concat].
  - split; [intros H; inversion H | intros (l & _ & H); inversion H].
  - rewrite elem_of_app, IH. split.
    + intros [H|(l' & H1 & H2)].
      * exists l. split; [exact H | apply list_elem_of_here].
      * exists l'. split; [exact H1 | apply list_elem_of_further; exact H2].
    + intros (l' & H1 & H2). apply elem_of_cons in H2 as [->|H2]; eauto.
Qed.

Lemma elem_of_bars_connected (bars : list Bar.t) (joint : joint_id) (bar : Bar.t) :
  bar ∈ bars_connected_to_joint bars joint <-> bar ∈ bars /\ joint ∈ Bar.joints bar.
Proof. unfold bars_connected_to_joint. rewrite list_elem_of_filter. tauto. Qed.

(** X18: under an iteration order that lists exactly the members of a
    set, [joints_connected_to_joint] returns the joints that share a bar
    with the given joint (the joint itself among them when it lies on a
    bar); being connected is symmetric, and a joint on no bar is connected
    to nothing. *)
Theorem joints_connected_spec (set_order : gset joint_id -> list joint_id)
    (bars : list Bar.t) (a b : joint_id) :
  (forall s x, x ∈ set_order s <-> x ∈ s) ->
  (b ∈ joints_connected_to_joint set_order bars a <->
   exists bar, bar ∈ bars /\ a ∈ Bar.joints bar /\ b ∈ Bar.joints bar) /\
  (b ∈ joints_connected_to_joint set_order bars a <->
   a ∈ joints_connected_to_joint set_order bars b) /\
  (bars_connected_to_joint bars a = [] ->
   forall c, c ∉ joints_connected_to_joint set_order bars a).
Proof.
  intros Horder.
  assert (Hspec : forall x y,
            y ∈ joints_connected_to_joint set_order bars x <->
            exists bar, bar ∈ bars /\ x ∈ Bar.joints bar /\ y ∈ Bar.joints bar).
  { intros x y. unfold joints_connected_to_joint.
    rewrite Horder, elem_of_list_to_set, elem_of_concat. split.
    - intros (l & Hy & Hl). apply list_elem_of_fmap in Hl as (bar & -> & Hbar).
      apply elem_of_bars_connected in Hbar as [Hbar Hx]. eauto.
    - intros (bar & Hbar & Hx & Hy). exists (Bar.joints bar). split; [exact Hy|].
      apply list_elem_of_fmap. exists bar. split; [reflexivity|].
      apply elem_of_bars_connected. auto. }
  split; [apply Hspec|]. split.
  - rewrite !Hspec. split; intros (bar & H1 & H2 & H3); eauto.
  - intros Hnone c Hc. apply Hspec in Hc as (bar & Hbar & Ha & _).
    assert (Hin : bar ∈ bars_connected_to_joint bars a) by (apply elem_of_bars_connected; auto).
    rewrite Hnone in Hin. inversion Hin.
Qed.

Lemma joints_connected_spec_witness :
  (3%nat ∈ joints_connected_to_joint elements [Examples.main_bar; Examples.top_bar] 2%nat <->
   exists bar, bar ∈ [Examples.main_bar; Examples.top_bar] /\
               2%nat ∈ Bar.joints bar /\ 3%nat ∈ Bar.joints bar) /\
  (3%nat ∈ joints_connected_to_joint elements [Examples.main_bar; Examples.top_bar] 2%nat <->
   2%nat ∈ joints_connected_to_joint elements [Examples.main_bar; Examples.top_bar] 3%nat) /\
  (bars_connected_to_joint [Examples.main_bar; Examples.top_bar] 2%nat = [] ->
   forall c, c ∉ joints_connected_to_joint elements
                   [Examples.main_bar; Examples.top_bar] 2%nat).
Proof.
  apply (joints_connected_spec elements [Examples.main_bar; Examples.top_bar] 2%nat 3%nat).
  intros s x. apply elem_of_elements.
Defined.

(** X19: the label lookup [j] returns the first joint of [self.joints] that
    carries the label, and [None] exactly when no joint of the linkage
    carries it. *)
Theorem label_lookup (self : Linkage.t) (h : heap) (label : string) :
  (forall joint, Linkage.j self h label = Some joint ->
     exists i, joints self !! i = Some joint /\
               Joint.label (h !!! joint) = label /\
               forall k other, (k < i)%nat -> joints self !! k = Some other ->
                               Joint.label (h !!! other) <> label) /\
  (Linkage.j self h label = None <->
   forall joint, joint ∈ joints self -> Joint.label (h !!! joint) <> label).
Proof.
  unfold Linkage.j. generalize (joints self) as l.
  induction l as [|x l [IH1 IH2]]; cbn [List.find].
  - split; [intros joint H; discriminate H|].
    split; [intros _ joint H; inversion H | reflexivity].
  - destruct (String.eqb_spec (Joint.label (h !!! x)) label) as [Heq|Hne].
    + split.
      * intros joint [= <-]. exists 0%nat. split; [reflexivity|]. split; [exact Heq|].
        intros k other Hk. lia.
      * split; [discriminate|]. intros H. destruct (H x (list_elem_of_here _ _) Heq).
    + split.
      * intros joint Hf. destruct (IH1 joint Hf) as (i & Hi & Hl & Hfirst).
        exists (S i). split; [exact Hi|]. split; [exact Hl|].
        intros [|k] other Hk Hlook; cbn in Hlook.
        -- injection Hlook as <-. exact Hne.
        -- apply (Hfirst k other); [lia | exact Hlook].
      * rewrite IH2. split.
        -- intros H joint Hin. apply elem_of_cons in Hin as [->|Hin]; auto.
        -- intros H joint Hin. apply H. apply list_elem_of_further. exact Hin.
Qed.

End MoreLinkageFacts.

(* ------------------------------------------------------------------------- *)
(** ** linkage.py: what a simulation leaves alone *)

Section FrameFacts.

Import Geometry Linkage.

Lemma frame_refl (h : heap) : frame h h.
Proof. intros joint. auto. Qed.

Lemma frame_trans (h1 h2 h3 : heap) : frame h1 h2 -> frame h2 h3 -> frame h1 h3.
Proof.
  intros H12 H23 joint.
  destruct (H12 joint) as (L1 & F1 & C1 & X1). destruct (H23 joint) as (L2 & F2 & C2 & X2).
  repeat split; try congruence.
  intros Hf. rewrite X2 by congruence. apply X1. exact Hf.
Qed.

(** A location written by [set_location] respects the frame. *)
Lemma set_location_frame (h : heap) (joint : joint_id) (l1 l2 : option point)
    (j' : Joint.t) :
  Joint.set_location (h !!! joint) l1 l2 = Ok j' -> frame h (<[joint := j']> h).
Proof.
  intros Hset.
  assert (Hj : Joint.fixed (h !!! joint) = false /\
               exists loc, j' = Joint.mk (Joint.label (h !!! joint)) loc false
                                         (Joint.chooser (h !!! joint))).
  { unfold Joint.set_location, Joint.setattr_location in Hset.
    destruct (Joint.fixed (h !!! joint)) eqn:Hf.
    - destruct l2; [destruct (Joint.chooser (h !!! joint)); [destruct l1|]|];
        discriminate Hset.
    - split; [reflexivity|].
      destruct l2; [destruct (Joint.chooser (h !!! joint)) eqn:Hc; [destruct l1|]|];
        try discriminate Hset; injection Hset as <-; eauto. }
  destruct Hj as (Hf & loc & ->). intros k.
  destruct (decide (joint = k)) as [<-|Hne].
  - rewrite lookup_total_insert_eq. cbn. repeat split; auto. congruence.
  - rewrite lookup_total_insert_ne by exact Hne. auto.
Qed.

Lemma bind_Ok {A B} (r : result A) (k : A -> result B) (b : B) :
  (r ≫= k) = Ok b -> exists a, r = Ok a /\ k a = Ok b.
Proof. destruct r as [a|e]; cbn; [eauto | discriminate]. Qed.

Ltac bind_inv H :=
  let x := fresh "x" in
  let Hx := fresh "Hx" in
  apply bind_Ok in H as (x & Hx & H).

Lemma run_step_frame (f : step) (time : R) (h h' : heap) :
  run_step f time h = Ok h' -> frame h h'.
Proof.
  destruct f as [d|u a b a_bar b_bar|joint bar js]; cbn [run_step]; intros H.
  - unfold Driver.update_attachment_point in H. bind_inv H. injection H as <-.
    eapply (set_location_frame h _ (Some _) None). exact Hx.
  - unfold run_intersection in H. do 5 bind_inv H.
    destruct x3 as [[l1 l2]|]; [|discriminate H].
    bind_inv H. injection H as <-. eapply set_location_frame. eassumption.
  - unfold run_extension in H. do 7 bind_inv H. injection H as <-.
    eapply set_location_frame. eassumption.
Qed.

Lemma run_steps_frame (fl : list step) (time : R) :
  forall h, frame h (snd (run_steps fl time h)).
Proof.
  induction fl as [|f fl IH]; intros h; cbn [run_steps]; [apply frame_refl|].
  destruct (run_step f time h) as [h1|e] eqn:Hs; [|apply frame_refl].
  apply (frame_trans _ h1); [exact (run_step_frame _ _ _ _ Hs) | apply IH].
Qed.

Lemma restore_frame (entries : list (joint_id * option point)) :
  forall h, frame h (snd (restore entries h)).
Proof.
  induction entries as [|[joint loc] rest IH]; intros h; cbn [restore];
    [apply frame_refl|].
  destruct (Joint.set_location (h !!! joint) loc None) as [j'|e] eqn:Hs;
    [|apply frame_refl].
  apply (frame_trans _ (<[joint := j']> h)); [|apply IH].
  exact (set_location_frame h _ _ _ _ Hs).
Qed.

(** X20: whatever its outcome, [simulate_to_time] leaves every fixed joint
    as it is, changes of the other joints nothing but the location, and
    leaves the bars, joints and drivers of the linkage as they are. *)
Theorem simulate_to_time_frame (set_order : gset joint_id -> list joint_id)
    (self : Linkage.t) (time : R) (h : heap) :
  let out := simulate_to_time set_order self time h in
  frame h (snd (snd out)) /\
  bars (fst (snd out)) = bars self /\
  joints (fst (snd out)) = joints self /\
  drivers (fst (snd out)) = drivers self.
Proof.
  cbv zeta. unfold simulate_to_time.
  destruct (bool_decide (0 <= time <= 1)); cbn [negb];
    [|split; [apply frame_refl | auto]].
  destruct (cache_entry self (cache_time self time)) as [entry|].
  - pose proof (restore_frame (map_to_list entry) h) as Hf.
    destruct (restore (map_to_list entry) h) as [r h']. cbn [fst snd] in *. auto.
  - destruct (compiled_function set_order _ h) as [fl|e];
      [|split; [apply frame_refl | auto]].
    unfold sim_function. pose proof (run_steps_frame fl time h) as Hf.
    destruct (run_steps fl time h) as [[[]|e] h']; cbn [fst snd] in *; [|auto].
    destruct (check_bars _ h' _) as [[]|e]; cbn [fst snd]; auto.
Qed.

End FrameFacts.

(* ------------------------------------------------------------------------- *)
(** ** linkage.py: the cache, written and read *)

Section MoreCacheFacts.

Import Geometry Linkage.

Variable set_order : gset joint_id -> list joint_id.

(** What a call that returned on a cache miss has done. *)
Lemma simulate_to_time_miss_Ok (self : Linkage.t) (time : R) (h : heap)
    (self' : Linkage.t) (h' : heap) :
  cache_entry self (cache_time self time) = None ->
  simulate_to_time set_order self time h = (Ok tt, (self', h')) ->
  exists fl,
    compiled_function set_order self h = Ok fl /\
    run_steps fl time h = (Ok tt, h') /\
    check_bars validity_margin h' (bars self) = Ok tt /\
    self' = set_cache (with_function self fl)
              (Some (<[cache_time self time := cache_state (with_function self fl) h']>
                       (match cache self with Some c => c | None => ∅ end))).
Proof.
  intros Hmiss Hsim.
  assert (Ht : 0 <= time <= 1).
  { destruct (decide (0 <= time <= 1)) as [H|H]; [exact H|].
    unfold simulate_to_time in Hsim.
    rewrite bool_decide_eq_false_2 in Hsim by exact H. discriminate Hsim. }
  destruct (simulate_to_time_miss set_order self time h Ht Hmiss) as [Hraise Hok].
  destruct (compiled_function set_order self h) as [fl|e] eqn:Hc.
  2:{ rewrite (Hraise e eq_refl) in Hsim. discriminate Hsim. }
  destruct (Hok fl eq_refl) as [Hsteps Hdone].
  destruct (run_steps fl time h) as [[[]|e] h1] eqn:Hrun.
  2:{ rewrite (Hsteps e h1 eq_refl) in Hsim. discriminate Hsim. }
  destruct (Hdone h1 eq_refl) as [Hbad Hgood].
  destruct (check_bars validity_margin h1 (bars self)) as [[]|e] eqn:Hchk.
  2:{ rewrite (Hbad e eq_refl) in Hsim. discriminate Hsim. }
  rewrite (Hgood eq_refl) in Hsim. injection Hsim as <- <-.
  exists fl. auto.
Qed.

(** The snapshot: the free joints of the linkage, at their locations. *)
Lemma cache_state_lookup (self : Linkage.t) (h : heap) (joint : joint_id)
    (loc : option point) :
  cache_state self h !! joint = Some loc <->
  joint ∈ joints self /\ Joint.fixed (h !!! joint) = false /\
  loc = Joint.location (h !!! joint).
Proof.
  unfold cache_state.
  assert (G : forall (l : list joint_id) (m : snapshot),
            fold_left (fun (m : snapshot) j => <[j := Joint.location (h !!! j)]> m) l m
              !! joint
            = if decide (joint ∈ l) then Some (Joint.location (h !!! joint))
              else m !! joint).
  { induction l as [|x l IH]; intros m; cbn [fold_left].
    - rewrite decide_False by apply not_elem_of_nil. reflexivity.
    - rewrite IH. destruct (decide (joint ∈ l)) as [Hin|Hout].
      + rewrite decide_True by (apply list_elem_of_further; exact Hin). reflexivity.
      + destruct (decide (joint = x)) as [->|Hne].
        * rewrite decide_True by apply list_elem_of_here. apply lookup_insert_eq.
        * rewrite decide_False by (rewrite elem_of_cons; tauto).
          apply lookup_insert_ne. congruence. }
  rewrite G, lookup_empty.
  destruct (decide (joint ∈ filter (fun j => Joint.fixed (h !!! j) = false) (joints self)))
    as [Hin|Hout].
  - apply list_elem_of_filter in Hin as [Hf Hj]. split.
    + intros [= <-]. auto.
    + intros (_ & _ & ->). reflexivity.
  - split; [discriminate|]. intros (Hj & Hf & _). destruct Hout.
    apply list_elem_of_filter. auto.
Qed.

(** X21: a call that returns on a cache miss writes one cache entry, under
    the bucket of its time: the snapshot that maps each joint of the
    linkage that is not fixed to the location the run gave it, and no other
    joint.  Every other bucket keeps the entry it had. *)
Theorem cache_written_on_success (self : Linkage.t) (time : R) (h : heap)
    (self' : Linkage.t) (h' : heap) :
  cache_entry self (cache_time self time) = None ->
  simulate_to_time set_order self time h = (Ok tt, (self', h')) ->
  exists entry,
    cache_entry self' (cache_time self time) = Some entry /\
    (forall joint loc,
       entry !! joint = Some loc <->
       joint ∈ joints self /\ Joint.fixed (h' !!! joint) = false /\
       loc = Joint.location (h' !!! joint)) /\
    (forall ct, ct <> cache_time self time ->
       cache_entry self' ct = cache_entry self ct).
Proof.
  intros Hmiss Hsim.
  destruct (simulate_to_time_miss_Ok self time h self' h' Hmiss Hsim)
    as (fl & _ & _ & _ & ->).
  exists (cache_state (with_function self fl) h'). split; [|split].
  - unfold cache_entry. cbn [cache set_cache]. apply lookup_insert_eq.
  - intros joint loc. apply (cache_state_lookup (with_function self fl)).
  - intros ct Hct. unfold cache_entry at 1. cbn [cache set_cache].
    rewrite lookup_insert_ne by congruence.
    unfold cache_entry. destruct (cache self); [reflexivity | apply lookup_empty].
Qed.

End MoreCacheFacts.

Section CacheHitFacts.

Import Geometry Linkage.

Variable set_order : gset joint_id -> list joint_id.

Lemma restore_free (entries : list (joint_id * option point)) :
  forall h,
    Forall (fun e => Joint.fixed (h !!! e.1) = false) entries ->
    exists h', restore entries h = (Ok tt, h').
Proof.
  induction entries as [|[joint loc] rest IH]; intros h Hall; cbn [restore]; [eauto|].
  apply Forall_cons in Hall as [Hj Hrest]. cbn [fst] in Hj.
  destruct (Joint.set_location (h !!! joint) loc None) as [j'|e] eqn:Hs.
  - apply IH. pose proof (set_location_frame h _ _ _ _ Hs) as Hf.
    eapply Forall_impl; [exact Hrest|]. intros e He. cbn beta in *.
    destruct (Hf e.1) as (_ & Hfix & _). congruence.
  - unfold Joint.set_location, Joint.setattr_location in Hs. rewrite Hj in Hs.
    discriminate Hs.
Qed.

Lemma restore_fixed (entries : list (joint_id * option point)) :
  forall h,
    Exists (fun e => Joint.fixed (h !!! e.1) = true) entries ->
    fst (restore entries h) = Raise AttributeError.
Proof.
  induction entries as [|[joint loc] rest IH]; intros h Hex; [inversion Hex|].
  cbn [restore]. unfold Joint.set_location, Joint.setattr_location.
  destruct (Joint.fixed (h !!! joint)) eqn:Hj; [reflexivity|].
  apply IH. apply Exists_cons in Hex as [Hh|Hex]; [cbn in Hh; congruence|].
  assert (Hs : Joint.set_location (h !!! joint) loc None
               = Ok (Joint.mk (Joint.label (h !!! joint)) loc false
                              (Joint.chooser (h !!! joint)))).
  { unfold Joint.set_location, Joint.setattr_location. rewrite Hj. reflexivity. }
  pose proof (set_location_frame h _ _ _ _ Hs) as Hf.
  eapply Exists_impl; [exact Hex|]. intros e He. cbn beta in *.
  destruct (Hf e.1) as (_ & Hfix & _). congruence.
Qed.

(** X22: a call that finds its bucket in the cache runs no step of the
    pipeline.  When the cached joints are not fixed it returns, puts each
    of them at its cached location, touches no other joint and leaves the
    linkage object as it is; when one of them has become fixed it raises
    the [AttributeError] of the location guard. *)
Theorem cache_hit_restores (self : Linkage.t) (time : R) (h : heap)
    (entry : snapshot) :
  0 <= time <= 1 ->
  cache_entry self (cache_time self time) = Some entry ->
  ((forall joint loc, entry !! joint = Some loc -> Joint.fixed (h !!! joint) = false) ->
   exists h',
     simulate_to_time set_order self time h = (Ok tt, (self, h')) /\
     (forall joint loc, entry !! joint = Some loc ->
        Joint.location (h' !!! joint) = loc) /\
     (forall joint, entry !! joint = None -> h' !!! joint = h !!! joint)) /\
  ((exists joint loc, entry !! joint = Some loc /\ Joint.fixed (h !!! joint) = true) ->
   fst (simulate_to_time set_order self time h) = Raise AttributeError).
Proof.
  intros Ht Hhit. rewrite (simulate_to_time_hit set_order self time h entry Ht Hhit).
  split.
  - intros Hfree.
    destruct (restore_free (map_to_list entry) h) as [h' Hr].
    { apply Forall_forall. intros [joint loc] Hin.
      apply elem_of_map_to_list in Hin. exact (Hfree joint loc Hin). }
    destruct (restore_establishes _ h h' (NoDup_fst_map_to_list entry) Hr)
      as (Hagree & Hout & _).
    exists h'. rewrite Hr. split; [reflexivity|]. split.
    + intros joint loc Hin. apply elem_of_map_to_list in Hin.
      rewrite Forall_forall in Hagree. destruct (Hagree _ Hin) as [_ Hloc]. exact Hloc.
    + intros joint Hnone. apply Hout. intros Hin.
      apply list_elem_of_fmap in Hin as ([k loc] & -> & Hin).
      apply elem_of_map_to_list in Hin. cbn in Hnone. congruence.
  - intros (joint & loc & Hin & Hfix). cbn [fst]. apply restore_fixed.
    apply Exists_exists. exists (joint, loc). split; [|exact Hfix].
    apply elem_of_map_to_list. exact Hin.
Qed.

(** X23: caching is idempotent.  After a call that returned, from the cache
    or from a run of the pipeline, a call for any time of the same bucket
    returns as well, leaves the linkage object as it is and leaves every
    joint exactly as the first call left it. *)
Theorem same_bucket_idempotent (self : Linkage.t) (t1 t2 : R) (h : heap)
    (self1 : Linkage.t) (h1 : heap) :
  simulate_to_time set_order self t1 h = (Ok tt, (self1, h1)) ->
  0 <= t2 <= 1 ->
  cache_time self t2 = cache_time self t1 ->
  exists h2,
    simulate_to_time set_order self1 t2 h1 = (Ok tt, (self1, h2)) /\
    forall joint, h2 !!! joint = h1 !!! joint.
Proof. apply simulate_to_time_same_bucket. Qed.

End CacheHitFacts.

Lemma bucket_zero (time : R) :
  0 <= time < 0.0001 -> Zfloor (IZR 10000 * time) = 0%Z.
Proof. intros H. apply Zfloor_eq. lra. Qed.

Lemma cache_hit_restores_witness :
  exists h',
    Linkage.simulate_to_time elements Examples.cached_linkage 0 Examples.moved_joints
    = (Ok tt, (Examples.cached_linkage, h')) /\
    (forall joint loc,
       (<[3%nat := Some (11, 10)]> ∅ : gmap joint_id (option Geometry.point)) !! joint
       = Some loc -> Joint.location (h' !!! joint) = loc) /\
    (forall joint,
       (<[3%nat := Some (11, 10)]> ∅ : gmap joint_id (option Geometry.point)) !! joint
       = None -> h' !!! joint = Examples.moved_joints !!! joint).
Proof.
  refine (proj1 (cache_hit_restores elements Examples.cached_linkage 0
                   Examples.moved_joints _ _ _) _).
  - lra.
  - unfold Linkage.cache_entry, Linkage.cache_time.
    cbn [Linkage.cache Linkage.cache_accuraccy Examples.cached_linkage].
    rewrite bucket_zero by lra. apply lookup_insert_eq.
  - intros joint loc _. unfold Examples.moved_joints.
    destruct (decide (3%nat = joint)) as [<-|Hne].
    + rewrite lookup_total_insert_eq. reflexivity.
    + rewrite lookup_total_insert_ne by exact Hne. rewrite lookup_total_empty. reflexivity.
Defined.

(* ------------------------------------------------------------------------- *)
(** ** linkage.py: when the pipeline forgets the previous run *)

Section DeterminismFacts.

Import Geometry Linkage.

(** A step computes a joint object and stores it at the joint it writes. *)
Lemma run_step_value (f : step) (time : R) (h : heap) :
  run_step f time h
  = (j' ← step_value f time h; Ok (<[writes f := j']> h)).
Proof.
  destruct f as [d|u a b a_bar b_bar|joint bar js]; cbn [run_step step_value writes].
  - reflexivity.
  - unfold run_intersection.
    destruct (Bar.joint_distance a_bar u a); rstep; [|reflexivity].
    destruct (Bar.joint_distance b_bar u b); rstep; [|reflexivity].
    destruct (the_point (Joint.location (h !!! a))); rstep; [|reflexivity].
    destruct (the_point (Joint.location (h !!! b))); rstep; [|reflexivity].
    destruct (circular_intersection _ _ _ _) as [[[l1 l2]|]|]; rstep; reflexivity.
  - unfold run_extension.
    destruct (list_index js 0) as [j0|]; rstep; [|reflexivity].
    destruct (list_index js 1) as [j1|]; rstep; [|reflexivity].
    destruct (Bar.origin_distance bar joint); rstep; [|reflexivity].
    destruct (Bar.origin_distance bar j1); rstep; [|reflexivity].
    destruct (the_point (Joint.location (h !!! j0))); rstep; [|reflexivity].
    destruct (the_point (Joint.location (h !!! j1))); rstep; reflexivity.
Qed.

(** [set_location] looks at the label, the fixed flag and the chooser of
    the joint only. *)
Lemma set_location_static (x x' : Joint.t) (l1 l2 : option point) :
  Joint.label x = Joint.label x' -> Joint.fixed x = Joint.fixed x' ->
  Joint.chooser x = Joint.chooser x' ->
  Joint.set_location x l1 l2 = Joint.set_location x' l1 l2.
Proof.
  intros Hl Hf Hc. unfold Joint.set_location, Joint.setattr_location.
  rewrite Hl, Hf, Hc. reflexivity.
Qed.

Lemma list_index_take (js : list joint_id) (i : nat) (j : joint_id) :
  (i < 2)%nat -> list_index js i = Ok j -> j ∈ (list_to_set (take 2 js) : gset joint_id).
Proof.
  unfold list_index. intros Hi H. destruct (js !! i) as [x|] eqn:Hx; [|discriminate].
  injection H as ->. apply elem_of_list_to_set.
  apply (list_elem_of_lookup_2 _ i). rewrite lookup_take_lt by exact Hi. exact Hx.
Qed.

(** The value a step computes depends on the static part of the store and
    on the joints the step reads. *)
Lemma step_value_det (f : step) (time : R) (h h' : heap) :
  same_static h h' -> agree_on (reads f) h h' ->
  step_value f time h = step_value f time h'.
Proof.
  intros Hst Hag.
  assert (Hset : forall joint l1 l2,
            Joint.set_location (h !!! joint) l1 l2
            = Joint.set_location (h' !!! joint) l1 l2).
  { intros joint l1 l2. destruct (Hst joint) as (Hl & Hf & Hc).
    apply set_location_static; assumption. }
  destruct f as [d|u a b a_bar b_bar|joint bar js]; cbn [step_value reads] in *.
  - apply (Hset _ (Some _) None).
  - rewrite <- (Hag a), <- (Hag b) by set_solver.
    destruct (Bar.joint_distance a_bar u a); rstep; [|reflexivity].
    destruct (Bar.joint_distance b_bar u b); rstep; [|reflexivity].
    destruct (the_point (Joint.location (h !!! a))); rstep; [|reflexivity].
    destruct (the_point (Joint.location (h !!! b))); rstep; [|reflexivity].
    destruct (circular_intersection _ _ _ _) as [[[l1 l2]|]|]; rstep;
      try reflexivity. apply Hset.
  - destruct (list_index js 0) as [j0|] eqn:H0; rstep; [|reflexivity].
    destruct (list_index js 1) as [j1|] eqn:H1; rstep; [|reflexivity].
    rewrite <- (Hag j0), <- (Hag j1) by (eapply list_index_take; [|eassumption]; lia).
    destruct (Bar.origin_distance bar joint); rstep; [|reflexivity].
    destruct (Bar.origin_distance bar j1); rstep; [|reflexivity].
    destruct (the_point (Joint.location (h !!! j0))); rstep; [|reflexivity].
    destruct (the_point (Joint.location (h !!! j1))); rstep; [|reflexivity].
    apply Hset.
Qed.

Lemma same_static_insert (h h' : heap) (w : joint_id) (jv : Joint.t) :
  same_static h h' -> same_static (<[w := jv]> h) (<[w := jv]> h').
Proof.
  intros Hst joint. destruct (decide (w = joint)) as [->|Hne].
  - rewrite !lookup_total_insert_eq. repeat split.
  - rewrite !lookup_total_insert_ne by exact Hne. apply Hst.
Qed.

Lemma agree_on_insert (K : gset joint_id) (h h' : heap) (w : joint_id) (jv : Joint.t) :
  agree_on K h h' -> agree_on (K ∪ {[w]}) (<[w := jv]> h) (<[w := jv]> h').
Proof.
  intros Hag joint Hin. destruct (decide (w = joint)) as [->|Hne].
  - rewrite !lookup_total_insert_eq. reflexivity.
  - rewrite !lookup_total_insert_ne by exact Hne. apply Hag.
    apply elem_of_union in Hin as [Hin|Hin]; [exact Hin|].
    apply elem_of_singleton in Hin. congruence.
Qed.

Lemma agree_on_mono (K K' : gset joint_id) (h h' : heap) :
  K' ⊆ K -> agree_on K h h' -> agree_on K' h h'.
Proof. intros Hsub Hag joint Hin. apply Hag, Hsub, Hin. Qed.

Lemma written_cons (f : step) (fl : list step) :
  written (f :: fl) = {[writes f]} ∪ written fl.
Proof. reflexivity. Qed.

Lemma written_app (fl : list step) (f : step) :
  written (fl ++ [f]) ≡ written fl ∪ {[writes f]}.
Proof.
  unfold written. rewrite map_app, list_to_set_app. cbn [map list_to_set].
  rewrite (right_id ∅ (∪)). reflexivity.
Qed.

(** Two runs of a function list whose steps read only joints of [K] or
    joints written by earlier steps: from stores that agree on [K] and on
    the static part of every joint, the runs have the same outcome and end
    in stores that agree on [K] and on every joint written. *)
Lemma run_steps_det (fl : list step) (time : R) :
  forall (K : gset joint_id) (h h' : heap),
    same_static h h' -> agree_on K h h' -> ordered K fl ->
    (run_steps fl time h).1 = (run_steps fl time h').1 /\
    same_static (run_steps fl time h).2 (run_steps fl time h').2 /\
    ((run_steps fl time h).1 = Ok tt ->
     agree_on (K ∪ written fl) (run_steps fl time h).2 (run_steps fl time h').2).
Proof.
  induction fl as [|f fl IH]; intros K h h' Hst Hag Hord; cbn [run_steps].
  - cbn [fst snd]. split; [reflexivity|]. split; [exact Hst|].
    intros _. eapply agree_on_mono; [|exact Hag].
    intros joint Hin. apply elem_of_union in Hin as [Hin|Hin]; [exact Hin|].
    unfold written in Hin. cbn in Hin. apply elem_of_empty in Hin. contradiction.
  - destruct Hord as [Hreads Hrest].
    rewrite !run_step_value.
    rewrite <- (step_value_det f time h h' Hst (agree_on_mono _ _ _ _ Hreads Hag)).
    destruct (step_value f time h) as [jv|e]; rstep.
    + destruct (IH (K ∪ {[writes f]}) (<[writes f := jv]> h) (<[writes f := jv]> h'))
        as (Hr & Hs & Ha).
      * apply same_static_insert, Hst.
      * apply agree_on_insert, Hag.
      * exact Hrest.
      * split; [exact Hr|]. split; [exact Hs|]. intros Hok.
        eapply agree_on_mono; [|exact (Ha Hok)].
        rewrite written_cons. intros joint Hin.
        apply elem_of_union in Hin as [Hin|Hin].
        -- apply elem_of_union_l, elem_of_union_l, Hin.
        -- apply elem_of_union in Hin as [Hin|Hin].
           ++ apply elem_of_union_l, elem_of_union_r, Hin.
           ++ apply elem_of_union_r, Hin.
    + cbn [fst snd]. split; [reflexivity|]. split; [exact Hst|]. discriminate.
Qed.

(** The validity check reads the locations of the joints of the bars. *)
Lemma pairwise_elem {A} (l : list A) (x y : A) :
  (x, y) ∈ pairwise l -> x ∈ l /\ y ∈ l.
Proof.
  intros H. apply pairwise_lookup in H as (i & Hx & Hy).
  split; eapply list_elem_of_lookup_2; eassumption.
Qed.

Lemma check_pairs_det (margin : R) (h h' : heap) (bar : Bar.t)
    (pairs : list (joint_id * joint_id)) :
  (forall p, p ∈ pairs ->
     Joint.location (h !!! p.1) = Joint.location (h' !!! p.1) /\
     Joint.location (h !!! p.2) = Joint.location (h' !!! p.2)) ->
  check_pairs margin h bar pairs = check_pairs margin h' bar pairs.
Proof.
  induction pairs as [|p pairs IH]; intros H; cbn [check_pairs]; [reflexivity|].
  rewrite IH by (intros q Hq; apply H; right; exact Hq).
  destruct (H p) as [H1 H2]; [left|].
  unfold check_pair. rewrite H1, H2. reflexivity.
Qed.

Lemma check_bars_det (margin : R) (h h' : heap) (bars : list Bar.t) :
  (forall bar joint, bar ∈ bars -> joint ∈ Bar.joints bar ->
     Joint.location (h !!! joint) = Joint.location (h' !!! joint)) ->
  check_bars margin h bars = check_bars margin h' bars.
Proof.
  induction bars as [|bar bars IH]; intros H; cbn [check_bars]; [reflexivity|].
  rewrite IH by (intros b joint Hb; apply H; right; exact Hb).
  rewrite (check_pairs_det margin h h' bar).
  - reflexivity.
  - intros [x y] Hp. apply pairwise_elem in Hp as [Hx Hy]. cbn [fst snd].
    split; apply (H bar); first [left | assumption].
Qed.

(** *** The compiled function list reads what is solved *)

Lemma ordered_app (fl : list step) (f : step) :
  forall K, ordered K fl -> reads f ⊆ K ∪ written fl -> ordered K (fl ++ [f]).
Proof.
  induction fl as [|g fl IH]; intros K Hord Hreads; cbn [app ordered].
  - split; [|exact I]. intros joint Hin. apply Hreads in Hin.
    apply elem_of_union in Hin as [Hin|Hin]; [exact Hin|].
    unfold written in Hin. cbn in Hin. apply elem_of_empty in Hin. contradiction.
  - destruct Hord as [Hg Hrest]. split; [exact Hg|]. apply IH; [exact Hrest|].
    intros joint Hin. apply Hreads in Hin. rewrite written_cons in Hin.
    apply elem_of_union in Hin as [Hin|Hin].
    + apply elem_of_union_l, elem_of_union_l, Hin.
    + apply elem_of_union in Hin as [Hin|Hin].
      * apply elem_of_union_l, elem_of_union_r, Hin.
      * apply elem_of_union_r, Hin.
Qed.

Lemma ordered_drivers (K : gset joint_id) (ds : list Driver.t) :
  ordered K (map DriverStep ds).
Proof.
  revert K. induction ds as [|d ds IH]; intros K; cbn [map ordered]; [exact I|].
  split; [|apply IH]. cbn [reads]. intros joint Hin.
  apply elem_of_empty in Hin. contradiction.
Qed.

Lemma written_drivers (ds : list Driver.t) :
  written (map DriverStep ds) = list_to_set (map Driver.attachment_joint ds).
Proof. unfold written. rewrite map_map. reflexivity. Qed.

Lemma pass_step_inv (K0 : gset joint_id) (st : pass_state) (c : candidate) :
  sound_candidate c ->
  compiled_inv K0 (kept st, function_list st, solved_joints st) ->
  compiled_inv K0 (kept (pass_step st c), function_list (pass_step st c),
                   solved_joints (pass_step st c)).
Proof.
  intros Hc (Hord & Hsub & Hkept). destruct c as [[rq joint] f].
  destruct Hc as [Hreads Hwrites]. cbn [fst snd] in *. unfold pass_step.
  destruct (decide (rq ⊆ solved_joints st)) as [Hrq|Hrq];
    [destruct (decide (joint ∈ solved_joints st)) as [Hin|Hin]|];
    unfold compiled_inv; cbn [kept function_list solved_joints fst snd].
  - split; [exact Hord|]. split; [exact Hsub|].
    apply Forall_app. split; [exact Hkept|]. constructor; [|constructor].
    split; assumption.
  - split; [|split; [|exact Hkept]].
    + apply ordered_app; [exact Hord|].
      intros x Hx. apply Hsub, Hrq, Hreads, Hx.
    + intros x Hx. rewrite written_app.
      apply elem_of_union in Hx as [Hx|Hx].
      * apply elem_of_singleton in Hx. subst x.
        apply elem_of_union_r, elem_of_union_r, elem_of_singleton. symmetry. exact Hwrites.
      * apply Hsub in Hx. apply elem_of_union in Hx as [Hx|Hx].
        -- apply elem_of_union_l, Hx.
        -- apply elem_of_union_r, elem_of_union_l, Hx.
  - split; [exact Hord|]. split; [exact Hsub|].
    apply Forall_app. split; [exact Hkept|]. constructor; [|constructor].
    split; assumption.
Qed.

Lemma fold_pass_step_inv (K0 : gset joint_id) (reqs : list candidate) :
  forall st,
    Forall sound_candidate reqs ->
    compiled_inv K0 (kept st, function_list st, solved_joints st) ->
    let st' := fold_left pass_step reqs st in
    compiled_inv K0 (kept st', function_list st', solved_joints st').
Proof.
  induction reqs as [|c reqs IH]; intros st Hs Hinv; cbn [fold_left]; [exact Hinv|].
  inversion Hs as [|? ? Hc Hrest]; subst.
  apply IH; [exact Hrest|]. apply pass_step_inv; assumption.
Qed.

Lemma pass_inv (K0 : gset joint_id) (reqs : list candidate) (fl : list step)
    (solved : gset joint_id) :
  compiled_inv K0 (reqs, fl, solved) ->
  compiled_inv K0 (kept (pass reqs fl solved), function_list (pass reqs fl solved),
                   solved_joints (pass reqs fl solved)).
Proof.
  intros (Hord & Hsub & Hs). cbn [fst snd] in *. unfold pass.
  apply (fold_pass_step_inv K0 reqs (mk_pass false fl solved [])); [exact Hs|].
  split; [exact Hord|]. split; [exact Hsub|]. constructor.
Qed.

Lemma rounds_inv (K0 all_joints : gset joint_id) (s s' : loop_state) :
  rounds all_joints s s' -> compiled_inv K0 s -> compiled_inv K0 s'.
Proof.
  induction 1 as [s|reqs fl solved s' Hne Hrs Hrounds IH]; intros Hinv; [exact Hinv|].
  apply IH, pass_inv, Hinv.
Qed.

(** *** The candidates of Step 1 on bars of at most three joints *)

Lemma list_remove_length (x : joint_id) (l : list joint_id) :
  x ∈ l -> S (length (list_remove x l)) = length l.
Proof.
  induction l as [|y l IH]; intros Hin; [inversion Hin|].
  cbn [list_remove]. destruct (decide (x = y)) as [->|Hne]; [reflexivity|].
  cbn [length]. f_equal. apply IH.
  apply elem_of_cons in Hin as [Hin|Hin]; [contradiction | exact Hin].
Qed.

Lemma solvers_for_joint_sound (set_order : gset joint_id -> list joint_id)
    (all_bars : list Bar.t) (joint : joint_id) :
  (forall bar, bar ∈ all_bars -> (length (Bar.joints bar) <= 3)%nat) ->
  Forall sound_candidate (solvers_for_joint set_order all_bars joint).
Proof.
  intros Hsmall.
  assert (Hext : Forall sound_candidate
            (flat_map
               (fun bar =>
                  let other_joints := list_remove joint (Bar.joints bar) in
                  map (fun pair : joint_id * joint_id =>
                         (({[pair.1; pair.2]} : gset joint_id), joint,
                          solver_for_joint_on_bar_given_joints joint bar other_joints))
                      (combinations other_joints))
               (filter (fun bar => (2 < length (Bar.joints bar))%nat)
                       (bars_connected_to_joint all_bars joint)))).
  { apply Forall_forall. intros c Hc. apply list_elem_of_In, in_flat_map in Hc.
    destruct Hc as (bar & Hbar & Hc). cbv zeta in Hc.
    apply list_elem_of_In, list_elem_of_filter in Hbar as [Hlen Hbar].
    apply elem_of_bars_connected in Hbar as [Hbar Hjoint].
    pose proof (Hsmall bar Hbar) as Hle.
    pose proof (list_remove_length joint (Bar.joints bar) Hjoint) as Hrem.
    destruct (list_remove joint (Bar.joints bar)) as [|x [|y [|z rest]]] eqn:Hother;
      cbn [length] in Hrem; try lia.
    cbn in Hc. destruct Hc as [<-|[]].
    split; cbn [fst snd]; [|reflexivity].
    unfold solver_for_joint_on_bar_given_joints. cbn [reads take list_to_set].
    intros j Hj. apply elem_of_union in Hj as [Hj|Hj].
    - apply elem_of_union_l, Hj.
    - apply elem_of_union in Hj as [Hj|Hj]; [apply elem_of_union_r, Hj|].
      apply elem_of_empty in Hj. contradiction. }
  unfold solvers_for_joint. cbv zeta.
  destruct (length (bars_connected_to_joint all_bars joint) <? 2)%nat; [exact Hext|].
  apply Forall_app. split; [exact Hext|].
  apply Forall_forall. intros c Hc. apply list_elem_of_In, in_flat_map in Hc.
  destruct Hc as (bar_pair & _ & Hc). apply in_map_iff in Hc as (jp & <- & _).
  split; cbn [fst snd]; [|reflexivity].
  unfold solver_for_intersection. cbn [reads]. reflexivity.
Qed.

Lemma all_solvers_sound (set_order : gset joint_id -> list joint_id)
    (bars : list Bar.t) (joints : list joint_id) (solved : gset joint_id) :
  (forall bar, bar ∈ bars -> (length (Bar.joints bar) <= 3)%nat) ->
  Forall sound_candidate (all_solvers set_order bars joints solved).
Proof.
  intros Hsmall. unfold all_solvers.
  apply Forall_forall. intros c Hc. apply list_elem_of_In, in_flat_map in Hc.
  destruct Hc as (joint & _ & Hc).
  pose proof (solvers_for_joint_sound set_order bars joint Hsmall) as Hs.
  rewrite Forall_forall in Hs. apply Hs, list_elem_of_In, Hc.
Qed.

(** *** [generate_simulation_function] and the joint store *)

Section PipelineFacts.

Variable set_order : gset joint_id -> list joint_id.

(** The joints of the linkage that are fixed in a store. *)
Lemma initial_solved_static (h h' : heap) (joints : list joint_id)
    (drivers : list Driver.t) :
  same_static h h' ->
  initial_solved h joints drivers = initial_solved h' joints drivers.
Proof.
  intros Hst. unfold initial_solved. f_equal. f_equal.
  apply list_filter_iff. intros joint.
  destruct (Hst joint) as (_ & Hf & _). rewrite Hf. reflexivity.
Qed.

(** Compilation looks at the topology and at the fixed flags only. *)
Lemma generate_static (self self' : Linkage.t) (h h' : heap) :
  bars self = bars self' -> joints self = joints self' ->
  drivers self = drivers self' -> same_static h h' ->
  generate_simulation_function set_order self h
  = generate_simulation_function set_order self' h'.
Proof.
  intros Hb Hj Hd Hst. unfold generate_simulation_function.
  rewrite <- Hb, <- Hj, <- Hd, (initial_solved_static h h' _ _ Hst). reflexivity.
Qed.

(** On bars of at most three joints, the compiled function list reads only
    fixed joints and joints that an earlier step wrote, and it writes every
    joint of the linkage that is not fixed. *)
Lemma generate_ordered (self : Linkage.t) (h : heap) (fl : list step) :
  (forall bar, bar ∈ bars self -> (length (Bar.joints bar) <= 3)%nat) ->
  generate_simulation_function set_order self h = Ok fl ->
  let F : gset joint_id :=
    list_to_set (filter (fun j => Joint.fixed (h !!! j) = true) (joints self)) in
  ordered F fl /\ list_to_set (joints self) ⊆ F ∪ written fl.
Proof.
  intros Hsmall Hgen F.
  pose proof (generate_outcome set_order self h) as Hout. cbv zeta in Hout.
  destruct Hout as (reqs & fl1 & solved & Hrounds & [[Hall Hok]|(_ & _ & _ & Hraise)]);
    [|rewrite Hraise in Hgen; discriminate].
  rewrite Hok in Hgen. injection Hgen as <-.
  assert (Hinv : compiled_inv F (reqs, fl1, solved)).
  { apply (rounds_inv F _ _ _ Hrounds). split; [|split]; cbn [fst snd].
    - apply ordered_drivers.
    - rewrite written_drivers. unfold initial_solved. intros joint Hin.
      apply elem_of_union in Hin as [Hin|Hin].
      + apply elem_of_union_r, Hin.
      + apply elem_of_union_l, Hin.
    - apply all_solvers_sound, Hsmall. }
  apply pass_inv in Hinv. destruct Hinv as (Hord & Hsub & _). cbn [fst snd] in *.
  split; [exact Hord|]. rewrite <- Hall. exact Hsub.
Qed.

(** [simulate_to_time] on a cache miss of a linkage without a stored
    simulation function. *)
Lemma simulate_to_time_miss_eq (self : Linkage.t) (time : R) (h : heap) :
  0 <= time <= 1 ->
  cache_entry self (cache_time self time) = None ->
  simulation_function self = None ->
  simulate_to_time set_order self time h
  = match generate_simulation_function set_order self h with
    | Raise e => (Raise e, (with_cache self, h))
    | Ok fl =>
        match run_steps fl time h with
        | (Raise e, h') => (Raise e, (with_function self fl, h'))
        | (Ok _, h') =>
            match check_bars validity_margin h' (bars self) with
            | Raise e => (Raise e, (with_function self fl, h'))
            | Ok _ =>
                (Ok tt,
                 (set_cache (with_function self fl)
                    (Some (<[cache_time self time :=
                               cache_state (with_function self fl) h']>
                             (match cache self with Some c => c | None => ∅ end))),
                  h'))
            end
        end
    end.
Proof.
  intros Ht Hmiss Hnone. unfold simulate_to_time.
  rewrite bool_decide_eq_true_2 by exact Ht. cbn [negb]. rewrite Hmiss.
  unfold compiled_function. cbn [simulation_function set_cache]. rewrite Hnone.
  replace (generate_simulation_function set_order
             (set_cache self (Some (match cache self with Some c => c | None => ∅ end))) h)
    with (generate_simulation_function set_order self h) by reflexivity.
  destruct (generate_simulation_function set_order self h) as [fl|e]; [|reflexivity].
  unfold sim_function. cbn [bars set_simulation_function set_cache].
  destruct (run_steps fl time h) as [[[]|e] h1]; [|reflexivity].
  destruct (check_bars validity_margin h1 (bars self)) as [[]|e]; reflexivity.
Qed.

Lemma cache_state_det (self : Linkage.t) (h h' : heap) :
  (forall joint, joint ∈ joints self -> h !!! joint = h' !!! joint) ->
  cache_state self h = cache_state self h'.
Proof.
  intros Hag. apply map_eq. intros joint. apply option_eq. intros loc.
  rewrite !cache_state_lookup.
  split; intros (Hin & Hf & Hl); (split; [exact Hin|]);
    [rewrite <- (Hag joint Hin) | rewrite (Hag joint Hin)]; split; assumption.
Qed.

(** Two calls that miss the cache and compile, on linkages of the same
    topology and from stores that differ only in the locations of joints that
    are not fixed. *)
Lemma miss_det (self self' : Linkage.t) (time : R) (h h' : heap) :
  bars self = bars self' -> joints self = joints self' ->
  drivers self = drivers self' ->
  simulation_function self = None -> simulation_function self' = None ->
  cache_entry self (cache_time self time) = None ->
  cache_entry self' (cache_time self' time) = None ->
  (forall bar, bar ∈ bars self -> (length (Bar.joints bar) <= 3)%nat) ->
  (forall bar joint, bar ∈ bars self -> joint ∈ Bar.joints bar -> joint ∈ joints self) ->
  frame h h' ->
  let out := simulate_to_time set_order self time h in
  let out' := simulate_to_time set_order self' time h' in
  out.1 = out'.1 /\
  (out.1 = Ok tt ->
   forall joint, joint ∈ joints self -> out.2.2 !!! joint = out'.2.2 !!! joint) /\
  (self = self' -> out.2.1 = out'.2.1).
Proof.
  intros Hb Hj Hd Hnone Hnone' Hmiss Hmiss' Hsmall Hin Hfr out out'. subst out out'.
  assert (Hst : same_static h h').
  { intros joint. destruct (Hfr joint) as (Hl & Hf & Hc & _). repeat split; congruence. }
  destruct (decide (0 <= time <= 1)) as [Ht|Ht].
  2:{ unfold simulate_to_time. rewrite !bool_decide_eq_false_2 by exact Ht.
      cbn. split; [reflexivity|]. split; [discriminate | intros E; exact E]. }
  rewrite (simulate_to_time_miss_eq self time h Ht Hmiss Hnone).
  rewrite (simulate_to_time_miss_eq self' time h' Ht Hmiss' Hnone').
  rewrite <- (generate_static self self' h h' Hb Hj Hd Hst).
  destruct (generate_simulation_function set_order self h) as [fl|e] eqn:Hgen.
  2:{ cbn. split; [reflexivity|]. split; [discriminate | intros <-; reflexivity]. }
  destruct (generate_ordered self h fl Hsmall Hgen) as [Hord Hall].
  set (F := list_to_set (filter (fun j => Joint.fixed (h !!! j) = true) (joints self))
            : gset joint_id) in *.
  assert (HagF : agree_on F h h').
  { intros joint HF. apply elem_of_list_to_set, list_elem_of_filter in HF as [Hfx _].
    destruct (Hfr joint) as (_ & _ & _ & Heq). symmetry. apply Heq, Hfx. }
  destruct (run_steps_det fl time F h h' Hst HagF Hord) as (Hr & Hs & Ha).
  destruct (run_steps fl time h) as [r1 h1], (run_steps fl time h') as [r1' h1'].
  cbn [fst snd] in Hr, Hs, Ha. subst r1'.
  destruct r1 as [[]|e].
  2:{ cbn. split; [reflexivity|]. split; [discriminate | intros <-; reflexivity]. }
  specialize (Ha eq_refl).
  assert (Hjoints : forall joint, joint ∈ joints self -> h1 !!! joint = h1' !!! joint).
  { intros joint Hjn. apply Ha, Hall, elem_of_list_to_set, Hjn. }
  rewrite <- Hb.
  rewrite <- (check_bars_det validity_margin h1 h1' (bars self))
    by (intros bar joint Hbar Hjn; rewrite (Hjoints joint (Hin bar joint Hbar Hjn));
        reflexivity).
  destruct (check_bars validity_margin h1 (bars self)) as [[]|e].
  - cbn [fst snd]. split; [reflexivity|]. split; [intros _; exact Hjoints|].
    intros <-. rewrite (cache_state_det (with_function self fl) h1 h1' Hjoints).
    reflexivity.
  - cbn. split; [reflexivity|]. split; [discriminate | intros <-; reflexivity].
Qed.

(** X24: a call of [simulate_to_time] that finds no stored simulation
    function and no cache entry does not depend on where the joints that are
    not fixed were left.  For a validated linkage whose bars have at most
    three joints each, and two joint stores that differ only in the
    locations of joints that are not fixed, the two calls have the same
    outcome (they return, or raise the same exception), leave the same
    linkage object (cache and simulation function), and after a return every
    joint of the linkage is the same in both stores. *)
Theorem simulate_to_time_state_independent (self : Linkage.t) (time : R) (h h' : heap) :
  simulation_function self = None ->
  cache_entry self (cache_time self time) = None ->
  (forall bar, bar ∈ bars self -> (length (Bar.joints bar) <= 3)%nat) ->
  validity_check (bars self) (joints self) (drivers self) = Ok true ->
  frame h h' ->
  let out := simulate_to_time set_order self time h in
  let out' := simulate_to_time set_order self time h' in
  out.1 = out'.1 /\
  out.2.1 = out'.2.1 /\
  (out.1 = Ok tt ->
   forall joint, joint ∈ joints self -> out.2.2 !!! joint = out'.2.2 !!! joint).
Proof.
  intros Hnone Hmiss Hsmall Hvalid Hfr out out'.
  apply validity_check_Ok in Hvalid as [Hin _].
  destruct (miss_det self self time h h' eq_refl eq_refl eq_refl Hnone Hnone
              Hmiss Hmiss Hsmall Hin Hfr) as (H1 & H2 & H3).
  split; [exact H1|]. split; [exact (H3 eq_refl) | exact H2].
Qed.

(** X25: recomputation reproduces the run.  When a call on a validated
    linkage whose bars have at most three joints each compiles the pipeline,
    misses the cache and returns, then [invalidate_caches] followed by the
    same call returns too, and every joint of the linkage is as the first
    call left it. *)
Theorem recomputation_reproduces (self : Linkage.t) (time : R) (h : heap)
    (self1 : Linkage.t) (h1 : heap) :
  simulation_function self = None ->
  cache_entry self (cache_time self time) = None ->
  (forall bar, bar ∈ bars self -> (length (Bar.joints bar) <= 3)%nat) ->
  validity_check (bars self) (joints self) (drivers self) = Ok true ->
  simulate_to_time set_order self time h = (Ok tt, (self1, h1)) ->
  exists self2 h2,
    simulate_to_time set_order (invalidate_caches self1) time h1 = (Ok tt, (self2, h2)) /\
    forall joint, joint ∈ joints self -> h2 !!! joint = h1 !!! joint.
Proof.
  intros Hnone Hmiss Hsmall Hvalid Hsim.
  apply validity_check_Ok in Hvalid as [Hin _].
  destruct (simulate_to_time_miss_Ok set_order self time h self1 h1 Hmiss Hsim)
    as (fl & _ & Hrun & _ & Hself1).
  assert (Hfr : frame h h1).
  { pose proof (run_steps_frame fl time h) as Hf. rewrite Hrun in Hf. exact Hf. }
  destruct (miss_det self (invalidate_caches self1) time h h1) as (H1 & H2 & _);
    try (rewrite Hself1; reflexivity); try assumption.
  rewrite Hsim in H1, H2. cbn [fst snd] in H1, H2.
  destruct (simulate_to_time set_order (invalidate_caches self1) time h1)
    as [r [self2 h2]].
  cbn [fst snd] in H1, H2. subst r. exists self2, h2. split; [reflexivity|].
  intros joint Hj. symmetry. apply (H2 eq_refl joint Hj).
Qed.

End PipelineFacts.

End DeterminismFacts.


(** *** The beam: a bar of three joints with a free joint solved by extension *)

Section BeamExample.

Import Geometry Linkage Examples.

Lemma rod_state_frame (b d b' d' : option point) :
  frame (rod_state b d) (rod_state b' d').
Proof.
  intros joint. unfold rod_state.
  destruct joint as [|[|[|[|n]]]].
  1-4: repeat split; try reflexivity; intros H; vm_compute in H; discriminate H.
  rewrite !lookup_total_insert_ne by discriminate.
  repeat split.
Qed.

Lemma beam_compiled (b d : option point) (c : option (gmap Z snapshot)) :
  compiled_function descending
    (Linkage.mk [beam] [0%nat; 1%nat; 2%nat] [] c 10000 None) (rod_state b d)
  = Ok [ExtensionStep 1%nat beam [0%nat; 2%nat]].
Proof. vm_compute. reflexivity. Qed.

(** A run on the beam returns with B at (3,0), wherever B and D were. *)
Lemma beam_simulates (self : Linkage.t) (b d : option point) :
  bars self = [beam] -> joints self = [0%nat; 1%nat; 2%nat] ->
  drivers self = [] -> simulation_function self = None ->
  cache_entry self (cache_time self 0) = None ->
  exists self',
    simulate_to_time descending self 0 (rod_state b d)
    = (Ok tt, (self', rod_state (Some (3, 0)) d)).
Proof.
  intros Hb Hj Hd Hf Hmiss.
  destruct (simulate_to_time_miss descending self 0 (rod_state b d)) as [_ H];
    [lra | exact Hmiss |].
  assert (Hc : compiled_function descending self (rod_state b d)
               = Ok [ExtensionStep 1%nat beam [0%nat; 2%nat]]).
  { destruct self as [bs js ds c acc f]. cbn in Hb, Hj, Hd, Hf. subst bs js ds f.
    exact (beam_compiled b d c). }
  destruct (H _ Hc) as [_ H1].
  assert (Hrun : run_steps [ExtensionStep 1%nat beam [0%nat; 2%nat]] 0 (rod_state b d)
                 = (Ok tt, rod_state (Some (3, 0)) d)).
  { cbn [run_steps run_step].
    rewrite (run_extension_eval 1%nat 0%nat 2%nat beam _ _ (0, 0) (4, 0) (0 + 3) (0 + 3 + 1))
      by reflexivity.
    rewrite extend_B. reflexivity. }
  destruct (H1 _ Hrun) as [_ H2].
  eexists. apply H2. rewrite Hb. apply check_bars_ok. repeat constructor.
  - apply (within_margin_exact _ beam (0%nat, 1%nat) (0, 0) (3, 0) 0 (0 + 3) 3);
      try reflexivity; cbn [fst snd]; lra.
  - apply (within_margin_exact _ beam (1%nat, 2%nat) (3, 0) (4, 0) (0 + 3) (0 + 3 + 1) 1);
      try reflexivity; cbn [fst snd]; lra.
Qed.

Lemma beam_small (bar : Bar.t) :
  bar ∈ bars beam_linkage -> (length (Bar.joints bar) <= 3)%nat.
Proof.
  intros Hbar. apply list_elem_of_singleton in Hbar. subst bar. cbn. lia.
Qed.

End BeamExample.

Lemma cache_written_on_success_witness :
  exists self' entry,
    Linkage.simulate_to_time Examples.descending Examples.beam_linkage 0
      (Examples.rod_state None None)
    = (Ok tt, (self', Examples.rod_state (Some (3, 0)) None)) /\
    Linkage.cache_entry self' (Linkage.cache_time Examples.beam_linkage 0) = Some entry /\
    (forall joint loc,
       entry !! joint = Some loc <->
       joint ∈ Linkage.joints Examples.beam_linkage /\
       Joint.fixed (Examples.rod_state (Some (3, 0)) None !!! joint) = false /\
       loc = Joint.location (Examples.rod_state (Some (3, 0)) None !!! joint)) /\
    entry !! 1%nat = Some (Some (3, 0)) /\
    entry !! 0%nat = None /\
    (forall ct, ct <> Linkage.cache_time Examples.beam_linkage 0 ->
       Linkage.cache_entry self' ct = Linkage.cache_entry Examples.beam_linkage ct).
Proof.
  destruct (beam_simulates Examples.beam_linkage None None) as [self' Hsim];
    try reflexivity.
  destruct (cache_written_on_success Examples.descending Examples.beam_linkage 0
              (Examples.rod_state None None) self'
              (Examples.rod_state (Some (3, 0)) None)
              (fresh_cache_miss Examples.beam_linkage _ eq_refl) Hsim)
    as (entry & Hentry & Hcontent & Hothers).
  exists self', entry. split; [exact Hsim|]. split; [exact Hentry|].
  split; [exact Hcontent|]. split; [|split; [|exact Hothers]].
  - apply Hcontent. split; [|split; reflexivity].
    right. left.
  - destruct (entry !! 0%nat) as [loc|] eqn:H0; [|reflexivity].
    apply Hcontent in H0 as (_ & Hfixed & _). discriminate Hfixed.
Defined.

Lemma same_bucket_idempotent_witness :
  exists self1 h2,
    Linkage.simulate_to_time Examples.descending Examples.beam_linkage 0
      (Examples.rod_state None None)
    = (Ok tt, (self1, Examples.rod_state (Some (3, 0)) None)) /\
    Linkage.simulate_to_time Examples.descending self1 0.00001
      (Examples.rod_state (Some (3, 0)) None)
    = (Ok tt, (self1, h2)) /\
    forall joint, h2 !!! joint = Examples.rod_state (Some (3, 0)) None !!! joint.
Proof.
  destruct (beam_simulates Examples.beam_linkage None None) as [self1 Hsim];
    try reflexivity.
  destruct (same_bucket_idempotent Examples.descending Examples.beam_linkage 0 0.00001
              (Examples.rod_state None None) self1
              (Examples.rod_state (Some (3, 0)) None) Hsim) as (h2 & H2 & Hsame).
  - lra.
  - unfold Linkage.cache_time. cbn [Linkage.cache_accuraccy Examples.beam_linkage].
    rewrite !bucket_zero by lra. reflexivity.
  - exists self1, h2. split; [exact Hsim|]. split; [exact H2 | exact Hsame].
Defined.

Lemma simulate_to_time_state_independent_witness :
  (Linkage.simulate_to_time Examples.descending Examples.beam_linkage 0
     (Examples.rod_state (Some (4 / 5, 3 / 5)) None)).1
  = (Linkage.simulate_to_time Examples.descending Examples.beam_linkage 0
       (Examples.rod_state None (Some (7, 0)))).1 /\
  (Linkage.simulate_to_time Examples.descending Examples.beam_linkage 0
     (Examples.rod_state (Some (4 / 5, 3 / 5)) None)).2.1
  = (Linkage.simulate_to_time Examples.descending Examples.beam_linkage 0
       (Examples.rod_state None (Some (7, 0)))).2.1 /\
  ((Linkage.simulate_to_time Examples.descending Examples.beam_linkage 0
      (Examples.rod_state (Some (4 / 5, 3 / 5)) None)).1 = Ok tt ->
   forall joint, joint ∈ Linkage.joints Examples.beam_linkage ->
     (Linkage.simulate_to_time Examples.descending Examples.beam_linkage 0
        (Examples.rod_state (Some (4 / 5, 3 / 5)) None)).2.2 !!! joint
     = (Linkage.simulate_to_time Examples.descending Examples.beam_linkage 0
          (Examples.rod_state None (Some (7, 0)))).2.2 !!! joint).
Proof.
  apply (simulate_to_time_state_independent Examples.descending Examples.beam_linkage 0
           (Examples.rod_state (Some (4 / 5, 3 / 5)) None)
           (Examples.rod_state None (Some (7, 0)))).
  - reflexivity.
  - apply fresh_cache_miss. reflexivity.
  - exact beam_small.
  - reflexivity.
  - apply rod_state_frame.
Defined.

Lemma recomputation_reproduces_witness :
  exists self1 self2 h2,
    Linkage.simulate_to_time Examples.descending Examples.beam_linkage 0
      (Examples.rod_state None None)
    = (Ok tt, (self1, Examples.rod_state (Some (3, 0)) None)) /\
    Linkage.simulate_to_time Examples.descending (Linkage.invalidate_caches self1) 0
      (Examples.rod_state (Some (3, 0)) None)
    = (Ok tt, (self2, h2)) /\
    forall joint, joint ∈ Linkage.joints Examples.beam_linkage ->
      h2 !!! joint = Examples.rod_state (Some (3, 0)) None !!! joint.
Proof.
  destruct (beam_simulates Examples.beam_linkage None None) as [self1 Hsim];
    try reflexivity.
  destruct (recomputation_reproduces Examples.descending Examples.beam_linkage 0
              (Examples.rod_state None None) self1
              (Examples.rod_state (Some (3, 0)) None)) as (self2 & h2 & H2 & Hj).
  - reflexivity.
  - apply fresh_cache_miss. reflexivity.
  - exact beam_small.
  - reflexivity.
  - exact Hsim.
  - exists self1, self2, h2. split; [exact Hsim|]. split; [exact H2 | exact Hj].
Defined.


(* ------------------------------------------------------------------------- *)
(** ** linkage.py: the shape of the compiled function list *)

Section PipelineShapeFacts.

Import Geometry Linkage.

Variable set_order : gset joint_id -> list joint_id.

Lemma solvers_for_joint_solver (all_bars : list Bar.t) (joint : joint_id) :
  Forall solver_candidate (solvers_for_joint set_order all_bars joint).
Proof.
  unfold solvers_for_joint. cbv zeta.
  assert (Hext : forall bars',
            Forall solver_candidate
              (flat_map
                 (fun bar =>
                    let other_joints := list_remove joint (Bar.joints bar) in
                    map (fun pair : joint_id * joint_id =>
                           (({[pair.1; pair.2]} : gset joint_id), joint,
                            solver_for_joint_on_bar_given_joints joint bar other_joints))
                        (combinations other_joints))
                 bars')).
  { intros bars'. apply Forall_forall. intros c Hc.
    apply list_elem_of_In, in_flat_map in Hc. destruct Hc as (bar & _ & Hc).
    cbv zeta in Hc. apply in_map_iff in Hc as (pair & <- & _).
    split; cbn [fst snd]; [reflexivity | discriminate]. }
  destruct (length (bars_connected_to_joint all_bars joint) <? 2)%nat; [apply Hext|].
  apply Forall_app. split; [apply Hext|].
  apply Forall_forall. intros c Hc. apply list_elem_of_In, in_flat_map in Hc.
  destruct Hc as (bar_pair & _ & Hc). apply in_map_iff in Hc as (jp & <- & _).
  split; cbn [fst snd]; [reflexivity | discriminate].
Qed.

Lemma all_solvers_solver (bars : list Bar.t) (joints : list joint_id)
    (solved : gset joint_id) :
  Forall solver_candidate (all_solvers set_order bars joints solved).
Proof.
  unfold all_solvers. apply Forall_forall. intros c Hc.
  apply list_elem_of_In, in_flat_map in Hc. destruct Hc as (joint & _ & Hc).
  pose proof (solvers_for_joint_solver bars joint) as Hs.
  rewrite Forall_forall in Hs. apply Hs, list_elem_of_In, Hc.
Qed.

Lemma pass_step_written (ds : list Driver.t) (solved0 : gset joint_id)
    (st : pass_state) (c : candidate) :
  solver_candidate c ->
  written_inv ds solved0 (kept st, function_list st, solved_joints st) ->
  written_inv ds solved0
    (kept (pass_step st c), function_list (pass_step st c),
     solved_joints (pass_step st c)).
Proof.
  intros Hc [(ss & Hfl & Hnd & Hnew & Hsolv & Hsolved) Hkept].
  cbn [fst snd] in *. destruct c as [[rq joint] f].
  pose proof Hc as [Hw Hnd']. cbn [fst snd] in Hw, Hnd'.
  assert (Hkeep : Forall solver_candidate (kept st ++ [(rq, joint, f)])).
  { apply Forall_app. split; [exact Hkept|]. constructor; [exact Hc | constructor]. }
  unfold pass_step.
  destruct (decide (rq ⊆ solved_joints st)) as [Hrq|Hrq];
    [destruct (decide (joint ∈ solved_joints st)) as [Hin|Hin]|];
    unfold written_inv; cbn [kept function_list solved_joints fst snd].
  - split; [|exact Hkeep]. exists ss. repeat split; assumption.
  - split; [|exact Hkept]. exists (ss ++ [f]).
    assert (Hfresh : (joint ∉ solved0) /\ (joint ∉ map writes ss)).
    { rewrite Hsolved in Hin. split; intros H; apply Hin.
      - apply elem_of_union_l, H.
      - apply elem_of_union_r, elem_of_list_to_set, H. }
    destruct Hfresh as [Hf0 Hfs].
    rewrite map_app. cbn [map]. rewrite Hw.
    split; [rewrite Hfl, app_assoc; reflexivity|].
    split; [|split; [|split]].
    + apply NoDup_app. split; [exact Hnd|]. split.
      * intros x Hx Hx'. apply list_elem_of_singleton in Hx'. subst x. exact (Hfs Hx).
      * apply NoDup_singleton.
    + intros x Hx. apply elem_of_app in Hx as [Hx|Hx]; [apply Hnew, Hx|].
      apply list_elem_of_singleton in Hx. subst x. exact Hf0.
    + apply Forall_app. split; [exact Hsolv|]. constructor; [exact Hnd' | constructor].
    + rewrite Hsolved, list_to_set_app_L. cbn [list_to_set].
      apply set_eq. intros x. rewrite !elem_of_union, elem_of_singleton, elem_of_empty.
      tauto.
  - split; [|exact Hkeep]. exists ss. repeat split; assumption.
Qed.

Lemma fold_pass_step_written (ds : list Driver.t) (solved0 : gset joint_id)
    (reqs : list candidate) :
  forall st,
    Forall solver_candidate reqs ->
    written_inv ds solved0 (kept st, function_list st, solved_joints st) ->
    let st' := fold_left pass_step reqs st in
    written_inv ds solved0 (kept st', function_list st', solved_joints st').
Proof.
  induction reqs as [|c reqs IH]; intros st Hs Hinv; cbn [fold_left]; [exact Hinv|].
  inversion Hs as [|? ? Hc Hrest]; subst.
  apply IH; [exact Hrest|]. apply pass_step_written; assumption.
Qed.

Lemma pass_written (ds : list Driver.t) (solved0 : gset joint_id)
    (reqs : list candidate) (fl : list step) (solved : gset joint_id) :
  written_inv ds solved0 (reqs, fl, solved) ->
  written_inv ds solved0
    (kept (pass reqs fl solved), function_list (pass reqs fl solved),
     solved_joints (pass reqs fl solved)).
Proof.
  intros [Hex Hs]. cbn [fst snd] in *. unfold pass.
  apply (fold_pass_step_written ds solved0 reqs (mk_pass false fl solved []));
    [exact Hs|].
  split; [exact Hex | constructor].
Qed.

Lemma rounds_written (ds : list Driver.t) (solved0 all_joints : gset joint_id)
    (s s' : loop_state) :
  rounds all_joints s s' -> written_inv ds solved0 s -> written_inv ds solved0 s'.
Proof.
  induction 1 as [s|reqs fl solved s' Hne Hrs Hrounds IH]; intros Hinv; [exact Hinv|].
  apply IH, pass_written, Hinv.
Qed.

(** X26: the function list that [generate_simulation_function] returns is
    the updates of the drivers, in the order of [self.drivers], followed by
    solver closures that assign pairwise distinct joints: every joint of the
    linkage that is neither fixed nor attached to a driver is assigned by
    exactly one of them, and no joint that is fixed or attached to a driver
    is assigned by any. *)
Theorem compiled_pipeline_shape (self : Linkage.t) (h : heap) (fl : list step) :
  generate_simulation_function set_order self h = Ok fl ->
  exists solvers,
    fl = map DriverStep (drivers self) ++ solvers /\
    Forall (fun f => forall d, f <> DriverStep d) solvers /\
    NoDup (map writes solvers) /\
    (forall joint, joint ∈ map writes solvers ->
       joint ∉ initial_solved h (joints self) (drivers self)) /\
    (forall joint,
       joint ∈ joints self <->
       joint ∈ initial_solved h (joints self) (drivers self) \/
       joint ∈ map writes solvers).
Proof.
  intros Hgen.
  pose proof (generate_outcome set_order self h) as Hout. cbv zeta in Hout.
  destruct Hout as (reqs & fl1 & solved & Hrounds & [[Hall Hok]|(_ & _ & _ & Hraise)]);
    [|rewrite Hraise in Hgen; discriminate].
  rewrite Hok in Hgen. injection Hgen as <-.
  set (solved0 := initial_solved h (joints self) (drivers self)) in *.
  assert (Hinv : written_inv (drivers self) solved0 (reqs, fl1, solved)).
  { apply (rounds_written _ _ _ _ _ Hrounds). split; cbn [fst snd].
    - exists []. rewrite app_nil_r. cbn [map list_to_set].
      split; [reflexivity|]. split; [constructor|].
      split; [intros joint Hj; inversion Hj|]. split; [constructor|].
      apply set_eq. intros x. rewrite elem_of_union, elem_of_empty. tauto.
    - apply all_solvers_solver. }
  apply pass_written in Hinv.
  destruct Hinv as [(ss & Hfl & Hnd & Hnew & Hsolv & Hsolved) _]. cbn [fst snd] in *.
  exists ss. split; [exact Hfl|]. split; [exact Hsolv|]. split; [exact Hnd|].
  split; [exact Hnew|].
  intros joint. rewrite <- (elem_of_list_to_set (C := gset joint_id) joint (joints self)).
  rewrite <- Hall, Hsolved, elem_of_union, elem_of_list_to_set. reflexivity.
Qed.

Lemma ordered_lookup (fl : list step) :
  forall (K : gset joint_id) (i : nat) (f : step) (joint : joint_id),
    ordered K fl -> fl !! i = Some f -> joint ∈ reads f ->
    joint ∈ K \/ exists k g, (k < i)%nat /\ fl !! k = Some g /\ writes g = joint.
Proof.
  induction fl as [|g fl IH]; intros K i f joint Hord Hi Hj; [discriminate|].
  destruct Hord as [Hg Hrest]. destruct i as [|i]; cbn in Hi.
  - injection Hi as ->. left. apply Hg, Hj.
  - destruct (IH _ i f joint Hrest Hi Hj) as [HK|(k & g' & Hk & Hg' & Hw)].
    + apply elem_of_union in HK as [HK|HK]; [left; exact HK|].
      apply elem_of_singleton in HK. right. exists 0%nat, g.
      split; [lia|]. split; [reflexivity | congruence].
    + right. exists (S k), g'. split; [lia|]. split; assumption.
Qed.

(** X27: on bars of at most three joints, the function list that
    [generate_simulation_function] returns is in dependency order: a joint
    that a step reads is a fixed joint of the linkage or the joint that an
    earlier step of the list assigns. *)
Theorem compiled_pipeline_ordered (self : Linkage.t) (h : heap) (fl : list step)
    (i : nat) (f : step) (joint : joint_id) :
  (forall bar, bar ∈ bars self -> (length (Bar.joints bar) <= 3)%nat) ->
  generate_simulation_function set_order self h = Ok fl ->
  fl !! i = Some f -> joint ∈ reads f ->
  (joint ∈ joints self /\ Joint.fixed (h !!! joint) = true) \/
  exists k g, (k < i)%nat /\ fl !! k = Some g /\ writes g = joint.
Proof.
  intros Hsmall Hgen Hi Hj.
  destruct (generate_ordered set_order self h fl Hsmall Hgen) as [Hord _].
  destruct (ordered_lookup fl _ i f joint Hord Hi Hj) as [HF|Hk]; [left | right; exact Hk].
  apply elem_of_list_to_set, list_elem_of_filter in HF as [Hfx Hin]. split; assumption.
Qed.

End PipelineShapeFacts.

Lemma compiled_pipeline_shape_witness :
  exists solvers,
    [Linkage.ExtensionStep 1%nat Examples.beam [0%nat; 2%nat]]
    = map Linkage.DriverStep (Linkage.drivers Examples.beam_linkage) ++ solvers /\
    Forall (fun f => forall d, f <> Linkage.DriverStep d) solvers /\
    NoDup (map Linkage.writes solvers) /\
    (forall joint, joint ∈ map Linkage.writes solvers ->
       joint ∉ Linkage.initial_solved (Examples.rod_state None None)
                 (Linkage.joints Examples.beam_linkage)
                 (Linkage.drivers Examples.beam_linkage)) /\
    (forall joint,
       joint ∈ Linkage.joints Examples.beam_linkage <->
       joint ∈ Linkage.initial_solved (Examples.rod_state None None)
                 (Linkage.joints Examples.beam_linkage)
                 (Linkage.drivers Examples.beam_linkage) \/
       joint ∈ map Linkage.writes solvers).
Proof.
  apply (compiled_pipeline_shape Examples.descending Examples.beam_linkage
           (Examples.rod_state None None)).
  exact (beam_compiled None None (Some ∅)).
Defined.

Lemma compiled_pipeline_ordered_witness :
  (0%nat ∈ Linkage.joints Examples.beam_linkage /\
   Joint.fixed (Examples.rod_state None None !!! 0%nat) = true) \/
  exists k g, (k < 0)%nat /\
    [Linkage.ExtensionStep 1%nat Examples.beam [0%nat; 2%nat]] !! k = Some g /\
    Linkage.writes g = 0%nat.
Proof.
  apply (compiled_pipeline_ordered Examples.descending Examples.beam_linkage
           (Examples.rod_state None None)
           [Linkage.ExtensionStep 1%nat Examples.beam [0%nat; 2%nat]] 0%nat
           (Linkage.ExtensionStep 1%nat Examples.beam [0%nat; 2%nat]) 0%nat).
  - exact beam_small.
  - exact (beam_compiled None None (Some ∅)).
  - reflexivity.
  - cbn. apply elem_of_union_l, elem_of_singleton. reflexivity.
Defined.


(* ------------------------------------------------------------------------- *)
(** ** linkage.py: [translate] *)

Section TranslateFacts.

Import Geometry Linkage.

Lemma iter_shift_S (dx dy : R) (n : nat) (p : point) :
  Nat.iter n (shift dx dy) (shift dx dy p) = Nat.iter (S n) (shift dx dy) p.
Proof. apply Nat.iter_swap. Qed.

(** A fixed joint is an object of the store: the blank joint is not fixed. *)
Lemma fixed_lookup (h : heap) (joint : joint_id) :
  Joint.fixed (h !!! joint) = true -> h !! joint = Some (h !!! joint).
Proof.
  rewrite lookup_total_alt. destruct (h !! joint); [reflexivity | discriminate].
Qed.

(** The second loop of [translate] when it returns: a joint of the list is
    moved once for each of its occurrences; every other joint is as it
    was. *)
Lemma translate_joints_Ok (dx dy : R) (js : list joint_id) :
  forall (h h' : heap),
    translate_joints dx dy js h = (Ok tt, h') ->
    forall joint,
      (joint ∉ js -> h' !! joint = h !! joint) /\
      (joint ∈ js ->
       exists x p,
         h !! joint = Some x /\ Joint.fixed x = true /\ Joint.location x = Some p /\
         h' !! joint
         = Some (Joint.mk (Joint.label x)
                          (Some (Nat.iter (count_occ Nat.eq_dec js joint) (shift dx dy) p))
                          true (Joint.chooser x))).
Proof.
  induction js as [|j0 js IH]; intros h h' Hrun joint.
  - cbn in Hrun. injection Hrun as <-. split; [reflexivity|]. intros H. inversion H.
  - cbn [translate_joints] in Hrun.
    destruct (Joint.location (h !!! j0)) as [p0|] eqn:Hloc; [|discriminate].
    unfold Joint.reset_fixed_location in Hrun.
    destruct (Joint.fixed (h !!! j0)) eqn:Hfix; cbn [negb] in Hrun; [|discriminate].
    pose proof (fixed_lookup h j0 Hfix) as Hj0.
    destruct (IH _ _ Hrun joint) as [Hout Hin]. split.
    + intros Hn. apply not_elem_of_cons in Hn as [Hne Hn].
      rewrite (Hout Hn). apply lookup_insert_ne. congruence.
    + intros Hj. cbn [count_occ].
      destruct (Nat.eq_dec j0 joint) as [<-|Hne].
      * exists (h !!! j0), p0. split; [exact Hj0|]. split; [exact Hfix|].
        split; [exact Hloc|].
        destruct (decide (j0 ∈ js)) as [Hmem|Hmem].
        -- destruct (Hin Hmem) as (x & p & Hx & _ & Hp & Hres).
           rewrite lookup_insert_eq in Hx. injection Hx as <-.
           cbn [Joint.location Joint.label Joint.chooser] in Hp, Hres.
           injection Hp as <-. rewrite Hres, iter_shift_S. reflexivity.
        -- rewrite (Hout Hmem), lookup_insert_eq.
           rewrite (proj1 (count_occ_not_In Nat.eq_dec js j0))
             by (intros HI; apply Hmem, list_elem_of_In, HI).
           reflexivity.
      * apply elem_of_cons in Hj as [->|Hj]; [contradiction|].
        destruct (Hin Hj) as (x & p & Hx & Hf & Hp & Hres).
        rewrite lookup_insert_ne in Hx by exact Hne.
        exists x, p. repeat split; assumption.
Qed.

(** The loop returns when every joint of the list is fixed and has a
    location. *)
Lemma translate_joints_returns (dx dy : R) (js : list joint_id) :
  forall h,
    (forall joint, joint ∈ js ->
       Joint.fixed (h !!! joint) = true /\ Joint.location (h !!! joint) <> None) ->
    exists h', translate_joints dx dy js h = (Ok tt, h').
Proof.
  induction js as [|j0 js IH]; intros h Hpre; cbn [translate_joints].
  - exists h. reflexivity.
  - destruct (Hpre j0) as [Hfix Hloc]; [left|].
    destruct (Joint.location (h !!! j0)) as [p0|]; [|contradiction].
    unfold Joint.reset_fixed_location. rewrite Hfix. cbn [negb].
    apply IH. intros joint Hj. destruct (decide (j0 = joint)) as [<-|Hne].
    + rewrite lookup_total_insert_eq. cbn. split; [reflexivity | discriminate].
    + rewrite lookup_total_insert_ne by exact Hne. apply Hpre. right. exact Hj.
Qed.

(** It raises [TypeError], at the first joint of the list without a
    location, and nothing else, on a list of fixed joints. *)
Lemma translate_joints_raises (dx dy : R) (js : list joint_id) :
  forall h,
    (forall joint, joint ∈ js -> Joint.fixed (h !!! joint) = true) ->
    (exists joint, joint ∈ js /\ Joint.location (h !!! joint) = None) ->
    exists h', translate_joints dx dy js h = (Raise TypeError, h').
Proof.
  induction js as [|j0 js IH]; intros h Hfixed (joint & Hj & Hnone).
  - inversion Hj.
  - cbn [translate_joints].
    destruct (Joint.location (h !!! j0)) as [p0|] eqn:Hloc; [|eexists; reflexivity].
    unfold Joint.reset_fixed_location. rewrite (Hfixed j0) by left. cbn [negb].
    apply IH.
    + intros j' Hj'. destruct (decide (j0 = j')) as [<-|Hne].
      * rewrite lookup_total_insert_eq. reflexivity.
      * rewrite lookup_total_insert_ne by exact Hne. apply Hfixed. right. exact Hj'.
    + exists joint. apply elem_of_cons in Hj as [->|Hj]; [congruence|].
      split; [exact Hj|]. destruct (decide (j0 = joint)) as [<-|Hne]; [congruence|].
      rewrite lookup_total_insert_ne by exact Hne. exact Hnone.
Qed.

(** X29: what [translate] does and when it fails.  It returns exactly when
    every fixed joint of [self.joints] has a location, and raises
    [TypeError] otherwise.  When it returns, bars, joints, cache and cache
    accuracy are as before, a joint that is not a fixed joint of the linkage
    is untouched, and a fixed joint of the linkage keeps label, flag and
    chooser and is moved by [(dx, dy)] once for each of its occurrences in
    [self.joints]. *)
Theorem translate_outcome (self : Linkage.t) (dx dy : R) (h : heap) :
  let fixed_joints := filter (fun j => Joint.fixed (h !!! j) = true) (joints self) in
  let out := translate self dx dy h in
  ((forall joint, joint ∈ fixed_joints -> Joint.location (h !!! joint) <> None) ->
   out.1 = Ok tt /\
   bars out.2.1 = bars self /\ joints out.2.1 = joints self /\
   cache out.2.1 = cache self /\ cache_accuraccy out.2.1 = cache_accuraccy self /\
   forall joint,
     (joint ∉ fixed_joints -> out.2.2 !! joint = h !! joint) /\
     (joint ∈ fixed_joints ->
      exists p,
        Joint.location (h !!! joint) = Some p /\
        out.2.2 !!! joint
        = Joint.mk (Joint.label (h !!! joint))
            (Some (Nat.iter (count_occ Nat.eq_dec fixed_joints joint) (shift dx dy) p))
            true (Joint.chooser (h !!! joint)))) /\
  ((exists joint, joint ∈ fixed_joints /\ Joint.location (h !!! joint) = None) ->
   out.1 = Raise TypeError).
Proof.
  intros fixed_joints out. subst out. unfold translate. fold fixed_joints.
  assert (Hfixed : forall joint, joint ∈ fixed_joints -> Joint.fixed (h !!! joint) = true).
  { intros joint Hj. apply list_elem_of_filter in Hj as [Hf _]. exact Hf. }
  split.
  - intros Hloc.
    destruct (translate_joints_returns dx dy fixed_joints h) as [h1 Hrun].
    { intros joint Hj. split; [apply Hfixed, Hj | apply Hloc, Hj]. }
    rewrite Hrun. cbn [fst snd bars joints cache cache_accuraccy].
    repeat (split; [reflexivity|]).
    intros joint. destruct (translate_joints_Ok dx dy _ h h1 Hrun joint) as [Hout Hin].
    split; [exact Hout|]. intros Hj.
    destruct (Hin Hj) as (x & p & Hx & _ & Hp & Hres).
    exists p. rewrite (lookup_total_correct _ _ _ Hx). split; [exact Hp|].
    apply lookup_total_correct, Hres.
  - intros Hex.
    destruct (translate_joints_raises dx dy fixed_joints h Hfixed Hex) as [h1 Hrun].
    rewrite Hrun. reflexivity.
Qed.

End TranslateFacts.


(* ------------------------------------------------------------------------- *)
(** ** linkage.py: what [copy] returns *)

Section CopyResultFacts.

Import Linkage.

Variable set_order : gset joint_id -> list joint_id.
Variable driver_order : gset nat -> list nat.

Lemma clone_joint_cloned (joint_indic : string) (st : clone_state) (j : joint_id) :
  let newj := fresh (dom (clone_store st) ∪ list_to_set (clone_joints st)
                     ∪ dom (clone_mapping st) ∪ {[j]}) in
  clone_joint joint_indic st j
  = mk_clone (<[newj := cloned_joint joint_indic (clone_store st !!! j)]> (clone_store st))
             (clone_joints st ++ [newj]) (<[j := newj]> (clone_mapping st)).
Proof. reflexivity. Qed.

(** One iteration of the loop of lines 250-254. *)
Lemma clone_joint_inv (h0 : heap) (shared : list joint_id) (joint_indic : string)
    (done clones : list joint_id) (st : clone_state) (j : joint_id) :
  clone_inv h0 shared joint_indic done clones st ->
  j ∉ shared -> j ∉ done -> is_Some (h0 !! j) ->
  exists newj,
    clone_inv h0 shared joint_indic (done ++ [j]) (clones ++ [newj])
              (clone_joint joint_indic st j).
Proof.
  intros [Hstore Hjoints Hshared Hcloned Hdom Hinj Hfresh] HjS HjP [x Hx].
  rewrite clone_joint_cloned. cbv zeta.
  set (newj := fresh (dom (clone_store st) ∪ list_to_set (clone_joints st)
                      ∪ dom (clone_mapping st) ∪ {[j]})).
  pose proof (is_fresh (dom (clone_store st) ∪ list_to_set (clone_joints st)
                        ∪ dom (clone_mapping st) ∪ {[j]})) as Hnew.
  fold newj in Hnew.
  assert (Hn1 : clone_store st !! newj = None).
  { apply not_elem_of_dom. intros H. apply Hnew.
    apply elem_of_union_l, elem_of_union_l, elem_of_union_l, H. }
  assert (Hn2 : newj ∉ shared ++ clones).
  { intros H. apply Hnew. apply elem_of_union_l, elem_of_union_l, elem_of_union_r.
    apply elem_of_list_to_set. rewrite Hjoints. exact H. }
  assert (Hn3 : clone_mapping st !! newj = None).
  { apply not_elem_of_dom. intros H. apply Hnew.
    apply elem_of_union_l, elem_of_union_r, H. }
  assert (Hn4 : newj <> j).
  { intros H. apply Hnew. apply elem_of_union_r, elem_of_singleton, H. }
  assert (HnS : newj ∉ shared) by (intros H; apply Hn2, elem_of_app; left; exact H).
  assert (Hncl : newj ∉ clones) by (intros H; apply Hn2, elem_of_app; right; exact H).
  assert (Hold : clone_store st !!! j = h0 !!! j).
  { rewrite (lookup_total_correct _ _ _ (Hstore j x Hx)).
    rewrite (lookup_total_correct _ _ _ Hx). reflexivity. }
  exists newj. constructor; cbn [clone_store clone_joints clone_mapping].
  - intros j0 x0 H0. rewrite lookup_insert_ne; [apply Hstore, H0|].
    intros E. subst j0. rewrite (Hstore _ _ H0) in Hn1. discriminate.
  - rewrite Hjoints, app_assoc. reflexivity.
  - intros j0 H0. rewrite lookup_insert_ne by congruence. apply Hshared, H0.
  - intros j0 H0. apply elem_of_app in H0 as [H0|H0].
    + destruct (Hcloned j0 H0) as (j' & Hm & Hcl & Hst).
      exists j'. rewrite lookup_insert_ne by congruence.
      split; [exact Hm|]. split; [apply elem_of_app; left; exact Hcl|].
      rewrite lookup_insert_ne by congruence. exact Hst.
    + apply list_elem_of_singleton in H0. subst j0. exists newj.
      rewrite !lookup_insert_eq. split; [reflexivity|].
      split; [apply elem_of_app; right; apply list_elem_of_singleton; reflexivity|].
      rewrite Hold. reflexivity.
  - intros j0 j' Hm. destruct (decide (j = j0)) as [<-|Hne].
    + rewrite lookup_insert_eq in Hm. injection Hm as <-. right.
      split; [apply elem_of_app; right; apply list_elem_of_singleton; reflexivity|].
      split; [exact HjS|]. apply elem_of_app. right.
      apply list_elem_of_singleton. reflexivity.
    + rewrite lookup_insert_ne in Hm by exact Hne.
      destruct (Hdom j0 j' Hm) as [H|(Hd & Hs & Hc)]; [left; exact H|].
      right. split; [apply elem_of_app; left; exact Hd|].
      split; [exact Hs|]. apply elem_of_app. left. exact Hc.
  - assert (Hnot : forall j0, clone_mapping st !! j0 = Some newj -> False).
    { intros j0 Hm. destruct (Hdom j0 newj Hm) as [[Hs ->]|(_ & _ & Hc)];
        [exact (HnS Hs) | exact (Hncl Hc)]. }
    intros j1 j2 j' H1 H2.
    destruct (decide (j = j1)) as [<-|Hne1], (decide (j = j2)) as [<-|Hne2].
    + reflexivity.
    + rewrite lookup_insert_eq in H1. injection H1 as <-.
      rewrite lookup_insert_ne in H2 by exact Hne2. destruct (Hnot _ H2).
    + rewrite lookup_insert_eq in H2. injection H2 as <-.
      rewrite lookup_insert_ne in H1 by exact Hne1. destruct (Hnot _ H1).
    + rewrite lookup_insert_ne in H1 by exact Hne1.
      rewrite lookup_insert_ne in H2 by exact Hne2. exact (Hinj _ _ _ H1 H2).
  - intros j' Hj'. apply elem_of_app in Hj' as [Hj'|Hj'].
    + destruct (Hfresh j' Hj') as (Hh & Hs & j0 & Hd & Hm).
      split; [exact Hh|]. split; [exact Hs|]. exists j0.
      split; [apply elem_of_app; left; exact Hd|].
      rewrite lookup_insert_ne; [exact Hm|]. intros E. subst j0. exact (HjP Hd).
    + apply list_elem_of_singleton in Hj'. subst j'.
      split.
      { destruct (h0 !! newj) as [y|] eqn:Hy; [|reflexivity].
        rewrite (Hstore _ _ Hy) in Hn1. discriminate. }
      split; [exact HnS|]. exists j.
      split; [apply elem_of_app; right; apply list_elem_of_singleton; reflexivity|].
      apply lookup_insert_eq.
Qed.

(** The loop of lines 250-254 over a list of distinct joints of the store
    that are not shared. *)
Lemma clone_joints_inv (h0 : heap) (shared : list joint_id) (joint_indic : string)
    (todo : list joint_id) :
  forall (done clones : list joint_id) (st : clone_state),
    clone_inv h0 shared joint_indic done clones st ->
    NoDup todo ->
    (forall j, j ∈ todo -> (j ∉ shared) /\ (j ∉ done) /\ is_Some (h0 !! j)) ->
    exists clones',
      clone_inv h0 shared joint_indic (done ++ todo) clones'
                (fold_left (clone_joint joint_indic) todo st).
Proof.
  induction todo as [|j todo IH]; intros done clones st Hinv Hnd Hpre.
  - exists clones. rewrite app_nil_r. exact Hinv.
  - apply NoDup_cons in Hnd as [Hj Hnd].
    destruct (Hpre j) as (HjS & HjP & Hsome); [left|].
    destruct (clone_joint_inv _ _ _ _ _ _ j Hinv HjS HjP Hsome) as [newj Hinv'].
    cbn [fold_left].
    destruct (IH _ _ _ Hinv' Hnd) as [clones' Hfin].
    + intros j0 H0. destruct (Hpre j0) as (H1 & H2 & H3); [right; exact H0|].
      split; [exact H1|]. split; [|exact H3].
      intros H. apply elem_of_app in H as [H|H]; [exact (H2 H)|].
      apply list_elem_of_singleton in H. subst j0. exact (Hj H0).
    + exists clones'. rewrite <- app_assoc in Hfin. exact Hfin.
Qed.

(** The dictionary [mapping] after the loop of lines 247-248. *)
Lemma shared_mapping_lookup (shared : list joint_id) :
  forall (m : gmap joint_id joint_id) (j : joint_id),
    fold_left (fun (m : gmap joint_id joint_id) j => <[j := j]> m) shared m !! j
    = if decide (j ∈ shared) then Some j else m !! j.
Proof.
  induction shared as [|s shared IH]; intros m j; cbn [fold_left].
  - destruct (decide (j ∈ [])) as [H|_]; [inversion H | reflexivity].
  - rewrite IH. destruct (decide (j ∈ shared)) as [Hin|Hin].
    + rewrite decide_True by (right; exact Hin). reflexivity.
    + destruct (decide (s = j)) as [->|Hne].
      * rewrite decide_True by left. apply lookup_insert_eq.
      * rewrite decide_False.
        -- apply lookup_insert_ne, Hne.
        -- intros H. apply elem_of_cons in H as [H|H]; [congruence | exact (Hin H)].
Qed.

Lemma clone_inv_start (h0 : heap) (shared : list joint_id) (joint_indic : string) :
  clone_inv h0 shared joint_indic [] []
    (mk_clone h0 shared
       (fold_left (fun (m : gmap joint_id joint_id) j => <[j := j]> m) shared ∅)).
Proof.
  constructor; cbn [clone_store clone_joints clone_mapping].
  - intros j x H. exact H.
  - rewrite app_nil_r. reflexivity.
  - intros j Hj. rewrite shared_mapping_lookup, decide_True by exact Hj. reflexivity.
  - intros j Hj. inversion Hj.
  - intros j j' Hm. rewrite shared_mapping_lookup in Hm.
    destruct (decide (j ∈ shared)) as [Hin|Hin]; [|rewrite lookup_empty in Hm; discriminate].
    injection Hm as <-. left. split; [exact Hin | reflexivity].
  - intros j1 j2 j' H1 H2. rewrite shared_mapping_lookup in H1, H2.
    destruct (decide (j1 ∈ shared)); [|rewrite lookup_empty in H1; discriminate].
    destruct (decide (j2 ∈ shared)); [|rewrite lookup_empty in H2; discriminate].
    congruence.
  - intros j' Hj'. inversion Hj'.
Qed.

(** The loop of lines 267-270 when every driver to clone is attached to a
    joint of [mapping]. *)
Lemma clone_drivers_spec (mapping : gmap joint_id joint_id) (to_clone : list Driver.t) :
  forall (oid : nat) (acc : list Driver.t),
    (forall d, d ∈ to_clone -> is_Some (mapping !! Driver.attachment_joint d)) ->
    exists clones,
      clone_drivers mapping oid to_clone acc
      = (Ok (acc ++ clones), (oid + length to_clone)%nat) /\
      Forall2 (cloned_driver mapping) clones to_clone.
Proof.
  induction to_clone as [|d to_clone IH]; intros oid acc Hpre; cbn [clone_drivers length].
  - exists []. rewrite app_nil_r, Nat.add_0_r. split; [reflexivity | constructor].
  - destruct (Hpre d) as [newj Hnewj]; [left|]. rewrite Hnewj.
    destruct (IH (S oid)
                (acc ++ [Driver.mk oid (Driver.label d) (Driver.location d) newj
                                   (Driver.speed d) (Driver.kind d)])) as (clones & Hrun & Hrel).
    { intros d0 H0. apply Hpre. right. exact H0. }
    eexists (_ :: clones). rewrite Hrun, <- app_assoc. cbn [app].
    split; [f_equal; lia|]. constructor; [|exact Hrel].
    repeat split. exact Hnewj.
Qed.

Hypothesis set_order_enumerates :
  forall s, NoDup (set_order s) /\ forall j, j ∈ set_order s <-> j ∈ s.
Hypothesis driver_order_enumerates :
  forall s o, o ∈ driver_order s <-> o ∈ s.

(** X30: [copy] of a validated linkage whose joints are objects of the
    store returns a validated linkage built from new objects.  The objects
    that exist are untouched; the joints of [shared_joints] (extended with
    the attachment joints of the shared drivers) are kept; every other joint
    of the linkage gets one new joint object, with the label extended by
    [joint_indic] and the location, flag and chooser of the original;
    distinct joints get distinct copies; the new joints list holds the
    shared joints and the copies; the bars hold the copies in place of the
    originals; the drivers are the shared drivers followed by clones: one
    of every driver of the linkage that is not shared, attached to the copy
    of its attachment joint, and nothing else. *)
Theorem copy_clones (self : Linkage.t) (shared_joints : option nat)
    (shared_drivers : list Driver.t) (joint_indic : string) (w : world) :
  validity_check (bars self) (joints self) (drivers self) = Ok true ->
  (forall j, j ∈ joints self -> is_Some (joint_store w !! j)) ->
  let ref := match shared_joints with Some r => r | None => default_shared_joints end in
  let shared := (list_store w !!! ref) ++ map Driver.attachment_joint shared_drivers in
  exists (new : Linkage.t) (w' : world) (m : gmap joint_id joint_id)
         (clones : list Driver.t),
    copy set_order driver_order self shared_joints shared_drivers joint_indic w
    = (Ok new, w') /\
    (forall j x, joint_store w !! j = Some x -> joint_store w' !! j = Some x) /\
    (forall j, j ∈ shared -> m !! j = Some j) /\
    (forall j, j ∈ joints self -> j ∉ shared ->
       exists j', m !! j = Some j' /\ (j' ∉ shared) /\ joint_store w !! j' = None /\
                  joint_store w' !! j'
                  = Some (cloned_joint joint_indic (joint_store w !!! j))) /\
    (forall j1 j2 j', m !! j1 = Some j' -> m !! j2 = Some j' -> j1 = j2) /\
    (forall j', j' ∈ joints new <->
                exists j, (j ∈ shared \/ j ∈ joints self) /\ m !! j = Some j') /\
    bars new = map (remap_bar m) (bars self) /\
    drivers new = shared_drivers ++ clones /\
    (forall d', d' ∈ clones -> exists d, d ∈ drivers self /\ cloned_driver m d' d) /\
    (forall d, d ∈ drivers self -> Driver.oid d ∉ map Driver.oid shared_drivers ->
       exists d0 d', d0 ∈ drivers self /\ Driver.oid d0 = Driver.oid d /\
                     d' ∈ clones /\ cloned_driver m d' d0) /\
    cache new = Some ∅ /\ simulation_function new = None /\
    validity_check (bars new) (joints new) (drivers new) = Ok true.
Proof.
  intros Hvalid Hobjects ref shared.
  apply validity_check_Ok in Hvalid as [Hbars Hdrivers].
  unfold copy. fold ref. fold shared.
  set (todo := set_order (list_to_set (joints self) ∖ list_to_set shared)).
  destruct (set_order_enumerates (list_to_set (joints self) ∖ list_to_set shared))
    as [Hnd Henum]. fold todo in Hnd, Henum.
  assert (Htodo : forall j, j ∈ todo <-> j ∈ joints self /\ (j ∉ shared)).
  { intros j. rewrite Henum, elem_of_difference, !elem_of_list_to_set. reflexivity. }
  destruct (clone_joints_inv (joint_store w) shared joint_indic todo [] [] _
              (clone_inv_start (joint_store w) shared joint_indic) Hnd)
    as [cl Hinv].
  { intros j Hj. apply Htodo in Hj as [Hj HjS]. split; [exact HjS|].
    split; [intros H; inversion H | apply Hobjects, Hj]. }
  cbn [app] in Hinv.
  set (st := fold_left (clone_joint joint_indic) todo _) in *.
  destruct Hinv as [Hstore Hjoints Hshared Hcloned Hdom Hinj Hfresh].
  assert (Hmapped : forall j, j ∈ joints self ->
            exists j', clone_mapping st !! j = Some j' /\ j' ∈ clone_joints st).
  { intros j Hj. destruct (decide (j ∈ shared)) as [HS|HS].
    - exists j. split; [apply Hshared, HS|]. rewrite Hjoints.
      apply elem_of_app. left. exact HS.
    - destruct (Hcloned j) as (j' & Hm & Hcl & _); [apply Htodo; split; assumption|].
      exists j'. split; [exact Hm|]. rewrite Hjoints. apply elem_of_app. right. exact Hcl. }
  set (to_clone := omap _ _).
  assert (Hto : forall d, d ∈ to_clone -> d ∈ drivers self).
  { intros d Hd. apply list_elem_of_omap in Hd as (o & _ & Hfind).
    apply find_some in Hfind as [Hin _]. apply list_elem_of_In, Hin. }
  destruct (clone_drivers_spec (clone_mapping st) to_clone (next_oid w) shared_drivers)
    as (clones & Hrun & Hrel).
  { intros d Hd. destruct (Hmapped _ (Hdrivers d (Hto d Hd))) as (j' & Hm & _).
    exists j'. exact Hm. }
  rewrite Hrun.
  assert (Hclones : forall d', d' ∈ clones ->
            exists d, d ∈ drivers self /\ cloned_driver (clone_mapping st) d' d).
  { intros d' Hd'. apply list_elem_of_lookup in Hd' as [i Hi].
    destruct (Forall2_lookup_l _ _ _ _ _ Hrel Hi) as (d & Hd & Hcd).
    exists d. split; [|exact Hcd]. apply Hto. eapply list_elem_of_lookup_2, Hd. }
  assert (Hnew : validity_check (map (remap_bar (clone_mapping st)) (bars self))
                   (clone_joints st) (shared_drivers ++ clones) = Ok true).
  { apply validity_check_Ok. split.
    - intros bar' joint' Hbar' Hjoint'.
      apply list_elem_of_fmap in Hbar' as (bar & -> & Hbar).
      cbn [remap_bar Bar.joints] in Hjoint'.
      apply list_elem_of_fmap in Hjoint' as (oldj & -> & Hold).
      destruct (Hmapped oldj (Hbars bar oldj Hbar Hold)) as (j' & Hm & Hin).
      rewrite Hm. exact Hin.
    - intros d' Hd'. apply elem_of_app in Hd' as [Hd'|Hd'].
      + rewrite Hjoints. apply elem_of_app. left. unfold shared.
        apply elem_of_app. right. apply list_elem_of_fmap. exists d'.
        split; [reflexivity | exact Hd'].
      + destruct (Hclones d' Hd') as (d & Hd & (_ & _ & _ & _ & Hm)).
        destruct (Hmapped _ (Hdrivers d Hd)) as (j' & Hm' & Hin).
        rewrite Hm in Hm'. injection Hm' as <-. exact Hin. }
  unfold init. rewrite Hnew. rstep.
  eexists _, _, (clone_mapping st), clones. split; [reflexivity|].
  cbn [joint_store bars joints drivers cache simulation_function].
  split; [exact Hstore|]. split; [exact Hshared|].
  split.
  { intros j Hj HjS. destruct (Hcloned j) as (j' & Hm & Hcl & Hst);
      [apply Htodo; split; assumption|].
    destruct (Hfresh j' Hcl) as (Hh & HS & _).
    exists j'. repeat split; assumption. }
  split; [exact Hinj|].
  split.
  { intros j'. rewrite Hjoints, elem_of_app. split.
    - intros [HS|Hcl].
      + exists j'. split; [left; exact HS | apply Hshared, HS].
      + destruct (Hfresh j' Hcl) as (_ & _ & j & Hd & Hm).
        exists j. split; [right; apply Htodo in Hd as [Hd _]; exact Hd | exact Hm].
    - intros (j & _ & Hm). destruct (Hdom j j' Hm) as [[HS ->]|(_ & _ & Hcl)];
        [left; exact HS | right; exact Hcl]. }
  split; [reflexivity|]. split; [reflexivity|]. split; [exact Hclones|].
  split.
  { intros d Hd Hns.
    destruct (List.find (fun d1 => bool_decide (Driver.oid d1 = Driver.oid d))
                        (drivers self)) as [d0|] eqn:Hfind.
    - pose proof (find_some _ _ Hfind) as [Hin0 Hoid].
      apply bool_decide_eq_true in Hoid.
      assert (H0 : d0 ∈ to_clone).
      { apply list_elem_of_omap. exists (Driver.oid d). split; [|exact Hfind].
        apply driver_order_enumerates, elem_of_difference.
        split.
        - apply elem_of_list_to_set, list_elem_of_fmap. exists d.
          split; [reflexivity | exact Hd].
        - intros H. apply elem_of_list_to_set in H. exact (Hns H). }
      apply list_elem_of_lookup in H0 as [i Hi].
      destruct (Forall2_lookup_r _ _ _ _ _ Hrel Hi) as (d' & Hd' & Hcd).
      exists d0, d'. split; [apply list_elem_of_In, Hin0|]. split; [exact Hoid|].
      split; [eapply list_elem_of_lookup_2, Hd' | exact Hcd].
    - pose proof (find_none _ _ Hfind d (proj1 (list_elem_of_In _ _) Hd)) as Hf.
      cbn in Hf. rewrite bool_decide_eq_true_2 in Hf by reflexivity. discriminate. }
  split; [reflexivity|]. split; [reflexivity | exact Hnew].
Qed.

End CopyResultFacts.

Lemma copy_clones_witness :
  exists (new : Linkage.t) (w' : Linkage.world) (m : gmap joint_id joint_id)
         (clones : list Driver.t),
    Linkage.copy elements elements Examples.cranked_linkage None [] "_c"
      (Linkage.mk_world (Examples.rod_state None None) ∅ 5)
    = (Ok new, w') /\
    (forall j x, Examples.rod_state None None !! j = Some x ->
                 Linkage.joint_store w' !! j = Some x) /\
    (forall j, j ∈ ([] : list joint_id) -> m !! j = Some j) /\
    (forall j, j ∈ Linkage.joints Examples.cranked_linkage -> j ∉ ([] : list joint_id) ->
       exists j', m !! j = Some j' /\ (j' ∉ ([] : list joint_id)) /\
                  Examples.rod_state None None !! j' = None /\
                  Linkage.joint_store w' !! j'
                  = Some (Linkage.cloned_joint "_c" (Examples.rod_state None None !!! j))) /\
    (forall j1 j2 j', m !! j1 = Some j' -> m !! j2 = Some j' -> j1 = j2) /\
    (forall j', j' ∈ Linkage.joints new <->
                exists j, (j ∈ ([] : list joint_id)
                           \/ j ∈ Linkage.joints Examples.cranked_linkage) /\
                          m !! j = Some j') /\
    Linkage.bars new = map (Linkage.remap_bar m) (Linkage.bars Examples.cranked_linkage) /\
    Linkage.drivers new = [] ++ clones /\
    (forall d', d' ∈ clones ->
       exists d, d ∈ Linkage.drivers Examples.cranked_linkage /\
                 Linkage.cloned_driver m d' d) /\
    (forall d, d ∈ Linkage.drivers Examples.cranked_linkage ->
       Driver.oid d ∉ map Driver.oid ([] : list Driver.t) ->
       exists d0 d', d0 ∈ Linkage.drivers Examples.cranked_linkage /\
                     Driver.oid d0 = Driver.oid d /\
                     d' ∈ clones /\ Linkage.cloned_driver m d' d0) /\
    Linkage.cache new = Some ∅ /\ Linkage.simulation_function new = None /\
    Linkage.validity_check (Linkage.bars new) (Linkage.joints new) (Linkage.drivers new)
    = Ok true.
Proof.
  apply (copy_clones elements elements).
  - intros s. split; [apply NoDup_elements | intros j; apply elem_of_elements].
  - intros s o. apply elem_of_elements.
  - reflexivity.
  - intros j Hj. cbn in Hj.
    repeat (apply elem_of_cons in Hj as [->|Hj]; [eexists; reflexivity|]).
    inversion Hj.
Defined.
